(** * A shallow embedding of [search_engine.py]

    The development follows the source file top to bottom: the stop-word
    list and the tokenizer, the [Trie], the breadth-first [WebCrawler], and
    the [SearchEngine] with [build_index], [compute_score] and [search].

    Conventions of the embedding.
    - Python [str] values are Rocq strings (ASCII text).
    - A Python [dict] that the code iterates over is an insertion-ordered
      association list ([PyDict]); a dict or [defaultdict] that is only read
      and written by key is a [gmap]; a Python [set] is a [gset], iterated
      through [elements]: that order stands for the order Python gives the
      set, which depends on the hashes of its strings, so what is stated
      about a result that went through a set is stated up to a
      permutation of its documents.
    - Python numbers that hold scores live in an abstract carrier [F] with
      the operations the code applies to them ([ScoreNum]); the real numbers
      are one instance.
    - Code that can raise returns [res A], a value or the exception; code
      that also mutates the engine threads the engine through ([M]).  The
      crawl raises where the source does: [os.listdir] on a directory that
      cannot be listed, and [soup.title.string.strip()] on a title tag
      without a string; reading a file is inside the [try]. *)

From Stdlib Require Import Ascii String Sorted Reals Lra.
From stdpp Require Import base option list gmap sets strings fin_maps.

Local Open Scope string_scope.
Local Open Scope list_scope.
Local Open Scope nat_scope.
#[local] Set Warnings "-clear-no-such-hyp".

(** ** Stop words and tokenization *)

Definition STOP_WORDS : list string :=
  [ "a";"an";"the";"and";"or";"but";"in";"on";"at";"to";"for";"with";"by";"of";
    "is";"was";"were";"am";"are";"be";"been";"being";"have";"has";"had";"do";
    "does";"did";"will";"would";"shall";"should";"may";"might";"must";"can";
    "could";"i";"you";"he";"she";"it";"we";"they";"them";"their";"his";"her";
    "its";"our";"your";"my";"mine";"yours";"ours";"this";"that";"these";"those";
    "from";"as";"if";"then";"else";"when";"where";"why";"how";"all";"any";"both";
    "each";"few";"more";"most";"some";"such";"up";"down";"over";"under";"again";
    "further";"off";"out";"into";"onto";"about";"between";"during";"before";
    "after";"above";"below";"through";"while";"against";"nor";"only";"own";
    "same";"too";"very";"also" ].

(** [c] matches the character class [[a-zA-Z]]. *)
Definition is_alpha (c : ascii) : bool :=
  let n := nat_of_ascii c in
  ((65 <=? n) && (n <=? 90)) || ((97 <=? n) && (n <=? 122)).

(** [str.lower] on ASCII text. *)
Definition lower_char (c : ascii) : ascii :=
  let n := nat_of_ascii c in
  if (65 <=? n) && (n <=? 90) then ascii_of_nat (n + 32) else c.

Fixpoint lower (s : string) : string :=
  match s with
  | EmptyString => EmptyString
  | String c s' => String (lower_char c) (lower s')
  end.

(** [re.findall(r"[a-zA-Z]+", s)]: the maximal runs of letters, left to
    right.  [cur] is the run being read, kept reversed. *)
Fixpoint findall_alpha_from (s : string) (cur : list ascii) : list string :=
  match s with
  | EmptyString =>
      match cur with [] => [] | _ => [string_of_list_ascii (rev cur)] end
  | String c s' =>
      if is_alpha c then findall_alpha_from s' (c :: cur)
      else match cur with
           | [] => findall_alpha_from s' []
           | _ => string_of_list_ascii (rev cur) :: findall_alpha_from s' []
           end
  end.

Definition findall_alpha (s : string) : list string := findall_alpha_from s [].

(** [[w for w in words if w not in STOP_WORDS]] *)
Definition remove_stop_words (words : list string) : list string :=
  filter (λ w, w ∉ STOP_WORDS) words.

(** The first two lines of [search], and the same two steps of [extract]. *)
Definition tokenize (text : string) : list string :=
  remove_stop_words (findall_alpha (lower text)).

(** [s.endswith(suffix)] *)
Definition endswith (s suffix : string) : bool :=
  let n := String.length s in
  let k := String.length suffix in
  (k <=? n) && String.eqb (substring (n - k) k s) suffix.

(** ** Python dictionaries that are iterated over *)

Module PyDict.
Section defs.
Context {K V : Type} `{EqDecision K}.

Definition empty : list (K * V) := [].

(** [d.get(k)] *)
Fixpoint get (d : list (K * V)) (k : K) : option V :=
  match d with
  | [] => None
  | (k', v) :: d' => if decide (k' = k) then Some v else get d' k
  end.

(** [d[k] = v]: an existing key keeps its place, a new one goes last. *)
Fixpoint set (d : list (K * V)) (k : K) (v : V) : list (K * V) :=
  match d with
  | [] => [(k, v)]
  | (k', v') :: d' =>
      if decide (k' = k) then (k', v) :: d' else (k', v') :: set d' k v
  end.

Definition keys (d : list (K * V)) : list K := d.*1.
Definition values (d : list (K * V)) : list V := d.*2.
Definition items (d : list (K * V)) : list (K * V) := d.

(** [k in d] *)
Definition mem (d : list (K * V)) (k : K) : bool :=
  match get d k with Some _ => true | None => false end.
End defs.
End PyDict.

(** ** Trie *)

#[warnings="-register-all"]
Inductive TrieNode : Type :=
  Node (occurrence_index : option nat) (children : gmap ascii TrieNode).

Definition occurrence_index (n : TrieNode) : option nat :=
  match n with Node o _ => o end.
Definition children (n : TrieNode) : gmap ascii TrieNode :=
  match n with Node _ c => c end.

(** [TrieNode()] *)
Definition TrieNode_new : TrieNode := Node None ∅.

Module Trie.
(** [Trie()]: the trie is its root node. *)
Definition new : TrieNode := TrieNode_new.

(** [insert] walks down from the root, creating the missing children, and
    sets [occurrence_index] on the last node.  The walk is the recursion
    on [word]; the node returned is the updated node. *)
Fixpoint insert_at (node : TrieNode) (word : string) (occ_idx : nat)
  : TrieNode :=
  match word with
  | EmptyString => Node (Some occ_idx) (children node)
  | String char rest =>
      let child :=
        match children node !! char with
        | None => TrieNode_new
        | Some n => n
        end in
      Node (occurrence_index node)
           (<[char := insert_at child rest occ_idx]> (children node))
  end.

Definition insert (root : TrieNode) (word : string) (occ_idx : nat)
  : TrieNode := insert_at root word occ_idx.

Fixpoint search_at (node : TrieNode) (word : string) : option nat :=
  match word with
  | EmptyString => occurrence_index node
  | String char rest =>
      match children node !! char with
      | None => None
      | Some n => search_at n rest
      end
  end.

Definition search (root : TrieNode) (word : string) : option nat :=
  search_at root word.
End Trie.

(** ** Exceptions *)

(** The exceptions the code can raise: [OSError] stands for what
    [os.listdir] raises on a directory it cannot list, [AttributeError] is
    the [None.strip()] of [extract]. *)
Inductive exn :=
| KeyError | IndexError | TypeError | ZeroDivisionError
| AttributeError | OSError.

(** The outcome of code that may raise. *)
Inductive res (A : Type) := Ok (a : A) | Raise (e : exn).
Arguments Ok {A} a.
Arguments Raise {A} e.

(** A [for] loop whose body may raise. *)
Fixpoint res_for {A B : Type} (body : A → B → res A) (l : list B) (a : A)
  : res A :=
  match l with
  | [] => Ok a
  | x :: l' =>
      match body a x with
      | Ok a' => res_for body l' a'
      | Raise e => Raise e
      end
  end.

(** ** WebCrawler *)

(** What [BeautifulSoup(html, "html.parser")] hands to [extract], after the
    script and style tags are dropped.  [soup_title] is [None] when
    [soup.title] is [None] (no title tag), [Some None] when there is a title
    tag whose [.string] is [None] (an empty title, or one with nested tags),
    and [Some (Some s)] when [soup.title.string.strip()] is [s].
    [soup_text] is [soup.get_text(separator=" ")], and [soup_hrefs] lists the
    [href] of every anchor that has one, in document order. *)
Record Soup := {
  soup_title : option (option string);
  soup_text : string;
  soup_hrefs : list string
}.

(** The directory the crawler runs on: [listdir] is [os.listdir(self.dir)],
    or [None] when it raises (no such directory, not a directory, no
    permission); [read_file f] is the text of [f], or [None] when [open] or
    [read] raises; and [parse] is the HTML parser. *)
Record Directory := {
  listdir : option (list string);
  read_file : string → option string;
  parse : string → Soup
}.

(** The value stored under [self.pages[file]]. *)
Record Page := { title : string; words : list string }.

Record WebCrawler := {
  pages : list (string * Page);
  links : list (string * list string)
}.

Definition WebCrawler_init : WebCrawler :=
  {| pages := PyDict.empty; links := PyDict.empty |}.

(** [extract]: the title comes first, and [soup.title.string.strip()]
    raises [AttributeError] when the title tag has no string. *)
Definition extract (dir : Directory) (html filename : string)
  : res (string * list string * list string) :=
  let soup := parse dir html in
  match soup_title soup with
  | Some None => Raise AttributeError
  | title_tag =>
      let title :=
        match title_tag with Some (Some s) => s | _ => filename end in
      let words := tokenize (soup_text soup) in
      let link_list :=
        filter (λ href, endswith href ".html" = true) (soup_hrefs soup) in
      Ok (title, words, link_list)
  end.

(** The local state of [crawl] while its loop runs. *)
Record CrawlState := {
  queue : list string;
  visited : gset string;
  self_pages : list (string * Page);
  self_links : list (string * list string)
}.

(** One turn of [for link in outgoing]; [self.links] is a
    [defaultdict(list)], so a missing key starts from the empty list. *)
Definition follow_link (all_files : list string) (visited : gset string)
    (file : string) (st : list (string * list string) * list string)
    (link : string) : list (string * list string) * list string :=
  let '(lks, q) := st in
  let lks' := PyDict.set lks file (default [] (PyDict.get lks file) ++ [link]) in
  let q' := if bool_decide ((link ∉ visited) ∧ (link ∈ all_files))
            then q ++ [link] else q in
  (lks', q').

(** The body of [while queue], after [file = queue.popleft()].  Only the
    [open] and [read] are inside the [try]: an exception of [extract]
    leaves the loop and [crawl]. *)
Definition crawl_visit (dir : Directory) (all_files : list string)
    (file : string) (rest : list string) (st : CrawlState) : res CrawlState :=
  if bool_decide (file ∈ visited st) then
    Ok {| queue := rest; visited := visited st;
          self_pages := self_pages st; self_links := self_links st |}
  else
    let visited' := {[file]} ∪ visited st in
    match read_file dir file with
    | None =>
        Ok {| queue := rest; visited := visited';
              self_pages := self_pages st; self_links := self_links st |}
    | Some html =>
        match extract dir html file with
        | Raise e => Raise e
        | Ok (title, words, outgoing) =>
            let pages' :=
              PyDict.set (self_pages st) file
                         {| title := title; words := words |} in
            let '(lks, q) :=
              fold_left (follow_link all_files visited' file) outgoing
                        (self_links st, rest) in
            Ok {| queue := q; visited := visited';
                  self_pages := pages'; self_links := lks |}
        end
    end.

(** [while queue: ...]; [None] when [fuel] turns do not empty the queue. *)
Fixpoint crawl_loop (dir : Directory) (all_files : list string)
    (fuel : nat) (st : CrawlState) : option (res CrawlState) :=
  match fuel with
  | 0 => None
  | S fuel' =>
      match queue st with
      | [] => Some (Ok st)
      | file :: rest =>
          match crawl_visit dir all_files file rest st with
          | Raise e => Some (Raise e)
          | Ok st' => crawl_loop dir all_files fuel' st'
          end
      end
  end.

(** [[f for f in names if f.endswith(".html")]] *)
Definition html_files (names : list string) : list string :=
  filter (λ f, endswith f ".html" = true) names.

(** The number of links [extract] reports for [file] (0 when there is
    none to report). *)
Definition out_degree (dir : Directory) (file : string) : nat :=
  match read_file dir file with
  | None => 0
  | Some html =>
      match extract dir html file with
      | Ok (_, _, outgoing) => length outgoing
      | Raise _ => 0
      end
  end.

(** A number of loop turns that always suffices (see [crawl_loop_fuel]). *)
Definition crawl_fuel (dir : Directory) (all_files : list string) : nat :=
  length all_files * S (max_list (out_degree dir <$> all_files))
  + length all_files + 1.

Definition crawl_start (self : WebCrawler) (all_files : list string)
  : CrawlState :=
  {| queue := fold_left (λ q file, q ++ [file]) all_files [];
     visited := ∅;
     self_pages := pages self; self_links := links self |}.

(** [crawl]: [None] when the model runs out of fuel, [Some (Raise e)] when
    an exception escapes ([os.listdir], or [extract] on some file),
    [Some (Ok self')] with the crawler as [crawl] leaves it otherwise. *)
Definition crawl (dir : Directory) (self : WebCrawler)
  : option (res WebCrawler) :=
  match listdir dir with
  | None => Some (Raise OSError)
  | Some names =>
      let all_files := html_files names in
      match crawl_loop dir all_files (crawl_fuel dir all_files)
                       (crawl_start self all_files) with
      | None => None
      | Some (Raise e) => Some (Raise e)
      | Some (Ok st) =>
          Some (Ok {| pages := self_pages st; links := self_links st |})
      end
  end.

(** ** Scores *)

(** The arithmetic [compute_score] and [search] apply to scores.  [of_nat]
    is the conversion of a Python [int] that meets a float; [tenth] is the
    literal [0.1]; [flt] is [<] as [sorted] uses it.  The two laws make [flt]
    a strict weak order, which is what sorting relies on. *)
Class ScoreNum (F : Type) := {
  of_nat : nat → F;
  fadd : F → F → F;
  fmul : F → F → F;
  fdiv : F → F → F;
  flog : F → F;
  tenth : F;
  flt : F → F → bool;
  flt_asym : ∀ x y, flt x y = true → flt y x = false;
  flt_negtrans : ∀ x y z, flt x y = false → flt y z = false → flt x z = false
}.

(** ** SearchEngine *)

Record SearchEngine := {
  ranking_mode : string;
  crawler : WebCrawler;
  trie : TrieNode;
  inverted_index : list (gmap string nat);
  word_to_index : list (string * nat);
  document_lengths : gmap string nat;
  incoming_links : gmap string nat
}.

(** [SearchEngine(directory, ranking_mode)] *)
Definition SearchEngine_init (ranking_mode : string) : SearchEngine :=
  {| ranking_mode := ranking_mode;
     crawler := WebCrawler_init;
     trie := Trie.new;
     inverted_index := [];
     word_to_index := PyDict.empty;
     document_lengths := ∅;
     incoming_links := ∅ |}.

(** [d[k]] on a [defaultdict(int)]: the value read, and the dictionary
    afterwards (a missing key is inserted with value 0). *)
Definition defaultdict_getitem (d : gmap string nat) (k : string)
  : nat * gmap string nat :=
  match d !! k with
  | Some v => (v, d)
  | None => (0, <[k := 0]> d)
  end.

(** [d[k] += 1] on a [defaultdict(int)] *)
Definition defaultdict_incr (d : gmap string nat) (k : string)
  : gmap string nat :=
  let '(v, d') := defaultdict_getitem d k in <[k := v + 1]> d'.

(** [Counter(words)] counts one word at a time, [c[w] = c.get(w, 0) + 1];
    its keys are in order of first occurrence. *)
Definition count_word (c : list (string * nat)) (w : string)
  : list (string * nat) :=
  PyDict.set c w (default 0 (PyDict.get c w) + 1).

Definition Counter (words : list string) : list (string * nat) :=
  fold_left count_word words PyDict.empty.

(** The loop "Count incoming links". *)
Definition count_incoming (lks : list (string * list string))
    (incoming : gmap string nat) : gmap string nat :=
  fold_left (λ inc '(src, outs), fold_left defaultdict_incr outs inc)
            (PyDict.items lks) incoming.

(** What the loop "Build inverted index" updates. *)
Record Index := {
  ix_inverted_index : list (gmap string nat);
  ix_word_to_index : list (string * nat);
  ix_document_lengths : gmap string nat
}.

(** The body of [for word, freq in word_freq.items()]. *)
Definition index_word (file : string) (ix : Index) (wf : string * nat)
  : res Index :=
  let '(word, freq) := wf in
  let ix1 :=
    if PyDict.mem (ix_word_to_index ix) word then ix
    else {| ix_inverted_index := ix_inverted_index ix ++ [∅];
            ix_word_to_index :=
              PyDict.set (ix_word_to_index ix) word
                         (length (ix_inverted_index ix));
            ix_document_lengths := ix_document_lengths ix |} in
  match PyDict.get (ix_word_to_index ix1) word with
  | None => Raise KeyError
  | Some idx =>
      match ix_inverted_index ix1 !! idx with
      | None => Raise IndexError
      | Some occ =>
          Ok {| ix_inverted_index :=
                  <[idx := <[file := freq]> occ]> (ix_inverted_index ix1);
                ix_word_to_index := ix_word_to_index ix1;
                ix_document_lengths := ix_document_lengths ix1 |}
      end
  end.

(** The body of [for file, data in self.crawler.pages.items()]. *)
Definition index_page (ix : Index) (entry : string * Page) : res Index :=
  let '(file, data) := entry in
  let word_freq := Counter (words data) in
  let ix1 :=
    {| ix_inverted_index := ix_inverted_index ix;
       ix_word_to_index := ix_word_to_index ix;
       ix_document_lengths :=
         <[file := sum_list (PyDict.values word_freq)]>
           (ix_document_lengths ix) |} in
  res_for (index_word file) (PyDict.items word_freq) ix1.

(** The loop "Insert into Trie". *)
Definition fill_trie (w2i : list (string * nat)) (root : TrieNode)
  : TrieNode :=
  fold_left (λ tr '(word, idx), Trie.insert tr word idx)
            (PyDict.items w2i) root.

(** [build_index]: [None] when the model of [crawl] runs out of fuel,
    [Some (Raise e)] when an exception escapes, [Some (Ok self')] with the
    engine as [build_index] leaves it otherwise. *)
Definition build_index (dir : Directory) (self : SearchEngine)
  : option (res SearchEngine) :=
  match crawl dir (crawler self) with
  | None => None
  | Some (Raise e) => Some (Raise e)
  | Some (Ok c) =>
      let incoming := count_incoming (links c) (incoming_links self) in
      let ix0 := {| ix_inverted_index := inverted_index self;
                    ix_word_to_index := word_to_index self;
                    ix_document_lengths := document_lengths self |} in
      Some
        match res_for index_page (PyDict.items (pages c)) ix0 with
        | Raise e => Raise e
        | Ok ix =>
            Ok {| ranking_mode := ranking_mode self;
                  crawler := c;
                  trie := fill_trie (ix_word_to_index ix) (trie self);
                  inverted_index := ix_inverted_index ix;
                  word_to_index := ix_word_to_index ix;
                  document_lengths := ix_document_lengths ix;
                  incoming_links := incoming |}
        end
  end.

(** *** Code that reads and may change the engine *)

Definition M (A : Type) : Type := SearchEngine → res A * SearchEngine.

#[export] Instance M_ret : MRet M := λ A a self, (Ok a, self).
#[export] Instance M_bind : MBind M := λ A B f m self,
  match m self with
  | (Ok a, self') => f a self'
  | (Raise e, self') => (Raise e, self')
  end.

Definition raise {A : Type} (e : exn) : M A := λ self, (Raise e, self).
Definition read {A : Type} (f : SearchEngine → A) : M A :=
  λ self, (Ok (f self), self).
Definition read_self : M SearchEngine := λ self, (Ok self, self).
Definition lift {A : Type} (r : res A) : M A := λ self, (r, self).

(** A [for] loop in [M]. *)
Fixpoint M_for {A B : Type} (body : A → B → M A) (l : list B) (a : A) : M A :=
  match l with
  | [] => mret a
  | x :: l' => a' ← body a x; M_for body l' a'
  end.

Definition set_inverted_index (inv : list (gmap string nat))
    (self : SearchEngine) : SearchEngine :=
  {| ranking_mode := ranking_mode self; crawler := crawler self;
     trie := trie self; inverted_index := inv;
     word_to_index := word_to_index self;
     document_lengths := document_lengths self;
     incoming_links := incoming_links self |}.

Definition set_incoming_links (inc : gmap string nat)
    (self : SearchEngine) : SearchEngine :=
  {| ranking_mode := ranking_mode self; crawler := crawler self;
     trie := trie self; inverted_index := inverted_index self;
     word_to_index := word_to_index self;
     document_lengths := document_lengths self;
     incoming_links := inc |}.

(** [self.inverted_index[idx]], then [len(occurrences)] and
    [occurrences[doc]]; the posting list is a [defaultdict(int)], so the
    read stores a 0 under a missing [doc]. *)
Definition read_occurrences (idx : nat) (doc : string) : M (nat * nat) :=
  λ self,
    match inverted_index self !! idx with
    | None => (Raise IndexError, self)
    | Some occurrences =>
        let df := size occurrences in
        let '(freq, occurrences') := defaultdict_getitem occurrences doc in
        (Ok (df, freq),
         set_inverted_index (<[idx := occurrences']> (inverted_index self)) self)
    end.

(** [self.incoming_links[doc]], a [defaultdict(int)] as well. *)
Definition read_incoming_links (doc : string) : M nat :=
  λ self,
    let '(n, inc') := defaultdict_getitem (incoming_links self) doc in
    (Ok n, set_incoming_links inc' self).

Section search.
Context {F : Type} `{ScoreNum F}.

(** [math.log((1 + N) / (1 + df)) + 1] *)
Definition idf (N df : nat) : F :=
  fadd (flog (fdiv (of_nat (1 + N)) (of_nat (1 + df)))) (of_nat 1).

Definition compute_score (self : SearchEngine) (word doc : string)
    (freq N df : nat) : res F :=
  if String.eqb (ranking_mode self) "simple" then Ok (of_nat freq)
  else
    match document_lengths self !! doc with
    | None => Raise KeyError
    | Some 0 => Raise ZeroDivisionError
    | Some L =>
        let tf := fdiv (of_nat freq) (of_nat L) in
        Ok (fmul tf (idf N df))
    end.

(** The first loop of [search]: [Ok None] is its [return []]. *)
Fixpoint collect_doc_sets (self : SearchEngine) (terms : list string)
    (doc_sets : list (gset string)) : res (option (list (gset string))) :=
  match terms with
  | [] => Ok (Some doc_sets)
  | t :: terms' =>
      match Trie.search (trie self) t with
      | None => Ok None
      | Some idx =>
          match inverted_index self !! idx with
          | None => Raise IndexError
          | Some occurrences =>
              collect_doc_sets self terms' (doc_sets ++ [dom occurrences])
          end
      end
  end.

(** [set.intersection] applied to the sets of [doc_sets]; with no set at
    all the call is a [TypeError]. *)
Definition set_intersection (doc_sets : list (gset string))
  : res (gset string) :=
  match doc_sets with
  | [] => Raise TypeError
  | s :: rest => Ok (fold_left (∩) rest s)
  end.

(** The body of [for t in terms] in the ranking loop. *)
Definition score_term (doc : string) (N : nat) (total_score : F)
    (t : string) : M F :=
  tr ← read trie;
  match Trie.search tr t with
  | None => raise TypeError
  | Some idx =>
      '(df, freq) ← read_occurrences idx doc;
      self ← read_self;
      s ← lift (compute_score self t doc freq N df);
      mret (fadd total_score s)
  end.

(** The body of [for doc in matching_docs]. *)
Definition score_doc (terms : list string) (N : nat)
    (scores : list (string * F)) (doc : string) : M (list (string * F)) :=
  total_score ← M_for (score_term doc N) terms (of_nat 0);
  n ← read_incoming_links doc;
  mret (PyDict.set scores doc (fadd total_score (fmul tenth (of_nat n)))).

(** [sorted(items, key=lambda x: x[1], reverse=True)]: a stable sort,
    largest score first. *)
Fixpoint insert_desc (x : string * F) (l : list (string * F))
  : list (string * F) :=
  match l with
  | [] => [x]
  | y :: l' => if flt x.2 y.2 then y :: insert_desc x l' else x :: y :: l'
  end.

Definition sorted_desc (l : list (string * F)) : list (string * F) :=
  foldr insert_desc [] l.

Definition search (query : string) : M (list (string * F)) :=
  let terms := tokenize query in
  match terms with
  | [] => mret []
  | _ =>
      self ← read_self;
      collected ← lift (collect_doc_sets self terms []);
      match collected with
      | None => mret []
      | Some doc_sets =>
          matching_docs ← lift (set_intersection doc_sets);
          if decide (matching_docs = ∅) then mret []
          else
            let N := length (pages (crawler self)) in
            scores ← M_for (score_doc terms N) (elements matching_docs)
                           PyDict.empty;
            mret (sorted_desc (PyDict.items scores))
      end
  end.
End search.

(** ** The main loop *)

(** What one turn of the interactive loop prints: "No results found.", or
    the number of results followed by one line per result, given here as
    the title, the document and the score (the line's text formatting is
    left out). *)
Inductive Reply (F : Type) : Type :=
| NoResults
| Found (count : nat) (lines : list (string * string * F)).
Arguments NoResults {F}.
Arguments Found {F} count lines.

Section main.
Context {F : Type} `{ScoreNum F}.

(** [for doc, score in results]: the title is read with
    [engine.crawler.pages[doc]["title"]], a [KeyError] when [doc] is no
    page. *)
Fixpoint result_lines (engine : SearchEngine) (results : list (string * F))
  : res (list (string * string * F)) :=
  match results with
  | [] => Ok []
  | (doc, score) :: rest =>
      match PyDict.get (pages (crawler engine)) doc with
      | None => Raise KeyError
      | Some page =>
          match result_lines engine rest with
          | Ok lines => Ok ((title page, doc, score) :: lines)
          | Raise e => Raise e
          end
      end
  end.

(** One turn of [while True] for the line [query]: [None] is the [break]
    on "q". *)
Definition main_turn (query : string) : option (M (Reply F)) :=
  if String.eqb (lower query) "q" then None
  else Some (
    results ← search query;
    match results with
    | [] => mret NoResults
    | _ =>
        engine ← read_self;
        lines ← lift (result_lines engine results);
        mret (Found (length results) lines)
    end).
End main.

(** * Specification vocabulary *)

(** ** Quantities of the ranking formula *)

(** The number of occurrences of [t] in [ws]. *)
Definition freq_in (t : string) (ws : list string) : nat :=
  length (filter (λ w, w = t) ws).

(** freq(t, D): occurrences of [t] in document [D] of the pages [pgs]
    (0 if [D] is no page). *)
Definition freq (pgs : list (string * Page)) (t D : string) : nat :=
  match PyDict.get pgs D with
  | Some d => freq_in t (words d)
  | None => 0
  end.

(** L(D): the total term count of document [D]. *)
Definition doc_length (pgs : list (string * Page)) (D : string) : nat :=
  match PyDict.get pgs D with
  | Some d => length (words d)
  | None => 0
  end.

(** The documents containing [t], in crawl order; df(t) is their number. *)
Definition docs_containing (pgs : list (string * Page)) (t : string)
  : list string :=
  (filter (λ entry, t ∈ words entry.2) pgs).*1.

Definition df (pgs : list (string * Page)) (t : string) : nat :=
  length (docs_containing pgs t).

(** The number of recorded edges [src -> d] in the link multimap [lks]. *)
Definition edge_count (lks : list (string * list string)) (d : string) : nat :=
  length (filter (λ dest, dest = d) (concat (PyDict.values lks))).

Definition nonzero (n : nat) : option nat :=
  if decide (n = 0) then None else Some n.

(** The posting list of [t]: every document containing [t], mapped to the
    number of occurrences. *)
Definition posting_of (pgs : list (string * Page)) (t : string)
  : gmap string nat :=
  omap (λ d, nonzero (freq_in t (words d))) (list_to_map pgs : gmap string Page).

(** [t] occurs in some page of [pgs]. *)
Definition occurs (pgs : list (string * Page)) (t : string) : Prop :=
  ∃ f d, (f, d) ∈ pgs ∧ t ∈ words d.

(** The words of all pages in one list: page after page in the order of
    [pages], the words of a page in the order of its text. *)
Definition all_words (pgs : list (string * Page)) : list string :=
  concat ((λ entry, words entry.2) <$> pgs).

(** The distinct elements of a list in the order in which each is first
    met: an element stays, and is struck from what follows it. *)
Fixpoint first_occurrences (l : list string) : list string :=
  match l with
  | [] => []
  | w :: l' => w :: filter (λ x, x ≠ w) (first_occurrences l')
  end.

(** The keys of a dictionary after [if k not in d: d[k] = ...]: a new key
    goes last. *)
Definition add_new (ks : list string) (k : string) : list string :=
  if decide (k ∈ ks) then ks else ks ++ [k].

(** ** Terms *)

(** [c] is one of [a] .. [z]. *)
Definition is_lower (c : ascii) : bool :=
  let n := nat_of_ascii c in (97 <=? n) && (n <=? 122).

(** A term as the index and the queries know it: not empty, lower-case
    letters only, and no stop word. *)
Definition is_term (w : string) : Prop :=
  w ≠ "" ∧ Forall (λ c, is_lower c = true) (list_ascii_of_string w) ∧
  w ∉ STOP_WORDS.

(** ** The crawl *)

(** The enumerated files: the [.html] names of the directory listing
    (none when the directory cannot be listed). *)
Definition enumerate (dir : Directory) : list string :=
  match listdir dir with
  | Some names => html_files names
  | None => []
  end.

(** What [crawl] is meant to record for an enumerated file. *)
Definition page_of (dir : Directory) (file : string) : option Page :=
  match read_file dir file with
  | None => None
  | Some html =>
      match extract dir html file with
      | Ok (title, words, _) => Some {| title := title; words := words |}
      | Raise _ => None
      end
  end.

Definition links_of (dir : Directory) (file : string) : list string :=
  match read_file dir file with
  | None => []
  | Some html =>
      match extract dir html file with
      | Ok (_, _, outgoing) => outgoing
      | Raise _ => []
      end
  end.

(** [extract] raises on the file [file]: it can be read and its title tag
    has no string. *)
Definition bad_title (dir : Directory) (file : string) : Prop :=
  ∃ html, read_file dir file = Some html ∧
          soup_title (parse dir html) = Some None.

(** What holds each time the loop of [crawl] tests its queue. *)
Record CrawlInv (dir : Directory) (all_files : list string)
    (st : CrawlState) : Prop := {
  ci_queue : ∀ f, f ∈ queue st → f ∈ all_files;
  ci_visited : ∀ f, f ∈ visited st → f ∈ all_files;
  ci_covered : ∀ f, f ∈ all_files → f ∈ visited st ∨ f ∈ queue st;
  ci_pages_nodup : NoDup (PyDict.keys (self_pages st));
  ci_pages : ∀ f,
    PyDict.get (self_pages st) f =
    if decide (f ∈ visited st) then page_of dir f else None;
  ci_links_nodup : NoDup (PyDict.keys (self_links st));
  ci_links : ∀ f,
    default [] (PyDict.get (self_links st) f) =
    if decide (f ∈ visited st) then links_of dir f else [];
  ci_extract : ∀ f, f ∈ visited st → ¬ bad_title dir f
}.

(** The links one visit appends to the queue. *)
Definition enqueued (all_files : list string) (visited : gset string)
    (outgoing : list string) : list string :=
  filter (λ link, (link ∉ visited) ∧ (link ∈ all_files)) outgoing.

Definition max_out (dir : Directory) (all_files : list string) : nat :=
  max_list (out_degree dir <$> all_files).

(** The termination measure of the loop of [crawl]: an unvisited file
    weighs more than anything one visit can enqueue. *)
Definition measure (dir : Directory) (all_files : list string)
    (st : CrawlState) : nat :=
  size (list_to_set all_files ∖ visited st : gset string)
  * S (max_out dir all_files)
  + length (queue st).

(** No entry of an inbound-link table is 0. *)
Definition no_zero_entry (m : gmap string nat) : Prop :=
  ∀ d n, m !! d = Some n → 0 < n.

(** Where the loop of [crawl] stands when the enumerated files are all
    different: the files [done] have been taken from the queue, in order,
    the files [todo] are still ahead, and behind them wait only links to
    enumerated files. *)
Definition CrawlOrder (dir : Directory) (all_files : list string)
    (st : CrawlState) : Prop :=
  ∃ done todo extra,
    all_files = done ++ todo ∧
    queue st = todo ++ extra ∧
    visited st = list_to_set done ∧
    PyDict.keys (self_pages st)
      = filter (λ f, is_Some (read_file dir f)) done ∧
    ∀ x, x ∈ extra → x ∈ all_files.

(** ** The index *)

(** The state of the inverted index while it is built: [known] tells which
    terms have a position, [P] what their posting lists hold. *)
Record IxInv (known : string → Prop) (P : string → gmap string nat)
    (ix : Index) : Prop := {
  inv_nodup : NoDup (PyDict.keys (ix_word_to_index ix));
  inv_values :
    PyDict.values (ix_word_to_index ix) =
    seq 0 (length (ix_inverted_index ix));
  inv_known : ∀ t, is_Some (PyDict.get (ix_word_to_index ix) t) ↔ known t;
  inv_post : ∀ t idx,
    PyDict.get (ix_word_to_index ix) t = Some idx →
    ix_inverted_index ix !! idx = Some (P t)
}.

(** The state of the index once the pages [done] are processed. *)
Definition PagesInv (done : list (string * Page)) (ix : Index) : Prop :=
  IxInv (occurs done) (posting_of done) ix ∧
  ∀ f, ix_document_lengths ix !! f =
       (λ d, length (words d)) <$> PyDict.get done f.

Definition index_of (e : SearchEngine) : Index :=
  {| ix_inverted_index := inverted_index e;
     ix_word_to_index := word_to_index e;
     ix_document_lengths := document_lengths e |}.

(** [e] is an engine in mode [mode] whose index describes the crawl [c]:
    the trie answers as [word_to_index], every term of a page has one
    position, its posting list there, the length table gives each page its
    word count, and [incoming_links] reads as the number of recorded
    edges. *)
Record Indexed (mode : string) (c : WebCrawler) (e : SearchEngine) : Prop := {
  ixd_mode : ranking_mode e = mode;
  ixd_crawler : crawler e = c;
  ixd_pages : NoDup (PyDict.keys (pages c));
  ixd_trie : ∀ t, Trie.search (trie e) t = PyDict.get (word_to_index e) t;
  ixd_index : IxInv (occurs (pages c)) (posting_of (pages c)) (index_of e);
  ixd_lengths : ∀ f,
    document_lengths e !! f =
    (λ d, length (words d)) <$> PyDict.get (pages c) f;
  ixd_incoming : ∀ d,
    default 0 (incoming_links e !! d) = edge_count (links c) d
}.

(** [D] is a key of the posting list the engine finds for [t]. *)
Definition in_posting (e : SearchEngine) (t D : string) : Prop :=
  ∃ idx occ,
    Trie.search (trie e) t = Some idx ∧
    inverted_index e !! idx = Some occ ∧ D ∈ dom occ.

(** ** The result of [search] *)

(** The documents that contain every term of a non-empty query. *)
Definition candidates (pgs : list (string * Page)) (terms : list string)
  : gset string :=
  match terms with
  | [] => ∅
  | _ => filter (λ D, Forall (λ t, 0 < freq pgs t D) terms)
                (list_to_set (PyDict.keys pgs))
  end.

(** The engine after a [search] that scored the documents [docs]: reading
    [incoming_links] for a document with no entry stores a 0 for it. *)
Definition touch (docs : gset string) (e : SearchEngine) : SearchEngine :=
  set_incoming_links (incoming_links e ∪ gset_to_gmap 0 docs) e.

Section ranking.
Context {F : Type} `{ScoreNum F}.

(** The score of one term for one document, by ranking mode. *)
Definition term_score (mode : string) (pgs : list (string * Page))
    (t D : string) : F :=
  if String.eqb mode "simple" then of_nat (freq pgs t D)
  else fmul (fdiv (of_nat (freq pgs t D)) (of_nat (doc_length pgs D)))
            (idf (length pgs) (df pgs t)).

(** The total of a document: the term scores added up in query order,
    then the link bonus. *)
Definition total_score (mode : string) (c : WebCrawler)
    (terms : list string) (D : string) : F :=
  fadd (fold_left (λ acc t, fadd acc (term_score mode (pages c) t D))
                  terms (of_nat 0))
       (fmul tenth (of_nat (edge_count (links c) D))).

(** The TF-IDF total as the specification words it: the sum over the query
    terms of [(freq / L) * (ln((1 + N) / (1 + df)) + 1)], plus
    [0.1 * inbound] once. *)
Definition spec_tfidf_total (pgs : list (string * Page))
    (inbound : string → nat) (terms : list string) (D : string) : F :=
  let N := length pgs in
  fadd (fold_left
          (λ sum t,
             fadd sum
               (fmul (fdiv (of_nat (freq pgs t D)) (of_nat (doc_length pgs D)))
                     (fadd (flog (fdiv (of_nat (1 + N)) (of_nat (1 + df pgs t))))
                           (of_nat 1))))
          terms (of_nat 0))
       (fmul tenth (of_nat (inbound D))).

(** The ranked list: candidates in set order, scored, sorted. *)
Definition ranking (mode : string) (c : WebCrawler) (terms : list string)
  : list (string * F) :=
  sorted_desc
    ((λ D, (D, total_score mode c terms D))
       <$> elements (candidates (pages c) terms)).

(** No score is smaller than a later one. *)
Definition descending (l : list (string * F)) : Prop :=
  StronglySorted (λ x y, flt x.2 y.2 = false) l.

(** The engines that answer queries: the one [build_index] leaves on a
    fresh engine, and the one any [search] leaves after it. *)
Inductive serving (dir : Directory) (mode : string) : SearchEngine → Prop :=
| serving_built e :
    build_index dir (SearchEngine_init mode) = Some (Ok e) →
    serving dir mode e
| serving_search e query :
    serving dir mode e → serving dir mode (search query e).2.
End ranking.

(** ** Python values *)

(** The values [search] hands to its caller, as Python sees them: a list
    whose elements are the tuples of [dict.items()]. *)
#[warnings="-register-all"]
Inductive pyobj (F : Type) : Type :=
| PyStr (s : string)
| PyFloat (x : F)
| PyTuple (fields : list (pyobj F)).
Arguments PyStr {F} s.
Arguments PyFloat {F} x.
Arguments PyTuple {F} fields.

Definition py_items {F : Type} (l : list (string * F)) : list (pyobj F) :=
  (λ kv, PyTuple [PyStr kv.1; PyFloat kv.2]) <$> l.

(** ** Real-valued scores *)

Definition R_lt (x y : R) : bool := if Rlt_dec x y then true else false.

#[export] Program Instance R_ScoreNum : ScoreNum R :=
  {| of_nat := INR; fadd := Rplus; fmul := Rmult; fdiv := Rdiv;
     flog := ln; tenth := (1 / 10)%R; flt := R_lt |}.
Next Obligation.
  intros x y. unfold R_lt. destruct (Rlt_dec x y), (Rlt_dec y x); try done.
  lra.
Qed.
Next Obligation.
  intros x y z. unfold R_lt.
  destruct (Rlt_dec x y), (Rlt_dec y z), (Rlt_dec x z); try done. lra.
Qed.

(** ** A small collection *)

(** [a.html] and [b.html] link to each other, [c.html] stands alone,
    [d.html] cannot be read, and [notes.txt] is not enumerated. *)
Definition ex_dir : Directory :=
  {| listdir := Some ["a.html"; "b.html"; "c.html"; "d.html"; "notes.txt"];
     read_file := λ f,
       if String.eqb f "a.html" then Some "A"
       else if String.eqb f "b.html" then Some "B"
       else if String.eqb f "c.html" then Some "C"
       else None;
     parse := λ html,
       if String.eqb html "A" then
         {| soup_title := Some (Some "Page A");
            soup_text := "Alpha search the Search";
            soup_hrefs := ["b.html"; "http://example.org/"; "z.html"] |}
       else if String.eqb html "B" then
         {| soup_title := None;
            soup_text := "beta search";
            soup_hrefs := ["a.html"; "a.html"] |}
       else
         {| soup_title := Some (Some "C");
            soup_text := "gamma, search!";
            soup_hrefs := [] |} |}.

Definition ex_engine : SearchEngine :=
  match build_index ex_dir (SearchEngine_init "tf-idf") with
  | Some (Ok e) => e
  | _ => SearchEngine_init "tf-idf"
  end.

(** The same collection, indexed for frequency ranking. *)
Definition ex_engine_simple : SearchEngine :=
  match build_index ex_dir (SearchEngine_init "simple") with
  | Some (Ok e) => e
  | _ => SearchEngine_init "simple"
  end.

(** A directory that cannot be listed. *)
Definition ex_dir_missing : Directory :=
  {| listdir := None; read_file := λ _, None; parse := parse ex_dir |}.

(** The collection with one more file, [e.html], whose title tag is empty:
    [soup.title] is there and [soup.title.string] is [None]. *)
Definition ex_dir_untitled : Directory :=
  {| listdir := Some ["a.html"; "b.html"; "e.html"];
     read_file := λ f,
       if String.eqb f "e.html" then Some "E" else read_file ex_dir f;
     parse := λ html,
       if String.eqb html "E" then
         {| soup_title := Some None;
            soup_text := "epsilon";
            soup_hrefs := [] |}
       else parse ex_dir html |}.

(** * Properties *)

(** ** Dictionaries *)

Module PyDictFacts.
Section facts.
Context {K V : Type} `{EqDecision K}.
Implicit Types (d : list (K * V)) (k : K) (v : V).

Lemma get_set_eq d k v : PyDict.get (PyDict.set d k v) k = Some v.
Proof.
  induction d as [|[k' v'] d IH]; simpl.
  - by rewrite decide_True.
  - destruct (decide (k' = k)) as [->|Hne]; simpl.
    + by rewrite decide_True.
    + by rewrite decide_False.
Qed.

Lemma get_set_ne d k k' v :
  k ≠ k' → PyDict.get (PyDict.set d k v) k' = PyDict.get d k'.
Proof.
  intros Hne. induction d as [|[k0 v0] d IH]; simpl.
  - by rewrite decide_False.
  - destruct (decide (k0 = k)) as [->|Hne0]; simpl.
    + by rewrite !decide_False.
    + destruct (decide (k0 = k')); [done|apply IH].
Qed.

Lemma get_set d k k' v :
  PyDict.get (PyDict.set d k v) k' =
  if decide (k = k') then Some v else PyDict.get d k'.
Proof.
  destruct (decide (k = k')) as [->|Hne];
    [apply get_set_eq|by apply get_set_ne].
Qed.

Lemma get_app d1 d2 k :
  PyDict.get (d1 ++ d2) k =
  match PyDict.get d1 k with Some v => Some v | None => PyDict.get d2 k end.
Proof.
  induction d1 as [|[k' v'] d1 IH]; simpl; [done|].
  by destruct (decide (k' = k)).
Qed.

Lemma get_None d k : PyDict.get d k = None ↔ k ∉ PyDict.keys d.
Proof.
  unfold PyDict.keys. induction d as [|[k' v'] d IH]; simpl.
  - split; [intros _; apply not_elem_of_nil|done].
  - rewrite not_elem_of_cons. destruct (decide (k' = k)) as [->|Hne].
    + split; [done|]. by intros [? _].
    + rewrite IH. intuition congruence.
Qed.

Lemma get_is_Some d k : is_Some (PyDict.get d k) ↔ k ∈ PyDict.keys d.
Proof.
  rewrite <-not_eq_None_Some, get_None.
  split; [apply dec_stable|by intros ? ?].
Qed.

Lemma get_Some_elem_of d k v : PyDict.get d k = Some v → (k, v) ∈ d.
Proof.
  induction d as [|[k' v'] d IH]; simpl; [done|].
  destruct (decide (k' = k)) as [->|Hne].
  - intros [= ->]. apply elem_of_cons; by left.
  - intros Hg. apply elem_of_cons; right; by apply IH.
Qed.

Lemma elem_of_get d k v :
  NoDup (PyDict.keys d) → (k, v) ∈ d → PyDict.get d k = Some v.
Proof.
  unfold PyDict.keys. induction d as [|[k' v'] d IH]; simpl.
  - intros _ Hin. by apply elem_of_nil in Hin.
  - intros [Hnin Hnd]%NoDup_cons [Heq|Hin]%elem_of_cons.
    + injection Heq as -> ->. by rewrite decide_True.
    + rewrite decide_False; [by apply IH|].
      intros ->. apply Hnin. apply list_elem_of_fmap. by exists (k, v).
Qed.

Lemma set_fresh d k v :
  PyDict.get d k = None → PyDict.set d k v = d ++ [(k, v)].
Proof.
  induction d as [|[k' v'] d IH]; simpl; [done|].
  destruct (decide (k' = k)); [done|]. intros Hg. by rewrite IH.
Qed.

Lemma keys_set_present d k v :
  is_Some (PyDict.get d k) → PyDict.keys (PyDict.set d k v) = PyDict.keys d.
Proof.
  unfold PyDict.keys. induction d as [|[k' v'] d IH]; simpl.
  - by intros [? ?].
  - destruct (decide (k' = k)) as [->|Hne]; simpl; [done|].
    intros Hs. f_equal. by apply IH.
Qed.

Lemma keys_set_fresh d k v :
  PyDict.get d k = None →
  PyDict.keys (PyDict.set d k v) = PyDict.keys d ++ [k].
Proof.
  intros Hg. rewrite set_fresh by done. unfold PyDict.keys.
  by rewrite fmap_app.
Qed.

Lemma elem_of_keys_set d k k' v :
  k' ∈ PyDict.keys (PyDict.set d k v) ↔ k' = k ∨ k' ∈ PyDict.keys d.
Proof.
  rewrite <-!get_is_Some, get_set.
  destruct (decide (k = k')) as [->|Hne].
  - split; [by left|by eexists].
  - split; [by right|]. intros [->|?]; done.
Qed.

Lemma NoDup_keys_set d k v :
  NoDup (PyDict.keys d) → NoDup (PyDict.keys (PyDict.set d k v)).
Proof.
  intros Hnd. destruct (PyDict.get d k) as [v0|] eqn:Hg.
  - by rewrite keys_set_present.
  - rewrite keys_set_fresh by done. apply NoDup_app. split; [done|].
    split; [|apply NoDup_singleton].
    intros x Hx ->%list_elem_of_singleton. by apply get_None in Hg.
Qed.

Lemma mem_true d k : PyDict.mem d k = true ↔ is_Some (PyDict.get d k).
Proof.
  unfold PyDict.mem. destruct (PyDict.get d k); split; done.
Qed.

Lemma get_list_to_map `{Countable K} d k :
  PyDict.get d k = (list_to_map d : gmap K V) !! k.
Proof.
  induction d as [|[k' v'] d IH]; simpl.
  - by rewrite lookup_empty.
  - rewrite lookup_insert. by destruct (decide (k' = k)).
Qed.
End facts.
End PyDictFacts.

(** ** The trie is an exact-match map *)

Module TrieFacts.
Lemma search_new word : Trie.search Trie.new word = None.
Proof. by destruct word. Qed.

Lemma search_insert_eq node word idx :
  Trie.search (Trie.insert node word idx) word = Some idx.
Proof.
  unfold Trie.search, Trie.insert. revert node.
  induction word as [|c w IH]; intros node; simpl; [done|].
  rewrite lookup_insert_eq. apply IH.
Qed.

Lemma search_insert_ne node word word' idx :
  word ≠ word' →
  Trie.search (Trie.insert node word idx) word' = Trie.search node word'.
Proof.
  unfold Trie.search, Trie.insert. revert node word'.
  induction word as [|c w IH]; intros node [|c' w'] Hne; simpl; try done.
  destruct (decide (c = c')) as [->|Hc].
  - rewrite lookup_insert_eq.
    assert (w ≠ w') as Hw by congruence.
    rewrite (IH _ _ Hw). destruct (children node !! c'); [done|].
    apply (search_new w').
  - by rewrite lookup_insert_ne.
Qed.

Lemma search_insert node word word' idx :
  Trie.search (Trie.insert node word idx) word' =
  if decide (word = word') then Some idx else Trie.search node word'.
Proof.
  destruct (decide (word = word')) as [->|Hne];
    [apply search_insert_eq|by apply search_insert_ne].
Qed.

(** After the loop "Insert into Trie", the trie answers as the dictionary
    it was filled from. *)
Lemma search_fill_trie w2i root t :
  NoDup (PyDict.keys w2i) →
  Trie.search (fill_trie w2i root) t =
  match PyDict.get w2i t with
  | Some idx => Some idx
  | None => Trie.search root t
  end.
Proof.
  unfold fill_trie, PyDict.items, PyDict.keys. revert root.
  induction w2i as [|[w i] l IH]; intros root Hnd; simpl; [done|].
  apply NoDup_cons in Hnd as [Hnin Hnd]. rewrite (IH _ Hnd).
  destruct (decide (w = t)) as [->|Hne].
  - rewrite (proj2 (PyDictFacts.get_None l t) Hnin).
    apply search_insert_eq.
  - destruct (PyDict.get l t); [done|]. by apply search_insert_ne.
Qed.
End TrieFacts.

(** ** [Counter] *)

Module CounterFacts.
Lemma freq_in_cons t w ws :
  freq_in t (w :: ws) = (if decide (w = t) then 1 else 0) + freq_in t ws.
Proof.
  unfold freq_in. rewrite filter_cons. by destruct (decide (w = t)).
Qed.

Lemma freq_in_pos t ws : 0 < freq_in t ws ↔ t ∈ ws.
Proof.
  induction ws as [|w ws IH].
  - split; [inversion 1|intros []%elem_of_nil].
  - rewrite freq_in_cons, elem_of_cons.
    destruct (decide (w = t)) as [->|Hne].
    + split; [by left|lia].
    + simpl. rewrite IH. split; [by right|by intros [->|?]].
Qed.

Lemma freq_in_le t ws : freq_in t ws ≤ length ws.
Proof. apply length_filter. Qed.

Lemma fold_get ws c t :
  default 0 (PyDict.get (fold_left count_word ws c) t) =
  default 0 (PyDict.get c t) + freq_in t ws.
Proof.
  revert c. induction ws as [|w ws IH]; intros c; simpl.
  - unfold freq_in. simpl. lia.
  - rewrite IH, freq_in_cons. unfold count_word.
    rewrite PyDictFacts.get_set.
    destruct (decide (w = t)) as [->|Hne]; simpl; lia.
Qed.

Lemma fold_keys ws c t :
  t ∈ PyDict.keys (fold_left count_word ws c) ↔ t ∈ PyDict.keys c ∨ t ∈ ws.
Proof.
  revert c. induction ws as [|w ws IH]; intros c; simpl.
  - rewrite elem_of_nil. tauto.
  - rewrite IH. unfold count_word. rewrite PyDictFacts.elem_of_keys_set.
    rewrite elem_of_cons. intuition congruence.
Qed.

Lemma fold_NoDup ws c :
  NoDup (PyDict.keys c) → NoDup (PyDict.keys (fold_left count_word ws c)).
Proof.
  revert c. induction ws as [|w ws IH]; intros c Hnd; simpl; [done|].
  apply IH. by apply PyDictFacts.NoDup_keys_set.
Qed.

Lemma sum_values_set (c : list (string * nat)) w n :
  sum_list (PyDict.values (PyDict.set c w n)) + default 0 (PyDict.get c w)
  = sum_list (PyDict.values c) + n.
Proof.
  unfold PyDict.values. induction c as [|[k v] c IH]; csimpl; [lia|].
  destruct (decide (k = w)); csimpl; lia.
Qed.

Lemma fold_sum ws c :
  sum_list (PyDict.values (fold_left count_word ws c)) =
  sum_list (PyDict.values c) + length ws.
Proof.
  revert c. induction ws as [|w ws IH]; intros c; simpl; [lia|].
  rewrite IH. unfold count_word.
  pose proof (sum_values_set c w (default 0 (PyDict.get c w) + 1)). lia.
Qed.

Lemma NoDup_keys ws : NoDup (PyDict.keys (Counter ws)).
Proof. apply fold_NoDup, NoDup_nil_2. Qed.

Lemma elem_of_keys ws t : t ∈ PyDict.keys (Counter ws) ↔ t ∈ ws.
Proof.
  pose proof (fold_keys ws PyDict.empty t) as Hk.
  change (fold_left count_word ws PyDict.empty) with (Counter ws) in Hk.
  rewrite Hk. unfold PyDict.keys, PyDict.empty. simpl.
  rewrite elem_of_nil. tauto.
Qed.

(** [Counter(words).get(t)] is the number of occurrences of [t], and is
    absent when there is none. *)
Lemma get_Counter ws t :
  PyDict.get (Counter ws) t =
  if decide (freq_in t ws = 0) then None else Some (freq_in t ws).
Proof.
  pose proof (fold_get ws PyDict.empty t) as Hget.
  change (fold_left count_word ws PyDict.empty) with (Counter ws) in Hget.
  simpl in Hget.
  pose proof (elem_of_keys ws t) as Hk.
  rewrite <-PyDictFacts.get_is_Some, <-freq_in_pos in Hk.
  destruct (decide (freq_in t ws = 0)) as [H0|Hpos].
  - destruct (PyDict.get (Counter ws) t) as [n|]; [|done].
    exfalso. assert (0 < freq_in t ws) by (apply Hk; by eexists). lia.
  - destruct (PyDict.get (Counter ws) t) as [n|].
    + simpl in Hget. by rewrite Hget.
    + simpl in Hget. lia.
Qed.

(** [sum(word_freq.values())] is the length of the word list. *)
Lemma sum_Counter ws : sum_list (PyDict.values (Counter ws)) = length ws.
Proof. exact (fold_sum ws PyDict.empty). Qed.
End CounterFacts.

(** ** The index loops *)

Module IndexFacts.
Lemma lookup_posting_of pgs t f :
  posting_of pgs t !! f =
  PyDict.get pgs f ≫= λ d, nonzero (freq_in t (words d)).
Proof.
  unfold posting_of. by rewrite lookup_omap, PyDictFacts.get_list_to_map.
Qed.

Lemma posting_of_unknown pgs t : ¬ occurs pgs t → posting_of pgs t = ∅.
Proof.
  intros Hno. apply map_eq. intros f.
  rewrite lookup_posting_of, lookup_empty.
  destruct (PyDict.get pgs f) as [d|] eqn:Hg; simpl; [|done].
  unfold nonzero. destruct (decide (freq_in t (words d) = 0)); [done|].
  exfalso. apply Hno. exists f, d. split.
  - by apply PyDictFacts.get_Some_elem_of.
  - apply CounterFacts.freq_in_pos. lia.
Qed.

Lemma posting_of_snoc pgs file data t :
  file ∉ PyDict.keys pgs →
  posting_of (pgs ++ [(file, data)]) t =
  match PyDict.get (Counter (words data)) t with
  | Some n => <[file := n]> (posting_of pgs t)
  | None => posting_of pgs t
  end.
Proof.
  intros Hfresh. apply PyDictFacts.get_None in Hfresh.
  apply map_eq. intros f.
  rewrite lookup_posting_of, PyDictFacts.get_app, CounterFacts.get_Counter.
  simpl.
  destruct (decide (freq_in t (words data) = 0)) as [H0|Hpos].
  - rewrite lookup_posting_of.
    destruct (PyDict.get pgs f) as [d|] eqn:Hg; [done|].
    destruct (decide (file = f)) as [->|Hne]; [simpl|done].
    unfold nonzero. by rewrite decide_True.
  - rewrite lookup_insert. destruct (decide (file = f)) as [->|Hne].
    + rewrite Hfresh. simpl. unfold nonzero. by rewrite decide_False.
    + rewrite lookup_posting_of. by destruct (PyDict.get pgs f).
Qed.

Lemma occurs_snoc pgs file data t :
  occurs (pgs ++ [(file, data)]) t ↔ occurs pgs t ∨ t ∈ words data.
Proof.
  unfold occurs. split.
  - intros (f & d & Hin & Ht). apply elem_of_app in Hin as [Hin|Hin].
    + left. by exists f, d.
    + apply list_elem_of_singleton in Hin. injection Hin as -> ->.
      by right.
  - intros [(f & d & Hin & Ht)|Ht].
    + exists f, d. split; [|done]. apply elem_of_app. by left.
    + exists file, data. split; [|done]. apply elem_of_app. right.
      by apply list_elem_of_singleton.
Qed.

Lemma IxInv_ext known known' P P' ix :
  (∀ t, known t ↔ known' t) → (∀ t, P t = P' t) →
  IxInv known P ix → IxInv known' P' ix.
Proof.
  intros Hk HP [Hnd Hv Hkn Hp]. split; [done|done| |].
  - intros t. by rewrite Hkn.
  - intros t idx Hg. rewrite <-HP. by apply Hp.
Qed.

Lemma values_seq_lt (d : list (string * nat)) n k i :
  PyDict.values d = seq 0 n → PyDict.get d k = Some i → i < n.
Proof.
  intros Hv Hg. apply PyDictFacts.get_Some_elem_of in Hg.
  assert (i ∈ seq 0 n) as Hi.
  { rewrite <-Hv. apply list_elem_of_fmap. by exists (k, i). }
  apply elem_of_seq in Hi. lia.
Qed.

Lemma values_NoDup_inj (d : list (string * nat)) k k' i :
  NoDup (PyDict.values d) →
  PyDict.get d k = Some i → PyDict.get d k' = Some i → k = k'.
Proof.
  unfold PyDict.values. induction d as [|[k0 v0] d IH]; csimpl; [done|].
  intros [Hnin Hnd]%NoDup_cons.
  assert (∀ k1, PyDict.get d k1 = Some v0 → False) as Hno.
  { intros k1 Hg%PyDictFacts.get_Some_elem_of. apply Hnin.
    apply list_elem_of_fmap. by exists (k1, v0). }
  destruct (decide (k0 = k)) as [Hk|Hk], (decide (k0 = k')) as [Hk'|Hk'];
    subst; try done.
  - intros [= ->] Hg. by destruct (Hno k').
  - intros Hg [= ->]. by destruct (Hno k).
  - by apply IH.
Qed.

(** One turn of the inner loop of [build_index]. *)
Lemma index_word_spec file word n known P ix :
  IxInv known P ix → (¬ known word → P word = ∅) →
  ∃ ix',
    index_word file ix (word, n) = Ok ix' ∧
    IxInv (λ t, known t ∨ t = word)
          (λ t, if decide (t = word) then <[file := n]> (P t) else P t) ix' ∧
    ix_document_lengths ix' = ix_document_lengths ix.
Proof.
  intros [Hnd Hv Hkn Hp] Hfresh. unfold index_word.
  destruct (PyDict.mem (ix_word_to_index ix) word) eqn:Hmem.
  - apply PyDictFacts.mem_true in Hmem as [idx Hidx]. rewrite Hidx.
    pose proof (Hp _ _ Hidx) as Hocc. rewrite Hocc.
    pose proof (values_seq_lt _ _ _ _ Hv Hidx) as Hlt.
    eexists. split; [done|]. split; [|done]. split; simpl.
    + done.
    + by rewrite length_insert.
    + intros t. rewrite Hkn. split; [by left|].
      intros [?| ->]; [done|]. apply Hkn. by eexists.
    + intros t i Hg. destruct (decide (t = word)) as [->|Hne].
      * assert (i = idx) as -> by congruence.
        by rewrite list_lookup_insert_eq.
      * rewrite list_lookup_insert_ne; [by apply Hp|].
        intros <-. apply Hne. symmetry.
        eapply values_NoDup_inj; [|done..].
        rewrite Hv. apply NoDup_seq.
  - assert (PyDict.get (ix_word_to_index ix) word = None) as Hnone.
    { apply eq_None_not_Some. intros Hs%PyDictFacts.mem_true. congruence. }
    assert (¬ known word) as Hunk.
    { intros Hk%Hkn. rewrite Hnone in Hk. by destruct Hk. }
    simpl. rewrite PyDictFacts.get_set_eq.
    rewrite lookup_app_r, Nat.sub_diag by done. simpl.
    eexists. split; [done|]. split; [|done]. split; simpl.
    + by apply PyDictFacts.NoDup_keys_set.
    + rewrite PyDictFacts.set_fresh by done. unfold PyDict.values in *.
      rewrite fmap_app, Hv, length_insert, length_app. simpl.
      by rewrite Nat.add_1_r, seq_S.
    + intros t. rewrite PyDictFacts.get_set.
      destruct (decide (word = t)) as [->|Hne].
      * split; [by right|by eexists].
      * rewrite Hkn. split; [by left|]. by intros [?| ->].
    + intros t i. rewrite PyDictFacts.get_set.
      destruct (decide (word = t)) as [->|Hne].
      * intros [= <-]. rewrite decide_True by done.
        rewrite list_lookup_insert_eq
          by (rewrite length_app; simpl; lia).
        by rewrite Hfresh.
      * intros Hg. rewrite decide_False by done.
        pose proof (values_seq_lt _ _ _ _ Hv Hg) as Hlt.
        rewrite list_lookup_insert_ne by lia.
        rewrite lookup_app_l by done. by apply Hp.
Qed.
(** The inner loop of [build_index] over the items of a [Counter]. *)
Lemma index_words_spec file cs : ∀ known P ix,
  NoDup (PyDict.keys cs) → IxInv known P ix → (∀ t, ¬ known t → P t = ∅) →
  ∃ ix',
    res_for (index_word file) cs ix = Ok ix' ∧
    IxInv (λ t, known t ∨ t ∈ PyDict.keys cs)
          (λ t, match PyDict.get cs t with
                | Some n => <[file := n]> (P t)
                | None => P t
                end) ix' ∧
    ix_document_lengths ix' = ix_document_lengths ix.
Proof.
  unfold PyDict.keys.
  induction cs as [|[w n] cs IH]; intros known P ix Hnd Hinv Hfresh.
  - exists ix. split; [done|]. split; [|done].
    eapply IxInv_ext; [| |exact Hinv]; [|done].
    intros t. simpl. rewrite elem_of_nil. tauto.
  - apply NoDup_cons in Hnd as [Hnin Hnd].
    destruct (index_word_spec file w n known P ix Hinv (Hfresh w))
      as (ix1 & Hstep & Hinv1 & Hdl1).
    destruct (IH _ _ ix1 Hnd Hinv1) as (ix2 & Hrest & Hinv2 & Hdl2).
    { intros t Hunk. rewrite decide_False by (intros ->; apply Hunk; by right).
      apply Hfresh. intros ?. apply Hunk. by left. }
    exists ix2. cbn [res_for]. rewrite Hstep. split; [done|].
    split; [|congruence].
    eapply IxInv_ext; [| |exact Hinv2].
    + intros t. csimpl. rewrite elem_of_cons. tauto.
    + intros t. simpl. destruct (decide (w = t)) as [->|Hne].
      * rewrite (proj2 (PyDictFacts.get_None cs t) Hnin).
        by rewrite decide_True.
      * rewrite decide_False by done. done.
Qed.

Lemma index_page_spec done file data ix :
  file ∉ PyDict.keys done → PagesInv done ix →
  ∃ ix',
    index_page ix (file, data) = Ok ix' ∧
    PagesInv (done ++ [(file, data)]) ix'.
Proof.
  intros Hfresh [Hinv Hdl]. unfold index_page.
  set (ix1 := {| ix_inverted_index := ix_inverted_index ix;
                 ix_word_to_index := ix_word_to_index ix;
                 ix_document_lengths := _ |}).
  assert (IxInv (occurs done) (posting_of done) ix1) as Hinv1.
  { destruct Hinv. by split. }
  destruct (index_words_spec file (Counter (words data)) _ _ ix1
              (CounterFacts.NoDup_keys _) Hinv1 (posting_of_unknown done))
    as (ix2 & Hrun & Hinv2 & Hdl2).
  exists ix2. split; [done|]. split.
  - eapply IxInv_ext; [| |exact Hinv2].
    + intros t. rewrite occurs_snoc, CounterFacts.elem_of_keys. tauto.
    + intros t. by rewrite posting_of_snoc.
  - intros f. rewrite Hdl2. simpl. rewrite CounterFacts.sum_Counter.
    rewrite PyDictFacts.get_app. simpl.
    rewrite lookup_insert. destruct (decide (file = f)) as [->|Hne].
    + by rewrite (proj2 (PyDictFacts.get_None done f) Hfresh).
    + rewrite Hdl. by destruct (PyDict.get done f).
Qed.

(** The loop "Build inverted index". *)
Lemma index_pages_spec todo : ∀ done ix,
  NoDup (PyDict.keys (done ++ todo)) → PagesInv done ix →
  ∃ ix',
    res_for index_page todo ix = Ok ix' ∧ PagesInv (done ++ todo) ix'.
Proof.
  induction todo as [|[file data] todo IH]; intros done ix Hnd Hinv.
  - exists ix. by rewrite app_nil_r.
  - assert (file ∉ PyDict.keys done) as Hfresh.
    { unfold PyDict.keys in *. rewrite fmap_app in Hnd.
      apply NoDup_app in Hnd as (_ & Hdisj & _).
      intros Hin. apply (Hdisj _ Hin). csimpl. apply elem_of_cons. by left. }
    destruct (index_page_spec done file data ix Hfresh Hinv)
      as (ix1 & Hstep & Hinv1).
    destruct (IH (done ++ [(file, data)]) ix1) as (ix2 & Hrest & Hinv2).
    { by rewrite <-app_assoc. }
    { done. }
    exists ix2. cbn [res_for]. rewrite Hstep.
    rewrite <-app_assoc in Hinv2. done.
Qed.

Lemma PagesInv_init :
  PagesInv [] {| ix_inverted_index := []; ix_word_to_index := PyDict.empty;
                 ix_document_lengths := ∅ |}.
Proof.
  split; [split|]; simpl.
  - apply NoDup_nil_2.
  - done.
  - intros t. split; [by intros [? ?]|].
    intros (f & d & Hin & _). by apply elem_of_nil in Hin.
  - done.
  - intros f. by rewrite lookup_empty.
Qed.

(** *** Inbound link counts *)

Lemma defaultdict_incr_read (m : gmap string nat) k d :
  default 0 (defaultdict_incr m k !! d) =
  default 0 (m !! d) + (if decide (k = d) then 1 else 0).
Proof.
  unfold defaultdict_incr, defaultdict_getitem.
  destruct (m !! k) as [v|] eqn:Hk; rewrite lookup_insert;
    destruct (decide (k = d)) as [->|Hne]; simpl.
  - rewrite Hk. simpl. lia.
  - lia.
  - rewrite Hk. simpl. lia.
  - rewrite lookup_insert_ne by done. lia.
Qed.

Lemma fold_incr_read outs (m : gmap string nat) d :
  default 0 (fold_left defaultdict_incr outs m !! d) =
  default 0 (m !! d) + length (filter (λ dest, dest = d) outs).
Proof.
  revert m. induction outs as [|o outs IH]; intros m; simpl; [lia|].
  rewrite IH, defaultdict_incr_read, filter_cons.
  destruct (decide (o = d)); simpl; lia.
Qed.

(** The loop "Count incoming links". *)
Lemma count_incoming_read lks (m : gmap string nat) d :
  default 0 (count_incoming lks m !! d) =
  default 0 (m !! d) + edge_count lks d.
Proof.
  unfold count_incoming, edge_count, PyDict.items, PyDict.values.
  revert m. induction lks as [|[src outs] lks IH]; intros m; csimpl; [lia|].
  rewrite IH, fold_incr_read, filter_app, length_app. lia.
Qed.
End IndexFacts.

(** ** The crawl *)

Module CrawlFacts.
Section crawl.
Variable dir : Directory.
Variable all_files : list string.

Lemma follow_links outs : ∀ visited file lks q,
  fold_left (follow_link all_files visited file) outs (lks, q) =
  (fold_left (λ l link,
                PyDict.set l file (default [] (PyDict.get l file) ++ [link]))
             outs lks,
   q ++ enqueued all_files visited outs).
Proof.
  unfold enqueued.
  induction outs as [|o outs IH]; intros visited file lks q; simpl.
  - by rewrite app_nil_r.
  - rewrite IH. f_equal. rewrite filter_cons.
    destruct (decide ((o ∉ visited) ∧ (o ∈ all_files))) as [Hd|Hd].
    + rewrite bool_decide_eq_true_2 by done. by rewrite <-app_assoc.
    + by rewrite bool_decide_eq_false_2 by done.
Qed.

Lemma append_links_get outs : ∀ file (lks : list (string * list string)) f,
  default [] (PyDict.get
    (fold_left (λ l link,
                  PyDict.set l file (default [] (PyDict.get l file) ++ [link]))
               outs lks) f) =
  default [] (PyDict.get lks f) ++ (if decide (f = file) then outs else []).
Proof.
  induction outs as [|o outs IH]; intros file lks f; simpl.
  - destruct (decide (f = file)); rewrite app_nil_r; reflexivity.
  - rewrite IH, PyDictFacts.get_set.
    destruct (decide (file = f)) as [->|Hne].
    + rewrite !decide_True by done. simpl. by rewrite <-app_assoc.
    + rewrite !decide_False by congruence. done.
Qed.

Lemma append_links_NoDup outs : ∀ file (lks : list (string * list string)),
  NoDup (PyDict.keys lks) →
  NoDup (PyDict.keys
    (fold_left (λ l link,
                  PyDict.set l file (default [] (PyDict.get l file) ++ [link]))
               outs lks)).
Proof.
  induction outs as [|o outs IH]; intros file lks Hnd; simpl; [done|].
  apply IH. by apply PyDictFacts.NoDup_keys_set.
Qed.

Lemma extract_Raise html file e :
  extract dir html file = Raise e →
  e = AttributeError ∧ soup_title (parse dir html) = Some None.
Proof.
  unfold extract. destruct (soup_title (parse dir html)) as [[s|]|];
    intros [= <-]. done.
Qed.

Lemma extract_Ok html file r :
  extract dir html file = Ok r → soup_title (parse dir html) ≠ Some None.
Proof.
  unfold extract. by destruct (soup_title (parse dir html)) as [[s|]|].
Qed.

Lemma crawl_visit_inv st file rest st' :
  queue st = file :: rest → CrawlInv dir all_files st →
  crawl_visit dir all_files file rest st = Ok st' →
  CrawlInv dir all_files st'.
Proof.
  intros Hq [Hqu Hvis Hcov Hpn Hpg Hln Hlk Hex]. unfold crawl_visit.
  assert (file ∈ all_files) as Hfile.
  { apply Hqu. rewrite Hq. apply elem_of_cons. by left. }
  assert (∀ f, f ∈ rest → f ∈ all_files) as Hrest.
  { intros f Hf. apply Hqu. rewrite Hq. apply elem_of_cons. by right. }
  destruct (decide (file ∈ visited st)) as [Hin|Hnin].
  { rewrite bool_decide_eq_true_2 by done. intros [= <-].
    split; simpl; try done.
    intros f Hf. destruct (Hcov f Hf) as [?|Hfq]; [by left|].
    rewrite Hq in Hfq. apply elem_of_cons in Hfq as [->|?];
      [by left|by right]. }
  rewrite bool_decide_eq_false_2 by done.
  assert (∀ f, f ∈ ({[file]} ∪ visited st : gset string) → f ∈ all_files)
    as Hvis'.
  { intros f [->%elem_of_singleton|?]%elem_of_union; [done|by apply Hvis]. }
  destruct (read_file dir file) as [html|] eqn:Hread.
  - destruct (extract dir html file) as [[[ti ws] outs]|e] eqn:Hext; [|done].
    rewrite follow_links. intros [= <-]. split; simpl.
    + intros f [?|Hf]%elem_of_app; [by apply Hrest|].
      apply list_elem_of_filter in Hf. tauto.
    + done.
    + intros f Hf. destruct (decide (f = file)) as [->|Hne].
      { left. set_solver. }
      destruct (Hcov f Hf) as [?|Hfq]; [left; set_solver|].
      rewrite Hq in Hfq. apply elem_of_cons in Hfq as [->|?]; [done|].
      right. apply elem_of_app. by left.
    + by apply PyDictFacts.NoDup_keys_set.
    + intros f. rewrite PyDictFacts.get_set, Hpg.
      destruct (decide (file = f)) as [<-|Hne].
      * rewrite decide_True by set_solver.
        unfold page_of. by rewrite Hread, Hext.
      * destruct (decide (f ∈ visited st)).
        -- by rewrite decide_True by set_solver.
        -- by rewrite decide_False by set_solver.
    + by apply append_links_NoDup.
    + intros f. rewrite append_links_get, Hlk.
      destruct (decide (f = file)) as [->|Hne].
      * rewrite decide_False by done. rewrite decide_True by set_solver.
        unfold links_of. by rewrite Hread, Hext.
      * rewrite app_nil_r. destruct (decide (f ∈ visited st)).
        -- by rewrite decide_True by set_solver.
        -- by rewrite decide_False by set_solver.
    + intros f [->%elem_of_singleton|Hf]%elem_of_union; [|by apply Hex].
      intros (html' & Hread' & Hbad).
      assert (html' = html) as -> by congruence.
      by apply (extract_Ok _ _ _ Hext).
  - intros [= <-]. split; simpl; try done.
    + intros f Hf. destruct (decide (f = file)) as [->|Hne].
      { left. set_solver. }
      destruct (Hcov f Hf) as [?|Hfq]; [left; set_solver|].
      rewrite Hq in Hfq. apply elem_of_cons in Hfq as [->|?]; [done|].
      by right.
    + intros f. rewrite Hpg. destruct (decide (file = f)) as [<-|Hne].
      * rewrite decide_False by done. rewrite decide_True by set_solver.
        unfold page_of. by rewrite Hread.
      * destruct (decide (f ∈ visited st)).
        -- by rewrite decide_True by set_solver.
        -- by rewrite decide_False by set_solver.
    + intros f. rewrite Hlk. destruct (decide (file = f)) as [<-|Hne].
      * rewrite decide_False by done. rewrite decide_True by set_solver.
        unfold links_of. by rewrite Hread.
      * destruct (decide (f ∈ visited st)).
        -- by rewrite decide_True by set_solver.
        -- by rewrite decide_False by set_solver.
    + intros f [->%elem_of_singleton|Hf]%elem_of_union; [|by apply Hex].
      intros (html' & Hread' & _). congruence.
Qed.

(** A visit raises only through [extract], on a file whose title tag has
    no string. *)
Lemma crawl_visit_Raise st file rest e :
  crawl_visit dir all_files file rest st = Raise e →
  e = AttributeError ∧ bad_title dir file.
Proof.
  unfold crawl_visit. destruct (bool_decide (file ∈ visited st)); [done|].
  destruct (read_file dir file) as [html|] eqn:Hread; [|done].
  destruct (extract dir html file) as [[[ti ws] outs]|e'] eqn:Hext.
  - by destruct (fold_left _ _ _).
  - intros [= <-]. destruct (extract_Raise _ _ _ Hext) as [-> Hbad].
    split; [done|]. by exists html.
Qed.

(** *** Termination *)

Lemma crawl_visit_measure st file rest st' :
  queue st = file :: rest → CrawlInv dir all_files st →
  crawl_visit dir all_files file rest st = Ok st' →
  measure dir all_files st' < measure dir all_files st.
Proof.
  intros Hq Hinv. unfold measure, crawl_visit. rewrite Hq.
  assert (file ∈ all_files) as Hfile.
  { apply (ci_queue _ _ _ Hinv). rewrite Hq. apply elem_of_cons. by left. }
  destruct (decide (file ∈ visited st)) as [Hin|Hnin].
  { rewrite bool_decide_eq_true_2 by done. intros [= <-]. simpl. lia. }
  rewrite bool_decide_eq_false_2 by done.
  assert (size (list_to_set all_files ∖ ({[file]} ∪ visited st) : gset string)
          < size (list_to_set all_files ∖ visited st : gset string)) as Hlt.
  { apply subset_size. split; [set_solver|].
    intros Hsub. assert (file ∈ (list_to_set all_files ∖ visited st
                                 : gset string)) as Hel by set_solver.
    apply Hsub in Hel. set_solver. }
  destruct (read_file dir file) as [html|] eqn:Hread.
  - destruct (extract dir html file) as [[[ti ws] outs]|e] eqn:Hext; [|done].
    rewrite follow_links. intros [= <-]. simpl. rewrite length_app.
    assert (length (enqueued all_files ({[file]} ∪ visited st) outs)
            ≤ max_out dir all_files) as Hle.
    { etrans; [apply length_filter|]. unfold max_out.
      apply max_list_elem_of_le. apply list_elem_of_fmap.
      exists file. split; [|done]. unfold out_degree.
      by rewrite Hread, Hext. }
    nia.
  - intros [= <-]. simpl. nia.
Qed.

(** With enough fuel the loop comes to its end: with an empty queue, or
    with the [AttributeError] of [extract] on some enumerated file. *)
Lemma crawl_loop_fuel fuel : ∀ st,
  CrawlInv dir all_files st → measure dir all_files st < fuel →
  (∃ st', crawl_loop dir all_files fuel st = Some (Ok st') ∧
          CrawlInv dir all_files st' ∧ queue st' = []) ∨
  (crawl_loop dir all_files fuel st = Some (Raise AttributeError) ∧
   ∃ f, f ∈ all_files ∧ bad_title dir f).
Proof.
  induction fuel as [|fuel IH]; intros st Hinv Hlt; [lia|].
  simpl. destruct (queue st) as [|file rest] eqn:Hq.
  - left. by exists st.
  - destruct (crawl_visit dir all_files file rest st) as [st1|e] eqn:Hvisit.
    + apply IH.
      * by eapply crawl_visit_inv.
      * pose proof (crawl_visit_measure st file rest st1 Hq Hinv Hvisit). lia.
    + destruct (crawl_visit_Raise _ _ _ _ Hvisit) as [-> Hbad].
      right. split; [done|]. exists file. split; [|done].
      apply (ci_queue _ _ _ Hinv). rewrite Hq. apply elem_of_cons. by left.
Qed.
End crawl.

Lemma size_list_to_set_le (l : list string) :
  size (list_to_set l : gset string) ≤ length l.
Proof.
  induction l as [|x l IH].
  - vm_compute. lia.
  - rewrite list_to_set_cons, size_union_alt, size_singleton. simpl.
    assert (size (list_to_set l ∖ {[x]} : gset string)
            ≤ size (list_to_set l : gset string)).
    { apply subseteq_size. set_solver. }
    lia.
Qed.

Lemma queue_start (self : WebCrawler) all_files :
  queue (crawl_start self all_files) = all_files.
Proof.
  unfold crawl_start. simpl.
  assert (∀ q, fold_left (λ (q : list string) file, q ++ [file]) all_files q
               = q ++ all_files) as Hgen.
  { induction all_files as [|f fs IH]; intros q; simpl.
    - by rewrite app_nil_r.
    - by rewrite IH, <-app_assoc. }
  apply (Hgen []).
Qed.

(** What [crawl] on a fresh crawler comes to: the [OSError] of a directory
    that cannot be listed; or the [AttributeError] of [extract], when some
    enumerated file has a title tag without a string; or else a crawler
    that holds exactly the readable enumerated files, each with its
    extracted words and its full list of links. *)
Lemma crawl_cases dir :
  (listdir dir = None ∧ crawl dir WebCrawler_init = Some (Raise OSError)) ∨
  (crawl dir WebCrawler_init = Some (Raise AttributeError) ∧
   ∃ f, f ∈ enumerate dir ∧ bad_title dir f) ∨
  (∃ c, crawl dir WebCrawler_init = Some (Ok c) ∧
        is_Some (listdir dir) ∧
        NoDup (PyDict.keys (pages c)) ∧
        (∀ f, PyDict.get (pages c) f =
              if decide (f ∈ enumerate dir) then page_of dir f else None) ∧
        (∀ f, default [] (PyDict.get (links c) f) =
              if decide (f ∈ enumerate dir) then links_of dir f else []) ∧
        (∀ f, f ∈ enumerate dir → ¬ bad_title dir f)).
Proof.
  unfold crawl, enumerate.
  destruct (listdir dir) as [names|] eqn:Hls; [|by left]. right.
  destruct (crawl_loop_fuel dir (html_files names)
              (crawl_fuel dir (html_files names))
              (crawl_start WebCrawler_init (html_files names)))
    as [(st & Hrun & Hinv & Hq)|[Hrun Hbad]].
  - split; rewrite ?queue_start; simpl; try done.
    + intros f Hf. by right.
    + apply NoDup_nil_2.
    + apply NoDup_nil_2.
  - unfold measure, crawl_fuel. rewrite queue_start.
    pose proof (size_list_to_set_le (html_files names)) as Hsz.
    assert (size (list_to_set (html_files names) ∖ visited
                    (crawl_start WebCrawler_init (html_files names))
                  : gset string)
            ≤ length (html_files names)) as Hle.
    { etrans; [|exact Hsz]. apply subseteq_size. set_solver. }
    unfold max_out. nia.
  - right. rewrite Hrun. eexists. split; [done|]. split; [by eexists|].
    assert (∀ f, f ∈ visited st ↔ f ∈ html_files names) as Hvis.
    { intros f. split; [apply (ci_visited _ _ _ Hinv)|].
      intros Hf. destruct (ci_covered _ _ _ Hinv f Hf) as [?|Hfq]; [done|].
      rewrite Hq in Hfq. by apply elem_of_nil in Hfq. }
    simpl. split; [apply (ci_pages_nodup _ _ _ Hinv)|]. split; [|split].
    + intros f. rewrite (ci_pages _ _ _ Hinv).
      destruct (decide (f ∈ visited st)) as [Hv|Hv].
      * by rewrite decide_True by (by apply Hvis).
      * rewrite decide_False; [done|]. intros ?. apply Hv. by apply Hvis.
    + intros f. rewrite (ci_links _ _ _ Hinv).
      destruct (decide (f ∈ visited st)) as [Hv|Hv].
      * by rewrite decide_True by (by apply Hvis).
      * rewrite decide_False; [done|]. intros ?. apply Hv. by apply Hvis.
    + intros f Hf. apply (ci_extract _ _ _ Hinv). by apply Hvis.
  - left. by rewrite Hrun.
Qed.

(** [crawl] on a fresh crawler, when it returns. *)
Lemma crawl_spec dir c :
  crawl dir WebCrawler_init = Some (Ok c) →
  is_Some (listdir dir) ∧
  NoDup (PyDict.keys (pages c)) ∧
  (∀ f, PyDict.get (pages c) f =
        if decide (f ∈ enumerate dir) then page_of dir f else None) ∧
  (∀ f, default [] (PyDict.get (links c) f) =
        if decide (f ∈ enumerate dir) then links_of dir f else []) ∧
  (∀ f, f ∈ enumerate dir → ¬ bad_title dir f).
Proof.
  intros Hcrawl.
  destruct (crawl_cases dir) as [[_ Hc]|[[Hc _]|(c0 & Hc & Hrest)]];
    [congruence|congruence|].
  assert (c0 = c) as -> by congruence. exact Hrest.
Qed.
End CrawlFacts.

(** ** The engine after [build_index] *)

Module BuildFacts.
(** When the crawl returns, [build_index] on a fresh engine completes,
    without raising, and leaves an engine that describes the crawl. *)
Lemma build_index_spec dir mode c :
  crawl dir WebCrawler_init = Some (Ok c) →
  ∃ e, build_index dir (SearchEngine_init mode) = Some (Ok e) ∧
       Indexed mode c e.
Proof.
  intros Hcrawl.
  destruct (CrawlFacts.crawl_spec dir c Hcrawl) as (_ & Hnd & Hpg & Hlk & _).
  destruct (IndexFacts.index_pages_spec (pages c) [] _
              Hnd IndexFacts.PagesInv_init) as (ix & Hrun & Hinv & Hdl).
  unfold build_index. simpl. rewrite Hcrawl.
  unfold PyDict.items. rewrite Hrun. eexists. split; [done|].
  simpl in *. split; simpl; try done.
  - intros t. rewrite TrieFacts.search_fill_trie
      by apply (inv_nodup _ _ _ Hinv).
    destruct (PyDict.get (ix_word_to_index ix) t); [done|].
    apply TrieFacts.search_new.
  - by destruct ix.
  - intros d. rewrite IndexFacts.count_incoming_read.
    by rewrite lookup_empty.
Qed.

(** An engine that [build_index] returned describes the crawl it holds. *)
Lemma build_index_Ok dir mode e :
  build_index dir (SearchEngine_init mode) = Some (Ok e) →
  crawl dir WebCrawler_init = Some (Ok (crawler e)) ∧
  Indexed mode (crawler e) e.
Proof.
  intros Hb. pose proof Hb as Hb'. unfold build_index in Hb'. simpl in Hb'.
  destruct (crawl dir WebCrawler_init) as [[c|x]|] eqn:Hc; [|done|done].
  clear Hb'. destruct (build_index_spec dir mode c Hc) as (e0 & Hb0 & Hix).
  assert (e0 = e) as -> by congruence.
  by rewrite (ixd_crawler _ _ _ Hix).
Qed.

(** [build_index] raises exactly what the crawl raises. *)
Lemma build_index_Raise dir mode x :
  crawl dir WebCrawler_init = Some (Raise x) →
  build_index dir (SearchEngine_init mode) = Some (Raise x).
Proof. intros Hc. unfold build_index. simpl. by rewrite Hc. Qed.

Lemma Indexed_known mode c e t :
  Indexed mode c e →
  is_Some (Trie.search (trie e) t) ↔ occurs (pages c) t.
Proof.
  intros Hix. rewrite (ixd_trie _ _ _ Hix).
  apply (inv_known _ _ _ (ixd_index _ _ _ Hix)).
Qed.

Lemma Indexed_posting mode c e t idx :
  Indexed mode c e → Trie.search (trie e) t = Some idx →
  inverted_index e !! idx = Some (posting_of (pages c) t).
Proof.
  intros Hix. rewrite (ixd_trie _ _ _ Hix). intros Hg.
  apply (inv_post _ _ _ (ixd_index _ _ _ Hix) _ _ Hg).
Qed.

(** No two terms share a position, and the positions are exactly those of
    the posting-list collection. *)
Lemma Indexed_position_inj mode c e t t' idx :
  Indexed mode c e →
  Trie.search (trie e) t = Some idx → Trie.search (trie e) t' = Some idx →
  t = t'.
Proof.
  intros Hix. rewrite !(ixd_trie _ _ _ Hix).
  apply IndexFacts.values_NoDup_inj.
  pose proof (inv_values _ _ _ (ixd_index _ _ _ Hix)) as Hv.
  simpl in Hv. rewrite Hv. apply NoDup_seq.
Qed.

Lemma Indexed_position_onto mode c e idx :
  Indexed mode c e → idx < length (inverted_index e) →
  ∃ t, Trie.search (trie e) t = Some idx.
Proof.
  intros Hix Hlt.
  pose proof (inv_values _ _ _ (ixd_index _ _ _ Hix)) as Hv.
  simpl in Hv.
  assert (idx ∈ PyDict.values (word_to_index e)) as Hin.
  { rewrite Hv. apply elem_of_seq. lia. }
  apply list_elem_of_fmap in Hin as ([t i] & -> & Hin).
  exists t. rewrite (ixd_trie _ _ _ Hix).
  apply PyDictFacts.elem_of_get; [|done].
  apply (inv_nodup _ _ _ (ixd_index _ _ _ Hix)).
Qed.

Lemma posting_lookup_freq pgs t D :
  posting_of pgs t !! D = nonzero (freq pgs t D).
Proof.
  rewrite IndexFacts.lookup_posting_of. unfold freq.
  destruct (PyDict.get pgs D); [done|]. simpl. unfold nonzero.
  by rewrite decide_True.
Qed.

Lemma elem_of_dom_posting pgs t D :
  D ∈ dom (posting_of pgs t) ↔ 0 < freq pgs t D.
Proof.
  rewrite elem_of_dom, posting_lookup_freq. unfold nonzero.
  destruct (decide (freq pgs t D = 0)) as [->|Hne].
  - split; [by intros [? ?]|lia].
  - split; [lia|by eexists].
Qed.

Lemma df_snoc pgs f d t :
  df (pgs ++ [(f, d)]) t =
  df pgs t + (if decide (t ∈ words d) then 1 else 0).
Proof.
  unfold df, docs_containing. rewrite filter_app, fmap_app, length_app.
  f_equal. rewrite filter_cons. simpl.
  by destruct (decide (t ∈ words d)).
Qed.

(** The size of a posting list is the number of documents containing the
    term. *)
Lemma size_posting_of pgs t :
  NoDup (PyDict.keys pgs) → size (posting_of pgs t) = df pgs t.
Proof.
  induction pgs as [|[f d] pgs IH] using rev_ind; intros Hnd.
  - unfold posting_of. simpl. by rewrite omap_empty, map_size_empty.
  - unfold PyDict.keys in Hnd. rewrite fmap_app in Hnd.
    apply NoDup_app in Hnd as (Hnd & Hdisj & _).
    assert (f ∉ PyDict.keys pgs) as Hfresh.
    { intros Hin. apply (Hdisj _ Hin). simpl. apply elem_of_cons. by left. }
    rewrite IndexFacts.posting_of_snoc, df_snoc by done.
    rewrite CounterFacts.get_Counter.
    destruct (decide (freq_in t (words d) = 0)) as [H0|Hpos].
    + rewrite decide_False; [rewrite IH by done; lia|].
      intros Hin%CounterFacts.freq_in_pos. lia.
    + rewrite decide_True by (apply CounterFacts.freq_in_pos; lia).
      rewrite map_size_insert_None; [rewrite IH by done; lia|].
      rewrite IndexFacts.lookup_posting_of.
      by rewrite (proj2 (PyDictFacts.get_None pgs f) Hfresh).
Qed.
End BuildFacts.

(** ** Running [search] *)

Module SearchFacts.
Lemma bind_run {A B} (m : M A) (k : A → M B) e a e' :
  m e = (Ok a, e') → (m ≫= k) e = k a e'.
Proof. intros Hm. unfold mbind, M_bind. by rewrite Hm. Qed.

Lemma elem_of_fold_intersection (sets : list (gset string)) : ∀ s D,
  D ∈ fold_left (∩) sets s ↔ D ∈ s ∧ ∀ X, X ∈ sets → D ∈ X.
Proof.
  induction sets as [|Y sets IH]; intros s D; simpl.
  - split; [|tauto]. intros HD. split; [done|].
    intros X HX. by apply elem_of_nil in HX.
  - rewrite IH, elem_of_intersection. split.
    + intros [[? ?] Hall]. split; [done|].
      intros X [->|?]%elem_of_cons; [done|by apply Hall].
    + intros [? Hall]. split; [split; [done|]|].
      * apply Hall, elem_of_cons. by left.
      * intros X HX. apply Hall, elem_of_cons. by right.
Qed.

Lemma freq_pos_occurs pgs t D : 0 < freq pgs t D → occurs pgs t.
Proof.
  unfold freq. destruct (PyDict.get pgs D) as [d|] eqn:Hg; [|lia].
  intros Hpos. exists D, d. split.
  - by apply PyDictFacts.get_Some_elem_of.
  - by apply CounterFacts.freq_in_pos.
Qed.

Lemma freq_pos_key pgs t D : 0 < freq pgs t D → D ∈ PyDict.keys pgs.
Proof.
  unfold freq. destruct (PyDict.get pgs D) as [d|] eqn:Hg; [|lia].
  intros _. apply PyDictFacts.get_is_Some. by eexists.
Qed.

Lemma freq_le_length pgs t D : freq pgs t D ≤ doc_length pgs D.
Proof.
  unfold freq, doc_length. destruct (PyDict.get pgs D); [|lia].
  apply CounterFacts.freq_in_le.
Qed.

Lemma elem_of_candidates pgs terms D :
  D ∈ candidates pgs terms ↔
  terms ≠ [] ∧ ∀ t, t ∈ terms → 0 < freq pgs t D.
Proof.
  destruct terms as [|t0 terms].
  - simpl. split; [intros []%not_elem_of_empty|by intros [? _]].
  - unfold candidates. rewrite elem_of_filter, Forall_forall.
    rewrite elem_of_list_to_set. split.
    + intros [Hall _]. split; [done|]. intros t Ht. by apply Hall.
    + intros [_ Hall]. split; [done|].
      apply (freq_pos_key _ t0), Hall, elem_of_cons. by left.
Qed.

Lemma candidates_unknown pgs terms t :
  t ∈ terms → ¬ occurs pgs t → candidates pgs terms = ∅.
Proof.
  intros Ht Hunk. apply set_eq. intros D. rewrite elem_of_candidates.
  split; [|intros []%not_elem_of_empty].
  intros [_ Hall]. destruct Hunk. eapply freq_pos_occurs. by apply Hall.
Qed.

(** *** The engine after a search *)

Lemma lookup_touch docs e d :
  incoming_links (touch docs e) !! d =
  match incoming_links e !! d with
  | Some v => Some v
  | None => if decide (d ∈ docs) then Some 0 else None
  end.
Proof.
  unfold touch. simpl. rewrite lookup_union, lookup_gset_to_gmap.
  destruct (incoming_links e !! d) as [v|]; simpl.
  - by destruct (guard (d ∈ docs)).
  - destruct (decide (d ∈ docs)).
    + by rewrite option_guard_True.
    + by rewrite option_guard_False.
Qed.

Lemma read_touch docs e d :
  default 0 (incoming_links (touch docs e) !! d) =
  default 0 (incoming_links e !! d).
Proof.
  rewrite lookup_touch. destruct (incoming_links e !! d); [done|].
  by destruct (decide (d ∈ docs)).
Qed.

Lemma touch_empty e : touch ∅ e = e.
Proof.
  unfold touch. rewrite gset_to_gmap_empty, (right_id_L ∅ (∪)).
  by destruct e.
Qed.

Lemma touch_touch X Y e : touch Y (touch X e) = touch (X ∪ Y) e.
Proof.
  assert (incoming_links (touch Y (touch X e))
          = incoming_links (touch (X ∪ Y) e)) as Heq.
  { apply map_eq. intros d. rewrite !lookup_touch.
    destruct (incoming_links e !! d) as [v|]; [done|].
    destruct (decide (d ∈ X)), (decide (d ∈ Y)), (decide (d ∈ X ∪ Y));
      try done; set_solver. }
  unfold touch at 1 3. unfold set_incoming_links.
  fold (incoming_links (touch Y (touch X e))) in Heq.
  unfold touch at 1 in Heq. simpl in Heq. simpl. by rewrite Heq.
Qed.

Lemma Indexed_touch mode c docs e :
  Indexed mode c e → Indexed mode c (touch docs e).
Proof.
  intros [Hm Hc Hp Ht Hi Hl Hinc]. split; try done.
  intros d. by rewrite read_touch.
Qed.

Lemma read_incoming_links_run e D :
  read_incoming_links D e =
  (Ok (default 0 (incoming_links e !! D)), touch {[D]} e).
Proof.
  unfold read_incoming_links, defaultdict_getitem, touch.
  destruct (incoming_links e !! D) as [v|] eqn:Hv; simpl; f_equal.
  - unfold set_incoming_links. f_equal. apply map_eq. intros d.
    rewrite lookup_union, lookup_gset_to_gmap.
    destruct (decide (d = D)) as [->|Hne].
    + rewrite Hv. simpl. by destruct (guard (D ∈ ({[D]} : gset string))).
    + rewrite option_guard_False by set_solver.
      by destruct (incoming_links e !! d).
  - unfold set_incoming_links. f_equal. apply map_eq. intros d.
    rewrite lookup_union, lookup_gset_to_gmap, lookup_insert.
    destruct (decide (D = d)) as [->|Hne].
    + rewrite Hv, option_guard_True by set_solver. done.
    + rewrite option_guard_False by set_solver.
      by destruct (incoming_links e !! d).
Qed.

Section run.
Context {F : Type} `{ScoreNum F}.
Variables (mode : string) (c : WebCrawler).

Lemma set_inverted_index_id e idx occ :
  inverted_index e !! idx = Some occ →
  set_inverted_index (<[idx := occ]> (inverted_index e)) e = e.
Proof. intros Hl. rewrite list_insert_id by done. by destruct e. Qed.

Lemma read_occurrences_run e t idx D :
  Indexed mode c e → Trie.search (trie e) t = Some idx →
  0 < freq (pages c) t D →
  read_occurrences idx D e =
  (Ok (df (pages c) t, freq (pages c) t D), e).
Proof.
  intros Hix Hidx Hpos. unfold read_occurrences.
  pose proof (BuildFacts.Indexed_posting _ _ _ _ _ Hix Hidx) as Hocc.
  rewrite Hocc. unfold defaultdict_getitem.
  rewrite BuildFacts.posting_lookup_freq. unfold nonzero.
  rewrite decide_False by lia.
  rewrite set_inverted_index_id by done.
  by rewrite BuildFacts.size_posting_of by apply (ixd_pages _ _ _ Hix).
Qed.

Lemma compute_score_run e t D :
  Indexed mode c e → 0 < freq (pages c) t D →
  compute_score e t D (freq (pages c) t D) (length (pages c))
                (df (pages c) t)
  = Ok (term_score mode (pages c) t D).
Proof.
  intros Hix Hpos. unfold compute_score, term_score.
  rewrite (ixd_mode _ _ _ Hix).
  destruct (String.eqb mode "simple"); [done|].
  rewrite (ixd_lengths _ _ _ Hix).
  pose proof (freq_le_length (pages c) t D) as Hle.
  unfold doc_length, freq in *.
  destruct (PyDict.get (pages c) D) as [d|]; [simpl|lia].
  destruct (length (words d)) as [|n] eqn:Hlen; [lia|done].
Qed.

Lemma score_term_run e D total t :
  Indexed mode c e → 0 < freq (pages c) t D →
  score_term D (length (pages c)) total t e =
  (Ok (fadd total (term_score mode (pages c) t D)), e).
Proof.
  intros Hix Hpos. unfold score_term.
  rewrite (bind_run _ _ e (trie e) e) by done.
  destruct (proj2 (BuildFacts.Indexed_known _ _ _ t Hix)
              (freq_pos_occurs _ _ _ Hpos)) as [idx Hidx].
  rewrite Hidx.
  rewrite (bind_run _ _ e _ e (read_occurrences_run e t idx D Hix Hidx Hpos)).
  rewrite (bind_run _ _ e e e) by done.
  erewrite (bind_run (lift _)); [done|].
  unfold lift. by rewrite compute_score_run.
Qed.

Lemma score_terms_run e D terms : ∀ total,
  Indexed mode c e → (∀ t, t ∈ terms → 0 < freq (pages c) t D) →
  M_for (score_term D (length (pages c))) terms total e =
  (Ok (fold_left (λ acc t, fadd acc (term_score mode (pages c) t D))
                 terms total), e).
Proof.
  induction terms as [|t terms IH]; intros total Hix Hall; [done|].
  cbn [M_for fold_left].
  rewrite (bind_run _ _ e _ e (score_term_run e D total t Hix
             (Hall t ltac:(apply elem_of_cons; by left)))).
  apply IH; [done|]. intros t' Ht'. apply Hall, elem_of_cons. by right.
Qed.

Lemma score_doc_run e D terms scores :
  Indexed mode c e → (∀ t, t ∈ terms → 0 < freq (pages c) t D) →
  score_doc terms (length (pages c)) scores D e =
  (Ok (PyDict.set scores D (total_score mode c terms D)), touch {[D]} e).
Proof.
  intros Hix Hall. unfold score_doc.
  rewrite (bind_run _ _ e _ e (score_terms_run e D terms _ Hix Hall)).
  rewrite (bind_run _ _ e _ _ (read_incoming_links_run e D)).
  unfold total_score. by rewrite (ixd_incoming _ _ _ Hix).
Qed.

Lemma score_docs_run terms docs : ∀ e scores,
  Indexed mode c e →
  (∀ D t, D ∈ docs → t ∈ terms → 0 < freq (pages c) t D) →
  M_for (score_doc terms (length (pages c))) docs scores e =
  (Ok (fold_left (λ sc D, PyDict.set sc D (total_score mode c terms D))
                 docs scores),
   touch (list_to_set docs) e).
Proof.
  induction docs as [|D docs IH]; intros e scores Hix Hall.
  - simpl. by rewrite touch_empty.
  - cbn [M_for fold_left].
    rewrite (bind_run _ _ e _ _ (score_doc_run e D terms scores Hix
               (λ t, Hall D t ltac:(apply elem_of_cons; by left)))).
    rewrite IH.
    + by rewrite touch_touch.
    + by apply Indexed_touch.
    + intros D' t HD'. apply Hall, elem_of_cons. by right.
Qed.

Lemma fold_set_fresh (g : string → F) docs : ∀ scores,
  NoDup docs → (∀ D, D ∈ docs → D ∉ PyDict.keys scores) →
  fold_left (λ sc D, PyDict.set sc D (g D)) docs scores =
  scores ++ ((λ D, (D, g D)) <$> docs).
Proof.
  induction docs as [|D docs IH]; intros scores Hnd Hfresh; simpl.
  - by rewrite app_nil_r.
  - apply NoDup_cons in Hnd as [Hnin Hnd].
    rewrite IH; [|done|].
    + rewrite PyDictFacts.set_fresh.
      * by rewrite <-app_assoc.
      * apply PyDictFacts.get_None, Hfresh, elem_of_cons. by left.
    + intros D' HD'. rewrite PyDictFacts.elem_of_keys_set.
      intros [->|Hin]; [done|].
      revert Hin. apply Hfresh, elem_of_cons. by right.
Qed.

Lemma collect_doc_sets_run e terms : ∀ acc,
  Indexed mode c e →
  (collect_doc_sets e terms acc = Ok None ∧
   ∃ t, t ∈ terms ∧ Trie.search (trie e) t = None) ∨
  (collect_doc_sets e terms acc =
     Ok (Some (acc ++ ((λ t, dom (posting_of (pages c) t)) <$> terms))) ∧
   ∀ t, t ∈ terms → is_Some (Trie.search (trie e) t)).
Proof.
  induction terms as [|t terms IH]; intros acc Hix; simpl.
  - right. rewrite app_nil_r. split; [done|].
    intros t Ht. by apply elem_of_nil in Ht.
  - destruct (Trie.search (trie e) t) as [idx|] eqn:Hidx.
    + rewrite (BuildFacts.Indexed_posting _ _ _ _ _ Hix Hidx).
      destruct (IH (acc ++ [dom (posting_of (pages c) t)]) Hix)
        as [[Hrun (t' & Ht' & Hnone)]|[Hrun Hall]].
      * left. split; [done|]. exists t'. split; [|done].
        apply elem_of_cons. by right.
      * right. rewrite Hrun, <-app_assoc. split; [done|].
        intros t' [->|?]%elem_of_cons; [by eexists|by apply Hall].
    + left. split; [done|]. exists t. split; [|done].
      apply elem_of_cons. by left.
Qed.

Lemma matching_docs_candidates t terms :
  fold_left (∩) ((λ t, dom (posting_of (pages c) t)) <$> terms)
            (dom (posting_of (pages c) t))
  = candidates (pages c) (t :: terms).
Proof.
  apply set_eq. intros D.
  rewrite elem_of_fold_intersection, elem_of_candidates.
  rewrite BuildFacts.elem_of_dom_posting. split.
  - intros [Ht Hall]. split; [done|].
    intros t' [->|Ht']%elem_of_cons; [done|].
    apply BuildFacts.elem_of_dom_posting, Hall.
    apply list_elem_of_fmap. by exists t'.
  - intros [_ Hall]. split.
    + apply Hall, elem_of_cons. by left.
    + intros X (t' & -> & Ht')%list_elem_of_fmap.
      apply BuildFacts.elem_of_dom_posting, Hall, elem_of_cons. by right.
Qed.

(** [search] on an engine that describes the crawl [c]: it returns the
    ranking, and leaves the engine as [touch] describes. *)
Lemma search_run e query :
  Indexed mode c e →
  search query e =
  (Ok (ranking mode c (tokenize query)),
   touch (candidates (pages c) (tokenize query)) e).
Proof.
  intros Hix. unfold search, ranking.
  destruct (tokenize query) as [|t0 terms] eqn:Hterms.
  { simpl. rewrite elements_empty. by rewrite touch_empty. }
  rewrite (bind_run _ _ e e e) by done.
  destruct (collect_doc_sets_run e (t0 :: terms) [] Hix)
    as [[Hrun (t & Ht & Hnone)]|[Hrun Hall]].
  - erewrite (bind_run (lift _)); [|unfold lift; by rewrite Hrun].
    rewrite (candidates_unknown (pages c) (t0 :: terms) t); [| done |].
    + rewrite elements_empty. by rewrite touch_empty.
    + intros Hocc%(BuildFacts.Indexed_known _ _ _ _ Hix).
      rewrite Hnone in Hocc. by destruct Hocc.
  - erewrite (bind_run (lift _)); [|unfold lift; by rewrite Hrun].
    cbn [app fmap list_fmap].
    erewrite (bind_run (lift _)); [|unfold lift; simpl; done].
    change (list_fmap string (gset string)
              (λ t, dom (posting_of (pages c) t)) terms)
      with ((λ t, dom (posting_of (pages c) t)) <$> terms).
    rewrite matching_docs_candidates.
    destruct (decide (candidates (pages c) (t0 :: terms) = ∅)) as [->|Hne].
    { rewrite elements_empty. by rewrite touch_empty. }
    rewrite (ixd_crawler _ _ _ Hix).
    erewrite bind_run; [|apply score_docs_run; [done|]].
    + rewrite list_to_set_elements_L.
      rewrite fold_set_fresh; [done|apply NoDup_elements|].
      intros D _. apply not_elem_of_nil.
    + intros D t HD%elem_of_elements Ht.
      by apply (proj1 (elem_of_candidates _ _ _) HD).
Qed.
End run.

(** *** Sorting *)

Section sorting.
Context {F : Type} `{ScoreNum F}.

Lemma insert_desc_perm x l : insert_desc x l ≡ₚ x :: l.
Proof.
  induction l as [|y l IH]; simpl; [done|].
  destruct (flt x.2 y.2); [|done].
  rewrite IH. apply Permutation_swap.
Qed.

Lemma sorted_desc_perm l : sorted_desc l ≡ₚ l.
Proof.
  induction l as [|x l IH]; simpl; [done|].
  by rewrite insert_desc_perm, IH.
Qed.

Lemma insert_desc_descending x l :
  descending l → descending (insert_desc x l).
Proof.
  unfold descending. induction l as [|y l IH]; intros Hs; simpl.
  - constructor; constructor.
  - apply StronglySorted_inv in Hs as [Hs Hy].
    destruct (flt x.2 y.2) eqn:Hxy.
    + constructor; [by apply IH|].
      apply Forall_forall. intros z Hz.
      rewrite insert_desc_perm in Hz. apply elem_of_cons in Hz as [->|Hz].
      * by apply flt_asym.
      * rewrite Forall_forall in Hy. by apply Hy.
    + constructor; [by constructor|].
      constructor; [done|].
      apply Forall_forall. intros z Hz. rewrite Forall_forall in Hy.
      eapply flt_negtrans; [exact Hxy|by apply Hy].
Qed.

Lemma sorted_desc_descending l : descending (sorted_desc l).
Proof.
  induction l as [|x l IH]; simpl.
  - constructor.
  - by apply insert_desc_descending.
Qed.

Lemma sorted_desc_nil l : sorted_desc l = [] ↔ l = [].
Proof.
  split; [|by intros ->]. intros Hnil.
  apply Permutation_nil_r. rewrite <-Hnil. symmetry. apply sorted_desc_perm.
Qed.
End sorting.
End SearchFacts.

(** ** Engines that answer queries *)

Module ServingFacts.
Section serving.
Context {F : Type} `{ScoreNum F}.

Lemma serving_Indexed dir mode e :
  serving dir mode e →
  crawl dir WebCrawler_init = Some (Ok (crawler e)) ∧
  Indexed mode (crawler e) e.
Proof.
  induction 1 as [e Hbuild|e query Hs [Hcrawl Hix]].
  - by apply BuildFacts.build_index_Ok.
  - rewrite (SearchFacts.search_run mode (crawler e) e query Hix). simpl.
    split; [done|]. by apply (SearchFacts.Indexed_touch _ _ _ e).
Qed.

Lemma serving_search_run dir mode e query :
  serving dir mode e →
  search query e =
  (Ok (ranking mode (crawler e) (tokenize query)),
   touch (candidates (pages (crawler e)) (tokenize query)) e).
Proof.
  intros [_ Hix]%serving_Indexed. by apply SearchFacts.search_run.
Qed.
End serving.

Lemma crawl_pages dir c f :
  crawl dir WebCrawler_init = Some (Ok c) →
  PyDict.get (pages c) f =
  if decide (f ∈ enumerate dir) then page_of dir f else None.
Proof.
  intros Hc. destruct (CrawlFacts.crawl_spec dir c Hc) as (_ & _ & Hpg & _).
  apply Hpg.
Qed.

Lemma crawl_links dir c f :
  crawl dir WebCrawler_init = Some (Ok c) →
  default [] (PyDict.get (links c) f) =
  if decide (f ∈ enumerate dir) then links_of dir f else [].
Proof.
  intros Hc.
  destruct (CrawlFacts.crawl_spec dir c Hc) as (_ & _ & _ & Hlk & _).
  apply Hlk.
Qed.

Lemma elem_of_docs_containing pgs t D :
  NoDup (PyDict.keys pgs) →
  D ∈ docs_containing pgs t ↔ 0 < freq pgs t D.
Proof.
  intros Hnd. unfold docs_containing, freq. split.
  - intros ([f d] & -> & Hin)%list_elem_of_fmap.
    apply list_elem_of_filter in Hin as [Ht Hin]. simpl in *.
    rewrite (PyDictFacts.elem_of_get _ _ _ Hnd Hin).
    by apply CounterFacts.freq_in_pos.
  - destruct (PyDict.get pgs D) as [d|] eqn:Hg; [|lia].
    intros Hpos. apply list_elem_of_fmap. exists (D, d). split; [done|].
    apply list_elem_of_filter. split.
    + by apply CounterFacts.freq_in_pos.
    + by apply PyDictFacts.get_Some_elem_of.
Qed.

Lemma df_pos pgs t : occurs pgs t → 0 < df pgs t.
Proof.
  intros (f & d & Hin & Ht). unfold df, docs_containing.
  rewrite length_fmap.
  assert ((f, d) ∈ filter (λ entry, t ∈ words entry.2) pgs) as Hel.
  { by apply list_elem_of_filter. }
  destruct (filter _ pgs); [by apply elem_of_nil in Hel|simpl; lia].
Qed.

Lemma df_le pgs t : df pgs t ≤ length pgs.
Proof.
  unfold df, docs_containing. rewrite length_fmap. apply length_filter.
Qed.

Lemma in_posting_freq mode c e t D :
  Indexed mode c e → in_posting e t D ↔ 0 < freq (pages c) t D.
Proof.
  intros Hix. unfold in_posting. split.
  - intros (idx & occ & Hidx & Hocc & HD).
    rewrite (BuildFacts.Indexed_posting _ _ _ _ _ Hix Hidx) in Hocc.
    injection Hocc as <-. by apply BuildFacts.elem_of_dom_posting.
  - intros Hpos.
    destruct (proj2 (BuildFacts.Indexed_known _ _ _ t Hix)
                (SearchFacts.freq_pos_occurs _ _ _ Hpos)) as [idx Hidx].
    exists idx, (posting_of (pages c) t). split; [done|].
    split; [by eapply BuildFacts.Indexed_posting|].
    by apply BuildFacts.elem_of_dom_posting.
Qed.

Lemma elem_of_ranking {F : Type} `{ScoreNum F} mode c terms D :
  D ∈ (ranking (F:=F) mode c terms).*1 ↔ D ∈ candidates (pages c) terms.
Proof.
  unfold ranking. rewrite SearchFacts.sorted_desc_perm.
  rewrite <-list_fmap_compose. simpl.
  rewrite list_fmap_id. apply elem_of_elements.
Qed.

(** *** The small collection *)

Lemma ex_built :
  build_index ex_dir (SearchEngine_init "tf-idf") = Some (Ok ex_engine).
Proof. vm_compute. reflexivity. Qed.

Lemma ex_serving {F : Type} `{ScoreNum F} :
  serving ex_dir "tf-idf" ex_engine.
Proof. apply serving_built, ex_built. Qed.

Lemma ex_candidates_gamma :
  elements (candidates (pages (crawler ex_engine)) (tokenize "gamma"))
  = ["c.html"].
Proof. vm_compute. reflexivity. Qed.

Lemma ex_search_gamma {F : Type} `{ScoreNum F} :
  search "gamma" ex_engine =
  (Ok [("c.html", total_score "tf-idf" (crawler ex_engine)
                              (tokenize "gamma") "c.html")],
   touch (candidates (pages (crawler ex_engine)) (tokenize "gamma"))
         ex_engine).
Proof.
  rewrite (serving_search_run ex_dir "tf-idf" ex_engine "gamma" ex_serving).
  unfold ranking. by rewrite ex_candidates_gamma.
Qed.
End ServingFacts.

(** ** The small collection, evaluated *)

Example ex_tokenize :
  tokenize "The quick-brown Fox, and THE dog 42nd"
  = ["quick"; "brown"; "fox"; "dog"; "nd"].
Proof. reflexivity. Qed.

Example ex_enumerate :
  enumerate ex_dir = ["a.html"; "b.html"; "c.html"; "d.html"].
Proof. reflexivity. Qed.

Example ex_pages :
  pages (crawler ex_engine) =
  [("a.html", {| title := "Page A"; words := ["alpha"; "search"; "search"] |});
   ("b.html", {| title := "b.html"; words := ["beta"; "search"] |});
   ("c.html", {| title := "C"; words := ["gamma"; "search"] |})].
Proof. vm_compute. reflexivity. Qed.

Example ex_links :
  links (crawler ex_engine) =
  [("a.html", ["b.html"; "z.html"]); ("b.html", ["a.html"; "a.html"])].
Proof. vm_compute. reflexivity. Qed.

Example ex_word_to_index :
  word_to_index ex_engine =
  [("alpha", 0); ("search", 1); ("beta", 2); ("gamma", 3)].
Proof. vm_compute. reflexivity. Qed.

Example ex_inverted_index :
  map_to_list <$> inverted_index ex_engine =
  [[("a.html", 1)]; [("c.html", 1); ("a.html", 2); ("b.html", 1)];
   [("b.html", 1)]; [("c.html", 1)]].
Proof. vm_compute. reflexivity. Qed.

Example ex_incoming_links :
  incoming_links ex_engine !! "a.html" = Some 2 ∧
  incoming_links ex_engine !! "b.html" = Some 1 ∧
  incoming_links ex_engine !! "z.html" = Some 1 ∧
  incoming_links ex_engine !! "c.html" = None.
Proof. vm_compute. repeat split; reflexivity. Qed.

Example ex_trie :
  Trie.search (trie ex_engine) "search" = Some 1 ∧
  Trie.search (trie ex_engine) "sear" = None ∧
  Trie.search (trie ex_engine) "searching" = None.
Proof. vm_compute. repeat split; reflexivity. Qed.

Example ex_candidates_search :
  elements (candidates (pages (crawler ex_engine)) (tokenize "search"))
  ≡ₚ ["a.html"; "b.html"; "c.html"].
Proof.
  assert (elements (candidates (pages (crawler ex_engine)) (tokenize "search"))
          = ["c.html"; "a.html"; "b.html"]) as -> by (vm_compute; reflexivity).
  apply (Permutation_app_comm ["c.html"] ["a.html"; "b.html"]).
Qed.

Example ex_candidates_beta_search :
  elements (candidates (pages (crawler ex_engine)) (tokenize "beta search"))
  = ["b.html"].
Proof. vm_compute. reflexivity. Qed.

(** ** Scores as real numbers *)

Module RealFacts.
Lemma idf_ratio_ge_1 (N dfv : nat) :
  dfv ≤ N → (1 <= INR (1 + N) / INR (1 + dfv))%R.
Proof.
  intros Hle.
  assert (0 < INR (1 + dfv))%R as Hpos by (apply lt_0_INR; lia).
  assert (INR (1 + dfv) <= INR (1 + N))%R as Hab by (apply le_INR; lia).
  apply (Rmult_le_reg_r (INR (1 + dfv))); [done|].
  unfold Rdiv. rewrite Rmult_assoc, Rinv_l by lra. lra.
Qed.

Lemma idf_pos (N dfv : nat) : dfv ≤ N → (0 < idf (F:=R) N dfv)%R.
Proof.
  intros Hle. unfold idf. simpl.
  pose proof (idf_ratio_ge_1 N dfv Hle) as Hge.
  destruct (Req_dec (INR (1 + N) / INR (1 + dfv)) 1) as [Heq|Hne].
  - simpl in Heq. rewrite Heq, ln_1. lra.
  - assert (ln 1 < ln (INR (1 + N) / INR (1 + dfv)))%R as Hln.
    { apply ln_increasing; lra. }
    rewrite ln_1 in Hln. simpl in Hln. lra.
Qed.

Lemma tf_lt (f1 f2 L : nat) :
  1 ≤ L → f1 < f2 → (INR f1 / INR L < INR f2 / INR L)%R.
Proof.
  intros HL Hlt.
  assert (0 < INR L)%R as Hpos by (apply lt_0_INR; lia).
  apply Rmult_lt_compat_r; [by apply Rinv_0_lt_compat|by apply lt_INR].
Qed.
End RealFacts.

(** * The claims *)

(** C1: in TF-IDF mode every candidate document (a document containing
    every query term) comes once in the result of [search], and the score
    returned with a document is the sum over the query terms of
    [(freq / L) * (ln((1 + N) / (1 + df)) + 1)] plus [0.1] times the
    inbound-link count of the document, added once.  Nothing is said about
    the order of documents with equal scores, which in the code is the
    order in which a Python set is iterated. *)
Theorem C1_tfidf_total_score {F : Type} `{ScoreNum F}
    (dir : Directory) (mode : string) (e : SearchEngine) (query : string) :
  serving dir mode e → mode ≠ "simple" →
  ∃ res,
    (search query e).1 = Ok res ∧
    res.*1 ≡ₚ elements (candidates (pages (crawler e)) (tokenize query)) ∧
    ∀ D s, (D, s) ∈ res →
      s = spec_tfidf_total (pages (crawler e))
            (λ d, default 0 (incoming_links e !! d)) (tokenize query) D.
Proof.
  intros Hs Hmode. pose proof (ServingFacts.serving_Indexed _ _ _ Hs) as [_ Hix].
  rewrite (ServingFacts.serving_search_run _ _ _ _ Hs). cbn [fst].
  eexists. split; [done|]. unfold ranking. split.
  - rewrite SearchFacts.sorted_desc_perm, <-list_fmap_compose.
    by rewrite list_fmap_id.
  - intros D s. rewrite SearchFacts.sorted_desc_perm.
    intros (D' & [= <- ->] & _)%list_elem_of_fmap.
    unfold total_score, spec_tfidf_total, term_score, idf.
    apply String.eqb_neq in Hmode. rewrite Hmode.
    by rewrite (ixd_incoming _ _ _ Hix).
Qed.

Lemma C1_witness :
  serving (F:=R) ex_dir "tf-idf" ex_engine ∧ "tf-idf" ≠ "simple" ∧
  ∃ res,
    (search (F:=R) "gamma search" ex_engine).1 = Ok res ∧
    res.*1 ≡ₚ elements (candidates (pages (crawler ex_engine))
                                   (tokenize "gamma search")) ∧
    ∀ D s, (D, s) ∈ res →
      s = spec_tfidf_total (pages (crawler ex_engine))
            (λ d, default 0 (incoming_links ex_engine !! d))
            (tokenize "gamma search") D.
Proof.
  split; [apply ServingFacts.ex_serving|]. split; [discriminate|].
  apply (C1_tfidf_total_score ex_dir "tf-idf" ex_engine "gamma search");
    [apply ServingFacts.ex_serving|discriminate].
Defined.

(** C2: [search] returns exactly the documents that lie in the posting
    list of every query term (the intersection of the posting-list document
    sets), so every returned document contains every query term at least
    once. *)
Theorem C2_conjunctive_results {F : Type} `{ScoreNum F}
    (dir : Directory) (mode : string) (e : SearchEngine) (query : string) :
  serving dir mode e →
  ∃ res,
    (search query e).1 = Ok res ∧
    (∀ D, D ∈ res.*1 ↔
          tokenize query ≠ [] ∧ ∀ t, t ∈ tokenize query → in_posting e t D) ∧
    (∀ D t, D ∈ res.*1 → t ∈ tokenize query →
            1 ≤ freq (pages (crawler e)) t D).
Proof.
  intros Hs. pose proof (ServingFacts.serving_Indexed _ _ _ Hs) as [_ Hix].
  exists (ranking mode (crawler e) (tokenize query)).
  split; [by rewrite (ServingFacts.serving_search_run _ _ _ _ Hs)|].
  split.
  - intros D. rewrite ServingFacts.elem_of_ranking.
    rewrite SearchFacts.elem_of_candidates.
    split; intros [Hne Hall]; (split; [done|]); intros t Ht.
    + apply (ServingFacts.in_posting_freq _ _ _ _ _ Hix). by apply Hall.
    + apply (ServingFacts.in_posting_freq _ _ _ _ _ Hix). by apply Hall.
  - intros D t HD Ht. apply ServingFacts.elem_of_ranking in HD.
    apply SearchFacts.elem_of_candidates in HD as [_ Hall]. by apply Hall.
Qed.

Lemma C2_witness :
  serving (F:=R) ex_dir "tf-idf" ex_engine ∧
  ∃ res,
    (search (F:=R) "gamma search" ex_engine).1 = Ok res ∧
    (∀ D, D ∈ res.*1 ↔
          tokenize "gamma search" ≠ [] ∧
          ∀ t, t ∈ tokenize "gamma search" → in_posting ex_engine t D) ∧
    (∀ D t, D ∈ res.*1 → t ∈ tokenize "gamma search" →
            1 ≤ freq (pages (crawler ex_engine)) t D).
Proof.
  split; [apply ServingFacts.ex_serving|].
  apply (C2_conjunctive_results ex_dir "tf-idf" ex_engine "gamma search").
  apply ServingFacts.ex_serving.
Defined.

(** C3, as the code has it: [search] returns a list of
    (document identifier, score) pairs, no title among them; every
    identifier is a crawled page, whose title the caller reads from the
    pages; no score is smaller than a later one; and the list is empty
    exactly when no document contains every query term. *)
Theorem C3_pairs_sorted_descending {F : Type} `{ScoreNum F}
    (dir : Directory) (mode : string) (e : SearchEngine) (query : string) :
  serving dir mode e →
  ∃ res,
    (search query e).1 = Ok res ∧
    (∀ row, row ∈ py_items res →
            ∃ D s, row = PyTuple [PyStr D; PyFloat s] ∧
                   is_Some (PyDict.get (pages (crawler e)) D)) ∧
    descending res ∧
    (res = [] ↔ candidates (pages (crawler e)) (tokenize query) = ∅).
Proof.
  intros Hs. pose proof (ServingFacts.serving_Indexed _ _ _ Hs) as [_ Hix].
  exists (ranking mode (crawler e) (tokenize query)).
  split; [by rewrite (ServingFacts.serving_search_run _ _ _ _ Hs)|].
  split; [|split].
  - intros row ([D s] & -> & Hin)%list_elem_of_fmap. exists D, s.
    split; [done|]. apply PyDictFacts.get_is_Some.
    assert (D ∈ (ranking mode (crawler e) (tokenize query)).*1) as HD.
    { apply list_elem_of_fmap. by exists (D, s). }
    apply ServingFacts.elem_of_ranking in HD.
    apply SearchFacts.elem_of_candidates in HD as [Hne Hall].
    destruct (tokenize query) as [|t0 ts]; [done|].
    apply (SearchFacts.freq_pos_key _ t0), Hall, elem_of_cons. by left.
  - apply SearchFacts.sorted_desc_descending.
  - unfold ranking. rewrite SearchFacts.sorted_desc_nil. split.
    + intros Hnil%fmap_nil_inv. by apply elements_empty_inv, leibniz_equiv in Hnil.
    + intros ->. by rewrite elements_empty.
Qed.

Lemma C3_witness :
  serving (F:=R) ex_dir "tf-idf" ex_engine ∧
  ∃ res,
    (search (F:=R) "search" ex_engine).1 = Ok res ∧
    (∀ row, row ∈ py_items res →
            ∃ D s, row = PyTuple [PyStr D; PyFloat s] ∧
                   is_Some (PyDict.get (pages (crawler ex_engine)) D)) ∧
    descending res ∧
    (res = [] ↔ candidates (pages (crawler ex_engine)) (tokenize "search") = ∅).
Proof.
  split; [apply ServingFacts.ex_serving|].
  apply (C3_pairs_sorted_descending ex_dir "tf-idf" ex_engine "search").
  apply ServingFacts.ex_serving.
Defined.

(** C3 as stated fails: on the small collection the query "gamma" returns
    one row, the pair of "c.html" and its score, which is no
    (identifier, title, score) triple. *)
Lemma C3_counterexample :
  ¬ ∀ row,
      row ∈ py_items (match (search (F:=R) "gamma" ex_engine).1 with
                      | Ok res => res
                      | Raise _ => []
                      end) →
      ∃ (D ti : string) (s : R), row = PyTuple [PyStr D; PyStr ti; PyFloat s].
Proof.
  rewrite ServingFacts.ex_search_gamma. simpl. intros Hall.
  destruct (Hall _ ltac:(apply list_elem_of_singleton; reflexivity))
    as (D & ti & s & Heq).
  discriminate Heq.
Qed.

(** C4, as the code has it: a [search] leaves the inverted index, the trie,
    the term positions, the document lengths, the crawl and the ranking
    mode as they were, and the count read from the inbound-link table for
    any document is unchanged; the table itself gains an entry with value
    0 for every returned document that had none. *)
Theorem C4_search_frame {F : Type} `{ScoreNum F}
    (dir : Directory) (mode : string) (e : SearchEngine) (query : string) :
  serving dir mode e →
  ∃ res,
    (search query e).1 = Ok res ∧
    inverted_index (search query e).2 = inverted_index e ∧
    trie (search query e).2 = trie e ∧
    word_to_index (search query e).2 = word_to_index e ∧
    document_lengths (search query e).2 = document_lengths e ∧
    crawler (search query e).2 = crawler e ∧
    ranking_mode (search query e).2 = ranking_mode e ∧
    (∀ d, default 0 (incoming_links (search query e).2 !! d)
          = default 0 (incoming_links e !! d)) ∧
    (∀ d, incoming_links (search query e).2 !! d =
          match incoming_links e !! d with
          | Some n => Some n
          | None => if decide (d ∈ res.*1) then Some 0 else None
          end).
Proof.
  intros Hs. rewrite (ServingFacts.serving_search_run _ _ _ _ Hs).
  cbn [fst snd]. eexists. split; [done|]. repeat (split; [done|]). split.
  - intros d. apply SearchFacts.read_touch.
  - intros d. rewrite SearchFacts.lookup_touch.
    destruct (incoming_links e !! d); [done|].
    destruct (decide (d ∈ candidates (pages (crawler e)) (tokenize query)))
      as [Hd|Hd].
    + by rewrite decide_True by (by apply ServingFacts.elem_of_ranking).
    + rewrite decide_False; [done|].
      by intros ?%ServingFacts.elem_of_ranking.
Qed.

Lemma C4_witness :
  serving (F:=R) ex_dir "tf-idf" ex_engine ∧
  ∃ res,
    (search (F:=R) "gamma" ex_engine).1 = Ok res ∧
    inverted_index (search (F:=R) "gamma" ex_engine).2
      = inverted_index ex_engine ∧
    trie (search (F:=R) "gamma" ex_engine).2 = trie ex_engine ∧
    word_to_index (search (F:=R) "gamma" ex_engine).2
      = word_to_index ex_engine ∧
    document_lengths (search (F:=R) "gamma" ex_engine).2
      = document_lengths ex_engine ∧
    crawler (search (F:=R) "gamma" ex_engine).2 = crawler ex_engine ∧
    ranking_mode (search (F:=R) "gamma" ex_engine).2
      = ranking_mode ex_engine ∧
    (∀ d, default 0 (incoming_links (search (F:=R) "gamma" ex_engine).2 !! d)
          = default 0 (incoming_links ex_engine !! d)) ∧
    (∀ d, incoming_links (search (F:=R) "gamma" ex_engine).2 !! d =
          match incoming_links ex_engine !! d with
          | Some n => Some n
          | None => if decide (d ∈ res.*1) then Some 0 else None
          end).
Proof.
  split; [apply ServingFacts.ex_serving|].
  apply (C4_search_frame ex_dir "tf-idf" ex_engine "gamma").
  apply ServingFacts.ex_serving.
Defined.

(** C4 as stated fails: on the small collection, "c.html" has no entry in
    the inbound-link table after [build_index]; the query "gamma" returns
    it, and the table then holds a 0 for it. *)
Lemma C4_counterexample :
  incoming_links ex_engine !! "c.html" = None ∧
  incoming_links (search (F:=R) "gamma" ex_engine).2 !! "c.html" = Some 0 ∧
  incoming_links (search (F:=R) "gamma" ex_engine).2 ≠ incoming_links ex_engine.
Proof.
  rewrite ServingFacts.ex_search_gamma. cbn [fst snd].
  assert (incoming_links ex_engine !! "c.html" = None) as Hbefore.
  { vm_compute. reflexivity. }
  assert (incoming_links
            (touch (candidates (pages (crawler ex_engine)) (tokenize "gamma"))
                   ex_engine) !! "c.html" = Some 0) as Hafter.
  { rewrite SearchFacts.lookup_touch, Hbefore.
    apply decide_True.
    apply elem_of_elements. rewrite ServingFacts.ex_candidates_gamma.
    apply list_elem_of_singleton. reflexivity. }
  split; [exact Hbefore|]. split; [exact Hafter|].
  intros Heq. rewrite Heq in Hafter. rewrite Hbefore in Hafter.
  discriminate Hafter.
Qed.

(** C5: with real-valued scores in TF-IDF mode, the posting list of an
    indexed term has between 1 and N documents, so the smoothed IDF
    [ln((1 + N) / (1 + df)) + 1] is strictly positive; and for a document
    of length [L >= 1], with N, df and L fixed, [compute_score] is strictly
    increasing in the frequency it is given. *)
Theorem C5_idf_positive_score_increasing
    (dir : Directory) (mode : string) (e : SearchEngine)
    (t doc : string) (idx : nat) (occ : gmap string nat) (L f1 f2 : nat) :
  serving (F:=R) dir mode e → mode ≠ "simple" →
  Trie.search (trie e) t = Some idx →
  inverted_index e !! idx = Some occ →
  document_lengths e !! doc = Some L → 1 ≤ L → f1 < f2 →
  1 ≤ size occ ∧ size occ ≤ length (pages (crawler e)) ∧
  (0 < idf (F:=R) (length (pages (crawler e))) (size occ))%R ∧
  ∃ s1 s2 : R,
    compute_score e t doc f1 (length (pages (crawler e))) (size occ) = Ok s1 ∧
    compute_score e t doc f2 (length (pages (crawler e))) (size occ) = Ok s2 ∧
    (s1 < s2)%R.
Proof.
  intros [_ Hix]%ServingFacts.serving_Indexed Hmode Hidx Hocc Hlen HL Hlt.
  rewrite (BuildFacts.Indexed_posting _ _ _ _ _ Hix Hidx) in Hocc.
  injection Hocc as <-.
  rewrite BuildFacts.size_posting_of by apply (ixd_pages _ _ _ Hix).
  assert (occurs (pages (crawler e)) t) as Hoccurs.
  { apply (BuildFacts.Indexed_known _ _ _ _ Hix). by eexists. }
  pose proof (ServingFacts.df_pos _ _ Hoccurs) as Hdf1.
  pose proof (ServingFacts.df_le (pages (crawler e)) t) as Hdf2.
  pose proof (RealFacts.idf_pos _ _ Hdf2) as Hidf.
  split; [lia|]. split; [done|]. split; [done|].
  unfold compute_score. rewrite (ixd_mode _ _ _ Hix).
  apply String.eqb_neq in Hmode. rewrite Hmode, Hlen.
  destruct L as [|L']; [lia|].
  eexists _, _. split; [done|]. split; [done|].
  apply Rmult_lt_compat_r; [done|].
  apply (RealFacts.tf_lt f1 f2 (S L')); lia.
Qed.

Lemma C5_witness :
  serving (F:=R) ex_dir "tf-idf" ex_engine ∧ "tf-idf" ≠ "simple" ∧
  Trie.search (trie ex_engine) "search" = Some 1 ∧
  inverted_index ex_engine !! 1%nat =
    Some (default ∅ (inverted_index ex_engine !! 1%nat)) ∧
  document_lengths ex_engine !! "a.html" = Some 3 ∧ 1 ≤ 3 ∧ 1 < 2 ∧
  (1 ≤ size (default ∅ (inverted_index ex_engine !! 1%nat)) ∧
   size (default ∅ (inverted_index ex_engine !! 1%nat))
     ≤ length (pages (crawler ex_engine)) ∧
   (0 < idf (F:=R) (length (pages (crawler ex_engine)))
          (size (default ∅ (inverted_index ex_engine !! 1%nat))))%R ∧
   ∃ s1 s2 : R,
     compute_score ex_engine "search" "a.html" 1
       (length (pages (crawler ex_engine)))
       (size (default ∅ (inverted_index ex_engine !! 1%nat))) = Ok s1 ∧
     compute_score ex_engine "search" "a.html" 2
       (length (pages (crawler ex_engine)))
       (size (default ∅ (inverted_index ex_engine !! 1%nat))) = Ok s2 ∧
     (s1 < s2)%R).
Proof.
  assert (Trie.search (trie ex_engine) "search" = Some 1) as Hidx
    by (vm_compute; reflexivity).
  assert (inverted_index ex_engine !! 1%nat =
          Some (default ∅ (inverted_index ex_engine !! 1%nat))) as Hocc
    by (vm_compute; reflexivity).
  assert (document_lengths ex_engine !! "a.html" = Some 3) as Hlen
    by (vm_compute; reflexivity).
  split; [apply ServingFacts.ex_serving|]. split; [discriminate|].
  split; [exact Hidx|]. split; [exact Hocc|]. split; [exact Hlen|].
  split; [lia|]. split; [lia|].
  apply (C5_idf_positive_score_increasing ex_dir "tf-idf" ex_engine
           "search" "a.html" 1 _ 3 1 2);
    [apply ServingFacts.ex_serving|discriminate|exact Hidx|exact Hocc
    |exact Hlen|lia|lia].
Defined.

(** C6: for an engine that answers queries, the inbound-link count read
    for [d] is the number of edges to [d] in the crawler's link multimap,
    and that multimap holds, for every enumerated file that was read, the
    full list of its links: repeated links stay repeated, and a link counts
    whether or not its target is ever fetched. *)
Theorem C6_inbound_counts_edges {F : Type} `{ScoreNum F}
    (dir : Directory) (mode : string) (e : SearchEngine) (d : string) :
  serving dir mode e →
  default 0 (incoming_links e !! d) = edge_count (links (crawler e)) d ∧
  ∀ src, default [] (PyDict.get (links (crawler e)) src) =
         if decide (src ∈ enumerate dir) then links_of dir src else [].
Proof.
  intros [Hcrawl Hix]%ServingFacts.serving_Indexed. split.
  - apply (ixd_incoming _ _ _ Hix).
  - intros src. by apply ServingFacts.crawl_links.
Qed.

Lemma C6_witness :
  serving (F:=R) ex_dir "tf-idf" ex_engine ∧
  (default 0 (incoming_links ex_engine !! "z.html")
     = edge_count (links (crawler ex_engine)) "z.html" ∧
   ∀ src, default [] (PyDict.get (links (crawler ex_engine)) src) =
          if decide (src ∈ enumerate ex_dir) then links_of ex_dir src else []).
Proof.
  split; [apply ServingFacts.ex_serving|].
  apply (C6_inbound_counts_edges ex_dir "tf-idf" ex_engine "z.html").
  apply ServingFacts.ex_serving.
Defined.

(** C7: every term of a crawled document has a position through the trie,
    the position is inside the posting-list collection and belongs to no
    other term, and the posting list there is non-empty, its keys are the
    documents containing the term, each mapped to the term's number of
    occurrences in it. *)
Theorem C7_term_has_one_posting_list {F : Type} `{ScoreNum F}
    (dir : Directory) (mode : string) (e : SearchEngine) (t : string) :
  serving dir mode e → occurs (pages (crawler e)) t →
  ∃ idx occ,
    Trie.search (trie e) t = Some idx ∧
    idx < length (inverted_index e) ∧
    inverted_index e !! idx = Some occ ∧
    occ ≠ ∅ ∧
    dom occ = list_to_set (docs_containing (pages (crawler e)) t) ∧
    (∀ D, D ∈ dom occ → occ !! D = Some (freq (pages (crawler e)) t D)) ∧
    (∀ t', Trie.search (trie e) t' = Some idx → t' = t).
Proof.
  intros [Hcrawl Hix]%ServingFacts.serving_Indexed Hocc.
  destruct (proj2 (BuildFacts.Indexed_known _ _ _ t Hix) Hocc) as [idx Hidx].
  pose proof (BuildFacts.Indexed_posting _ _ _ _ _ Hix Hidx) as Hpost.
  exists idx, (posting_of (pages (crawler e)) t).
  split; [done|]. split; [by eapply lookup_lt_Some|]. split; [done|].
  assert (dom (posting_of (pages (crawler e)) t)
          = list_to_set (docs_containing (pages (crawler e)) t)) as Hdom.
  { apply set_eq. intros D.
    rewrite BuildFacts.elem_of_dom_posting, elem_of_list_to_set.
    by rewrite ServingFacts.elem_of_docs_containing
      by apply (ixd_pages _ _ _ Hix). }
  split; [|split; [done|split]].
  - intros Hempty. pose proof (ServingFacts.df_pos _ _ Hocc) as Hpos.
    rewrite <-BuildFacts.size_posting_of in Hpos
      by apply (ixd_pages _ _ _ Hix).
    rewrite Hempty, map_size_empty in Hpos. lia.
  - intros D HD%BuildFacts.elem_of_dom_posting.
    rewrite BuildFacts.posting_lookup_freq. unfold nonzero.
    rewrite decide_False by lia. done.
  - intros t' Ht'. by eapply BuildFacts.Indexed_position_inj.
Qed.

Lemma C7_witness :
  serving (F:=R) ex_dir "tf-idf" ex_engine ∧
  occurs (pages (crawler ex_engine)) "search" ∧
  ∃ idx occ,
    Trie.search (trie ex_engine) "search" = Some idx ∧
    idx < length (inverted_index ex_engine) ∧
    inverted_index ex_engine !! idx = Some occ ∧
    occ ≠ ∅ ∧
    dom occ = list_to_set (docs_containing (pages (crawler ex_engine)) "search") ∧
    (∀ D, D ∈ dom occ →
          occ !! D = Some (freq (pages (crawler ex_engine)) "search" D)) ∧
    (∀ t', Trie.search (trie ex_engine) t' = Some idx → t' = "search").
Proof.
  assert (occurs (pages (crawler ex_engine)) "search") as Hocc.
  { exists "c.html", {| title := "C"; words := ["gamma"; "search"] |}.
    split; apply list_elem_of_In; vm_compute; tauto. }
  split; [apply ServingFacts.ex_serving|]. split; [exact Hocc|].
  apply (C7_term_has_one_posting_list ex_dir "tf-idf" ex_engine "search");
    [apply ServingFacts.ex_serving|exact Hocc].
Defined.

(** The query of the specification's scenario has no term left. *)
Example tokenize_stop_words : tokenize "the and of" = [].
Proof. reflexivity. Qed.

(** C8: [search] never raises, and its result is empty in exactly three
    cases: the query has no term left after normalization, some query term
    is absent from the index, or every term is known but no document lies
    in all their posting lists. *)
Theorem C8_empty_result_cases {F : Type} `{ScoreNum F}
    (dir : Directory) (mode : string) (e : SearchEngine) (query : string) :
  serving dir mode e →
  ∃ res,
    (search query e).1 = Ok res ∧
    (res = [] ↔
     tokenize query = [] ∨
     (∃ t, t ∈ tokenize query ∧ Trie.search (trie e) t = None) ∨
     ((∀ t, t ∈ tokenize query → is_Some (Trie.search (trie e) t)) ∧
      ∀ D, ¬ ∀ t, t ∈ tokenize query → in_posting e t D)).
Proof.
  intros Hs. pose proof (ServingFacts.serving_Indexed _ _ _ Hs) as [_ Hix].
  exists (ranking mode (crawler e) (tokenize query)).
  split; [by rewrite (ServingFacts.serving_search_run _ _ _ _ Hs)|].
  assert (ranking mode (crawler e) (tokenize query) = [] ↔
          candidates (pages (crawler e)) (tokenize query) = ∅) as ->.
  { unfold ranking. rewrite SearchFacts.sorted_desc_nil. split.
    - intros Hnil%fmap_nil_inv.
      by apply elements_empty_inv, leibniz_equiv in Hnil.
    - intros ->. by rewrite elements_empty. }
  assert (∀ D, D ∈ candidates (pages (crawler e)) (tokenize query) ↔
               tokenize query ≠ [] ∧
               ∀ t, t ∈ tokenize query → in_posting e t D) as Hcand.
  { intros D. rewrite SearchFacts.elem_of_candidates.
    split; intros [Hne Hall]; (split; [done|]); intros t Ht.
    - apply (ServingFacts.in_posting_freq _ _ _ _ _ Hix). by apply Hall.
    - apply (ServingFacts.in_posting_freq _ _ _ _ _ Hix). by apply Hall. }
  split.
  - intros Hempty. destruct (decide (tokenize query = [])) as [?|Hne];
      [by left|right].
    destruct (decide (Forall (λ t, is_Some (Trie.search (trie e) t))
                             (tokenize query))) as [Hall|Hex].
    + right. rewrite Forall_forall in Hall. split; [done|].
      intros D HD. apply (not_elem_of_empty (C:=gset string) D).
      rewrite <-Hempty. by apply Hcand.
    + left. apply not_Forall_Exists in Hex; [|apply _].
      apply Exists_exists in Hex as (t & Ht & Hnone).
      exists t. split; [done|]. by apply eq_None_not_Some.
  - intros [Hnil|[(t & Ht & Hnone)|[_ Hnone]]].
    + by rewrite Hnil.
    + apply (SearchFacts.candidates_unknown _ _ t); [done|].
      intros Hocc%(BuildFacts.Indexed_known _ _ _ _ Hix).
      rewrite Hnone in Hocc. by destruct Hocc.
    + apply set_eq. intros D. split; [|intros []%not_elem_of_empty].
      intros [_ HD]%Hcand. by destruct (Hnone D).
Qed.

Lemma C8_witness :
  serving (F:=R) ex_dir "tf-idf" ex_engine ∧
  ∃ res,
    (search (F:=R) "the and of" ex_engine).1 = Ok res ∧
    (res = [] ↔
     tokenize "the and of" = [] ∨
     (∃ t, t ∈ tokenize "the and of" ∧
           Trie.search (trie ex_engine) t = None) ∨
     ((∀ t, t ∈ tokenize "the and of" →
            is_Some (Trie.search (trie ex_engine) t)) ∧
      ∀ D, ¬ ∀ t, t ∈ tokenize "the and of" → in_posting ex_engine t D)).
Proof.
  split; [apply ServingFacts.ex_serving|].
  apply (C8_empty_result_cases ex_dir "tf-idf" ex_engine "the and of").
  apply ServingFacts.ex_serving.
Defined.

(** C9: [crawl] comes to an end, and when it returns (no exception from
    listing the directory or from [extract]), the recorded pages are exactly
    the enumerated files (the [.html] names of the directory) that can be
    read, whatever the links say: no page comes from outside the
    enumeration, and no readable enumerated file is left out. *)
Theorem C9_crawl_records_readable_enumerated (dir : Directory) :
  ∃ r, crawl dir WebCrawler_init = Some r ∧
       ∀ c, r = Ok c →
         ∃ names,
           listdir dir = Some names ∧
           ∀ f, f ∈ PyDict.keys (pages c) ↔
                f ∈ names ∧ endswith f ".html" = true ∧
                is_Some (read_file dir f).
Proof.
  destruct (CrawlFacts.crawl_cases dir)
    as [[_ Hc]|[[Hc _]|(c & Hc & [names Hls] & _ & Hpg & _ & Hgood)]].
  - eexists. split; [exact Hc|]. by intros c [=].
  - eexists. split; [exact Hc|]. by intros c [=].
  - eexists. split; [exact Hc|]. intros c' [= <-].
    exists names. split; [done|]. intros f.
    etrans; [symmetry; apply PyDictFacts.get_is_Some|]. rewrite Hpg.
    destruct (decide (f ∈ enumerate dir)) as [Hd|Hd].
    + pose proof (Hgood f Hd) as Hok.
      unfold enumerate, html_files in Hd. rewrite Hls in Hd.
      rewrite list_elem_of_filter in Hd. destruct Hd as [Hext Hin].
      unfold page_of. destruct (read_file dir f) as [html|] eqn:Hread.
      * destruct (extract dir html f) as [[[ti ws] outs]|x] eqn:Hex.
        -- split; [intros _|by eexists].
           split; [done|]. split; [done|by eexists].
        -- destruct Hok. exists html. split; [done|].
           by apply (CrawlFacts.extract_Raise dir html f x).
      * split; [by intros [? ?]|]. intros (_ & _ & [? ?]). done.
    + split; [by intros [? ?]|]. intros (Hin & Hext & _). destruct Hd.
      unfold enumerate, html_files. rewrite Hls.
      by apply list_elem_of_filter.
Qed.

Lemma C9_witness :
  crawl ex_dir WebCrawler_init = Some (Ok (crawler ex_engine)) ∧
  ∃ names,
    listdir ex_dir = Some names ∧
    ∀ f, f ∈ PyDict.keys (pages (crawler ex_engine)) ↔
         f ∈ names ∧ endswith f ".html" = true ∧
         is_Some (read_file ex_dir f).
Proof.
  assert (crawl ex_dir WebCrawler_init = Some (Ok (crawler ex_engine)))
    as Hcrawl by (vm_compute; reflexivity).
  split; [exact Hcrawl|].
  destruct (C9_crawl_records_readable_enumerated ex_dir) as (r & Hr & Hpages).
  apply Hpages. rewrite Hcrawl in Hr. by injection Hr as <-.
Defined.

(** C10: in TF-IDF mode, a document that lies in the posting list of every
    term of a non-empty query has an entry in the length table, and its
    length is at least 1; so [compute_score] does not raise for it, and
    [search] returns a result. *)
Theorem C10_tfidf_division_defined {F : Type} `{ScoreNum F}
    (dir : Directory) (mode : string) (e : SearchEngine)
    (query D : string) :
  serving dir mode e → mode ≠ "simple" →
  tokenize query ≠ [] →
  (∀ t, t ∈ tokenize query → in_posting e t D) →
  (∃ L, document_lengths e !! D = Some L ∧ 1 ≤ L) ∧
  (∀ t fr N dfv, ∃ s : F, compute_score e t D fr N dfv = Ok s) ∧
  ∃ res, (search query e).1 = Ok res.
Proof.
  intros Hs Hmode Hne Hall.
  pose proof (ServingFacts.serving_Indexed _ _ _ Hs) as [_ Hix].
  assert (∃ L, document_lengths e !! D = Some L ∧ 1 ≤ L) as (L & HL & Hpos).
  { destruct (tokenize query) as [|t0 ts]; [done|].
    assert (0 < freq (pages (crawler e)) t0 D) as Hfreq.
    { apply (ServingFacts.in_posting_freq _ _ _ _ _ Hix), Hall, elem_of_cons.
      by left. }
    pose proof (SearchFacts.freq_le_length (pages (crawler e)) t0 D) as Hle.
    rewrite (ixd_lengths _ _ _ Hix). unfold freq, doc_length in *.
    destruct (PyDict.get (pages (crawler e)) D) as [d|]; [|lia].
    exists (length (words d)). split; [done|lia]. }
  split; [by exists L|]. split.
  - intros t fr N dfv. unfold compute_score. rewrite HL.
    destruct (String.eqb (ranking_mode e) "simple"); [by eexists|].
    destruct L as [|L']; [lia|by eexists].
  - eexists. by rewrite (ServingFacts.serving_search_run _ _ _ _ Hs).
Qed.

Lemma C10_witness :
  serving (F:=R) ex_dir "tf-idf" ex_engine ∧ "tf-idf" ≠ "simple" ∧
  tokenize "gamma search" ≠ [] ∧
  (∀ t, t ∈ tokenize "gamma search" → in_posting ex_engine t "c.html") ∧
  ((∃ L, document_lengths ex_engine !! "c.html" = Some L ∧ 1 ≤ L) ∧
   (∀ t fr N dfv,
      ∃ s : R, compute_score ex_engine t "c.html" fr N dfv = Ok s) ∧
   ∃ res, (search (F:=R) "gamma search" ex_engine).1 = Ok res).
Proof.
  assert (∀ t, t ∈ tokenize "gamma search" → in_posting ex_engine t "c.html")
    as Hall.
  { intros t Ht.
    apply (ServingFacts.in_posting_freq "tf-idf" (crawler ex_engine));
      [apply (ServingFacts.serving_Indexed (F:=R) ex_dir),
         ServingFacts.ex_serving|].
    change (tokenize "gamma search") with ["gamma"; "search"] in Ht.
    apply elem_of_cons in Ht as [->|Ht]; [vm_compute; lia|].
    apply list_elem_of_singleton in Ht as ->. vm_compute; lia. }
  split; [apply ServingFacts.ex_serving|]. split; [discriminate|].
  split; [discriminate|]. split; [exact Hall|].
  apply (C10_tfidf_division_defined ex_dir "tf-idf" ex_engine
           "gamma search" "c.html");
    [apply ServingFacts.ex_serving|discriminate|discriminate|exact Hall].
Defined.

(** * Further properties *)

(** ** More on the trie *)

Module TrieMore.
Lemma insert_at_twice word : ∀ node i j,
  Trie.insert_at (Trie.insert_at node word i) word j
  = Trie.insert_at node word j.
Proof.
  induction word as [|c w IH]; intros node i j; simpl; [done|].
  rewrite lookup_insert_eq, IH. by rewrite insert_insert_eq.
Qed.

Lemma insert_at_comm word : ∀ word' node i j,
  word ≠ word' →
  Trie.insert_at (Trie.insert_at node word i) word' j
  = Trie.insert_at (Trie.insert_at node word' j) word i.
Proof.
  induction word as [|c w IH]; intros [|c' w'] node i j Hne; simpl;
    try done.
  destruct (decide (c = c')) as [->|Hc].
  - rewrite !lookup_insert_eq, !insert_insert_eq.
    rewrite (IH w') by congruence. done.
  - rewrite !lookup_insert_ne by done.
    by rewrite insert_insert_ne.
Qed.
End TrieMore.

(** X1: a search after an insert returns the inserted position for the
    inserted word and what it returned before for every other word, be it
    a prefix or an extension of the inserted one. *)
Theorem X1_trie_search_after_insert
    (root : TrieNode) (word word' : string) (idx : nat) :
  Trie.search (Trie.insert root word idx) word' =
  if decide (word = word') then Some idx else Trie.search root word'.
Proof. apply TrieFacts.search_insert. Qed.

(** X2: inserting a word that is already there overwrites its position and
    changes nothing else: the trie is the one the later insert alone would
    give. *)
Theorem X2_trie_insert_overwrites
    (root : TrieNode) (word : string) (i j : nat) :
  Trie.insert (Trie.insert root word i) word j = Trie.insert root word j.
Proof. apply TrieMore.insert_at_twice. Qed.

(** X3: inserts of two different words can be swapped: the trie does not
    depend on the order in which the words arrive. *)
Theorem X3_trie_inserts_commute
    (root : TrieNode) (word word' : string) (i j : nat) :
  word ≠ word' →
  Trie.insert (Trie.insert root word i) word' j
  = Trie.insert (Trie.insert root word' j) word i.
Proof. intros Hne. by apply TrieMore.insert_at_comm. Qed.

Lemma X3_witness :
  "search" ≠ "sea" ∧
  Trie.insert (Trie.insert Trie.new "search" 0) "sea" 1
  = Trie.insert (Trie.insert Trie.new "sea" 1) "search" 0.
Proof.
  split; [discriminate|].
  apply (X3_trie_inserts_commute Trie.new "search" "sea" 0 1). discriminate.
Defined.

(** ** Tokens *)

Module TokenFacts.
Lemma lower_char_alpha c :
  is_alpha (lower_char c) = true → is_lower (lower_char c) = true.
Proof. by destruct c as [[] [] [] [] [] [] [] []]. Qed.

Lemma lower_char_idem c : lower_char (lower_char c) = lower_char c.
Proof. by destruct c as [[] [] [] [] [] [] [] []]. Qed.

Lemma is_lower_alpha c : is_lower c = true → is_alpha c = true.
Proof. by destruct c as [[] [] [] [] [] [] [] []]. Qed.

Lemma is_lower_fixed c : is_lower c = true → lower_char c = c.
Proof. by destruct c as [[] [] [] [] [] [] [] []]. Qed.

Lemma lower_idem s : lower (lower s) = lower s.
Proof.
  induction s as [|c s IH]; simpl; [done|].
  by rewrite lower_char_idem, IH.
Qed.

Lemma lower_fixed s :
  Forall (λ c, is_lower c = true) (list_ascii_of_string s) → lower s = s.
Proof.
  induction s as [|c s IH]; simpl; [done|].
  intros [Hc Hs]%Forall_cons. by rewrite is_lower_fixed, IH.
Qed.

Lemma lower_chars s :
  Forall (λ c, is_alpha c = true → is_lower c = true)
         (list_ascii_of_string (lower s)).
Proof.
  induction s as [|c s IH]; simpl; constructor; [|done].
  apply lower_char_alpha.
Qed.

(** A run that is closed becomes a token with the letters of the run. *)
Lemma run_token (Q : ascii → Prop) c cur :
  Forall Q (c :: cur) →
  string_of_list_ascii (rev (c :: cur)) ≠ "" ∧
  Forall Q (list_ascii_of_string (string_of_list_ascii (rev (c :: cur)))).
Proof.
  intros HQ. split.
  - intros Heq. apply (f_equal list_ascii_of_string) in Heq.
    rewrite list_ascii_of_string_of_list_ascii in Heq. simpl in Heq.
    by destruct (rev cur).
  - rewrite list_ascii_of_string_of_list_ascii.
    apply Forall_forall. intros x Hx%list_elem_of_In%in_rev%list_elem_of_In.
    rewrite Forall_forall in HQ. by apply HQ.
Qed.

Lemma findall_alpha_from_tokens (Q : ascii → Prop) s : ∀ cur w,
  Forall Q cur →
  Forall (λ c, is_alpha c = true → Q c) (list_ascii_of_string s) →
  w ∈ findall_alpha_from s cur →
  w ≠ "" ∧ Forall Q (list_ascii_of_string w).
Proof.
  induction s as [|c s IH]; intros cur w Hcur Hs; simpl.
  - destruct cur as [|c0 cur]; [by intros ?%elem_of_nil|].
    intros ->%list_elem_of_singleton. by apply run_token.
  - simpl in Hs. apply Forall_cons in Hs as [Hc Hs].
    destruct (is_alpha c) eqn:Ha.
    + apply IH; [|done]. constructor; [by apply Hc|done].
    + destruct cur as [|c0 cur]; [by apply IH|].
      intros [->|Hw]%elem_of_cons; [by apply run_token|].
      revert Hw. by apply IH.
Qed.

(** Every token is a term. *)
Lemma tokenize_terms text w : w ∈ tokenize text → is_term w.
Proof.
  unfold tokenize, remove_stop_words.
  intros [Hstop Hw]%list_elem_of_filter.
  destruct (findall_alpha_from_tokens (λ c, is_lower c = true)
              (lower text) [] w) as [Hne Hlow]; try done.
  apply lower_chars.
Qed.

(** A string of letters is one run. *)
Lemma findall_alpha_from_run s : ∀ cur,
  Forall (λ c, is_alpha c = true) (list_ascii_of_string s) →
  findall_alpha_from s cur =
  match rev cur ++ list_ascii_of_string s with
  | [] => []
  | l => [string_of_list_ascii l]
  end.
Proof.
  induction s as [|c s IH]; intros cur Hs; simpl.
  - rewrite app_nil_r. destruct cur as [|c0 cur]; [done|].
    simpl. by destruct (rev cur ++ [c0]) eqn:Heq;
      [destruct (rev cur); discriminate|].
  - simpl in Hs. apply Forall_cons in Hs as [Hc Hs]. rewrite Hc.
    rewrite IH by done. simpl. by rewrite <-app_assoc.
Qed.

(** A term is its own normal form. *)
Lemma tokenize_term w : is_term w → tokenize w = [w].
Proof.
  intros (Hne & Hlow & Hstop). unfold tokenize, findall_alpha.
  rewrite lower_fixed by done.
  rewrite findall_alpha_from_run.
  - cbn [rev app]. destruct (list_ascii_of_string w) as [|c l] eqn:Hw.
    + destruct w; [done|discriminate].
    + rewrite <-Hw, string_of_list_ascii_of_string.
      unfold remove_stop_words. rewrite filter_cons, decide_True by done.
      done.
  - eapply Forall_impl; [exact Hlow|]. apply is_lower_alpha.
Qed.
End TokenFacts.

(** X4: every token of a text, document or query, is a term: it is not
    empty, it is made of the letters a to z only, and it is no stop
    word. *)
Theorem X4_tokens_are_terms (text w : string) :
  w ∈ tokenize text → is_term w.
Proof. apply TokenFacts.tokenize_terms. Qed.

Lemma X4_witness :
  "fox" ∈ tokenize "The quick Fox, and the dog" ∧ is_term "fox".
Proof.
  assert ("fox" ∈ tokenize "The quick Fox, and the dog") as Hin.
  { apply list_elem_of_In. vm_compute. tauto. }
  split; [exact Hin|].
  apply (X4_tokens_are_terms "The quick Fox, and the dog" "fox" Hin).
Defined.

(** X5: a term is its own normal form: tokenizing it gives the term itself
    and nothing else, so every token of a text can be typed as a query
    word as it is. *)
Theorem X5_term_tokenizes_to_itself (w : string) :
  is_term w → tokenize w = [w].
Proof. apply TokenFacts.tokenize_term. Qed.

Lemma X5_witness : is_term "gamma" ∧ tokenize "gamma" = ["gamma"].
Proof.
  assert (is_term "gamma") as Hterm.
  { split; [discriminate|]. split.
    - repeat constructor.
    - intros Hin%list_elem_of_In. vm_compute in Hin.
      repeat (destruct Hin as [Hin|Hin]; [discriminate Hin|]). exact Hin. }
  split; [exact Hterm|].
  apply (X5_term_tokenizes_to_itself "gamma" Hterm).
Defined.

(** X6: [search] does not look at the case of the query: the query in
    lower case gives the same result and the same engine, whatever the
    engine. *)
Theorem X6_search_ignores_case {F : Type} `{ScoreNum F}
    (query : string) (e : SearchEngine) :
  search (lower query) e = search query e.
Proof.
  unfold search, tokenize. by rewrite TokenFacts.lower_idem.
Qed.

(** ** More on the crawl and the index *)

Module BuildMore.
Lemma occurs_page pgs t :
  NoDup (PyDict.keys pgs) → occurs pgs t →
  ∃ f d, PyDict.get pgs f = Some d ∧ t ∈ words d.
Proof.
  intros Hnd (f & d & Hin & Ht). exists f, d. split; [|done].
  by apply PyDictFacts.elem_of_get.
Qed.

Lemma crawled_words dir c f p :
  crawl dir WebCrawler_init = Some (Ok c) →
  PyDict.get (pages c) f = Some p →
  ∃ html, read_file dir f = Some html ∧
          soup_title (parse dir html) ≠ Some None ∧
          title p = match soup_title (parse dir html) with
                    | Some (Some s) => s
                    | _ => f
                    end ∧
          words p = tokenize (soup_text (parse dir html)) ∧
          default [] (PyDict.get (links c) f) =
            filter (λ href, endswith href ".html" = true)
                   (soup_hrefs (parse dir html)).
Proof.
  intros Hcrawl Hget.
  pose proof (ServingFacts.crawl_pages dir c f Hcrawl) as Hpg.
  pose proof (ServingFacts.crawl_links dir c f Hcrawl) as Hlk.
  rewrite Hget in Hpg.
  destruct (decide (f ∈ enumerate dir)); [|done].
  unfold page_of in Hpg. unfold links_of in Hlk.
  destruct (read_file dir f) as [html|]; [|done].
  exists html. split; [done|]. unfold extract in *.
  destruct (soup_title (parse dir html)) as [[s|]|]; [|done|];
    injection Hpg as ->; by rewrite Hlk.
Qed.

Lemma defaultdict_incr_positive m k :
  no_zero_entry m → no_zero_entry (defaultdict_incr m k).
Proof.
  intros Hm d n. unfold defaultdict_incr, defaultdict_getitem.
  destruct (m !! k) as [v|] eqn:Hk; rewrite lookup_insert;
    destruct (decide (k = d)) as [->|Hne].
  - intros [= <-]. lia.
  - apply Hm.
  - intros [= <-]. lia.
  - rewrite lookup_insert_ne by done. apply Hm.
Qed.

Lemma count_incoming_positive lks : ∀ m,
  no_zero_entry m → no_zero_entry (count_incoming lks m).
Proof.
  unfold count_incoming, PyDict.items.
  induction lks as [|[src outs] lks IH]; intros m Hm; simpl; [done|].
  apply IH. clear IH. revert m Hm.
  induction outs as [|o outs IH]; intros m Hm; simpl; [done|].
  apply IH. by apply defaultdict_incr_positive.
Qed.

Lemma positive_lookup m d :
  no_zero_entry m → m !! d = nonzero (default 0 (m !! d)).
Proof.
  intros Hm. destruct (m !! d) as [n|] eqn:Hd.
  - pose proof (Hm d n Hd). change (default 0 (Some n)) with n.
    unfold nonzero. destruct (decide (n = 0)); [lia|done].
  - done.
Qed.

(** The two ways in which [build_index] raises, on examples. *)
Example ex_missing_raises :
  build_index ex_dir_missing (SearchEngine_init "tf-idf")
  = Some (Raise OSError).
Proof. vm_compute. reflexivity. Qed.

Example ex_untitled_raises :
  bad_title ex_dir_untitled "e.html" ∧
  build_index ex_dir_untitled (SearchEngine_init "tf-idf")
  = Some (Raise AttributeError).
Proof.
  split; [|vm_compute; reflexivity].
  exists "E". split; vm_compute; reflexivity.
Qed.
End BuildMore.

(** X7: what a [crawl] that returns records for a page is what [extract]
    makes of the file: the title of the document, or the file name when it
    has no title element (a title element without a string makes [extract]
    raise, so no such page is recorded); the tokens of its text; and, as its
    link list, every [href] that ends in ".html", in document order and with
    repetitions. *)
Theorem X7_crawl_records_extraction
    (dir : Directory) (c : WebCrawler) (f : string) (p : Page) :
  crawl dir WebCrawler_init = Some (Ok c) → PyDict.get (pages c) f = Some p →
  ∃ html,
    read_file dir f = Some html ∧
    soup_title (parse dir html) ≠ Some None ∧
    title p = match soup_title (parse dir html) with
              | Some (Some s) => s
              | _ => f
              end ∧
    words p = tokenize (soup_text (parse dir html)) ∧
    default [] (PyDict.get (links c) f) =
      filter (λ href, endswith href ".html" = true)
             (soup_hrefs (parse dir html)).
Proof. apply BuildMore.crawled_words. Qed.

Lemma X7_witness :
  crawl ex_dir WebCrawler_init = Some (Ok (crawler ex_engine)) ∧
  PyDict.get (pages (crawler ex_engine)) "b.html"
    = Some {| title := "b.html"; words := ["beta"; "search"] |} ∧
  ∃ html,
    read_file ex_dir "b.html" = Some html ∧
    soup_title (parse ex_dir html) ≠ Some None ∧
    title {| title := "b.html"; words := ["beta"; "search"] |}
      = match soup_title (parse ex_dir html) with
        | Some (Some s) => s
        | _ => "b.html"
        end ∧
    words {| title := "b.html"; words := ["beta"; "search"] |}
      = tokenize (soup_text (parse ex_dir html)) ∧
    default [] (PyDict.get (links (crawler ex_engine)) "b.html") =
      filter (λ href, endswith href ".html" = true)
             (soup_hrefs (parse ex_dir html)).
Proof.
  assert (crawl ex_dir WebCrawler_init = Some (Ok (crawler ex_engine)))
    as Hcrawl by (vm_compute; reflexivity).
  assert (PyDict.get (pages (crawler ex_engine)) "b.html"
          = Some {| title := "b.html"; words := ["beta"; "search"] |}) as Hget
    by (vm_compute; reflexivity).
  split; [exact Hcrawl|]. split; [exact Hget|].
  apply (X7_crawl_records_extraction ex_dir (crawler ex_engine) "b.html" _
           Hcrawl Hget).
Defined.

(** X8: the trie of an engine that answers queries finds terms only: a
    string it has a position for is not empty, is made of the letters a to
    z, and is no stop word. *)
Theorem X8_indexed_words_are_terms {F : Type} `{ScoreNum F}
    (dir : Directory) (mode : string) (e : SearchEngine) (t : string) :
  serving dir mode e → is_Some (Trie.search (trie e) t) → is_term t.
Proof.
  intros [Hcrawl Hix]%ServingFacts.serving_Indexed Hsome.
  apply (BuildFacts.Indexed_known _ _ _ _ Hix) in Hsome.
  apply BuildMore.occurs_page in Hsome as (f & d & Hget & Ht);
    [|apply (ixd_pages _ _ _ Hix)].
  destruct (BuildMore.crawled_words _ _ _ _ Hcrawl Hget)
    as (html & _ & _ & _ & Hwords & _).
  rewrite Hwords in Ht. by eapply TokenFacts.tokenize_terms.
Qed.

Lemma X8_witness :
  serving (F:=R) ex_dir "tf-idf" ex_engine ∧
  is_Some (Trie.search (trie ex_engine) "gamma") ∧ is_term "gamma".
Proof.
  assert (is_Some (Trie.search (trie ex_engine) "gamma")) as Hsome.
  { exists 3. vm_compute. reflexivity. }
  split; [apply ServingFacts.ex_serving|]. split; [exact Hsome|].
  apply (X8_indexed_words_are_terms (F:=R) ex_dir "tf-idf" ex_engine "gamma");
    [apply ServingFacts.ex_serving|exact Hsome].
Defined.

(** X9: the length table has an entry for a document exactly when the
    document is a crawled page, and the entry is the number of words of the
    page, repetitions counted. *)
Theorem X9_document_lengths {F : Type} `{ScoreNum F}
    (dir : Directory) (mode : string) (e : SearchEngine) (D : string) :
  serving dir mode e →
  document_lengths e !! D =
  (λ p, length (words p)) <$> PyDict.get (pages (crawler e)) D.
Proof.
  intros [_ Hix]%ServingFacts.serving_Indexed. apply (ixd_lengths _ _ _ Hix).
Qed.

Lemma X9_witness :
  serving (F:=R) ex_dir "tf-idf" ex_engine ∧
  document_lengths ex_engine !! "a.html" =
  (λ p, length (words p)) <$> PyDict.get (pages (crawler ex_engine)) "a.html".
Proof.
  split; [apply ServingFacts.ex_serving|].
  apply (X9_document_lengths (F:=R) ex_dir "tf-idf" ex_engine "a.html").
  apply ServingFacts.ex_serving.
Defined.


(** ** The order of the terms *)

Module FirstSeen.
Lemma elem_of_fold_add_new l : ∀ acc x,
  x ∈ fold_left add_new l acc ↔ x ∈ acc ∨ x ∈ l.
Proof.
  induction l as [|w l IH]; intros acc x; simpl.
  - rewrite elem_of_nil. tauto.
  - rewrite IH, elem_of_cons. unfold add_new.
    destruct (decide (w ∈ acc)) as [Hw|Hw].
    + split; [tauto|]. intros [?|[->|?]]; tauto.
    + rewrite elem_of_app, list_elem_of_singleton. tauto.
Qed.

Lemma fold_add_new_absorb ws : ∀ pre acc,
  fold_left add_new (fold_left add_new ws pre) acc
  = fold_left add_new ws (fold_left add_new pre acc).
Proof.
  induction ws as [|w ws IH]; intros pre acc; simpl; [done|].
  rewrite IH. f_equal. unfold add_new at 2.
  destruct (decide (w ∈ pre)) as [Hw|Hw].
  - unfold add_new at 2. rewrite decide_True; [done|].
    apply elem_of_fold_add_new. by right.
  - by rewrite fold_left_app.
Qed.

Lemma fold_add_new_first l : ∀ acc,
  fold_left add_new l acc
  = acc ++ filter (λ x, x ∉ acc) (first_occurrences l).
Proof.
  induction l as [|w l IH]; intros acc; simpl.
  - by rewrite filter_nil, app_nil_r.
  - rewrite IH. unfold add_new. rewrite filter_cons.
    destruct (decide (w ∈ acc)) as [Hw|Hw].
    + rewrite decide_False by tauto. f_equal.
      rewrite list_filter_filter. apply list_filter_iff.
      intros x. split; [|tauto]. intros Hx. split; [done|]. by intros ->.
    + rewrite decide_True by done. rewrite <-app_assoc. simpl. do 2 f_equal.
      rewrite list_filter_filter. apply list_filter_iff.
      intros x. rewrite elem_of_app, list_elem_of_singleton. tauto.
Qed.

Lemma first_occurrences_fold l :
  fold_left add_new l [] = first_occurrences l.
Proof.
  rewrite fold_add_new_first. simpl.
  induction (first_occurrences l) as [|x k IH]; [done|].
  rewrite filter_cons, decide_True by apply not_elem_of_nil. by f_equal.
Qed.

Lemma keys_set (d : list (string * nat)) k v :
  PyDict.keys (PyDict.set d k v) = add_new (PyDict.keys d) k.
Proof.
  unfold add_new. destruct (decide (k ∈ PyDict.keys d)) as [Hk|Hk].
  - by apply PyDictFacts.keys_set_present, PyDictFacts.get_is_Some.
  - by apply PyDictFacts.keys_set_fresh, PyDictFacts.get_None.
Qed.

Lemma keys_count_words ws : ∀ c,
  PyDict.keys (fold_left count_word ws c)
  = fold_left add_new ws (PyDict.keys c).
Proof.
  induction ws as [|w ws IH]; intros c; simpl; [done|].
  rewrite IH. f_equal. apply keys_set.
Qed.

Lemma keys_Counter ws : PyDict.keys (Counter ws) = first_occurrences ws.
Proof.
  unfold Counter. rewrite keys_count_words. apply first_occurrences_fold.
Qed.

Lemma index_word_keys file ix wf ix' :
  index_word file ix wf = Ok ix' →
  PyDict.keys (ix_word_to_index ix')
  = add_new (PyDict.keys (ix_word_to_index ix)) wf.1.
Proof.
  destruct wf as [word n]. unfold index_word, add_new. simpl.
  destruct (PyDict.mem (ix_word_to_index ix) word) eqn:Hmem.
  - apply PyDictFacts.mem_true, PyDictFacts.get_is_Some in Hmem.
    rewrite decide_True by done.
    destruct (PyDict.get _ _); [|done].
    destruct (_ !! _); [|done]. by intros [= <-].
  - assert (word ∉ PyDict.keys (ix_word_to_index ix)) as Hk.
    { rewrite <-PyDictFacts.get_is_Some, <-PyDictFacts.mem_true.
      by rewrite Hmem. }
    rewrite decide_False by done. simpl.
    destruct (PyDict.get _ _); [|done].
    destruct (_ !! _); [|done]. intros [= <-]. simpl.
    by apply PyDictFacts.keys_set_fresh, PyDictFacts.get_None.
Qed.

Lemma index_words_keys file cs : ∀ ix ix',
  res_for (index_word file) cs ix = Ok ix' →
  PyDict.keys (ix_word_to_index ix')
  = fold_left add_new cs.*1 (PyDict.keys (ix_word_to_index ix)).
Proof.
  induction cs as [|wf cs IH]; intros ix ix'; simpl.
  - by intros [= <-].
  - destruct (index_word file ix wf) as [ix1|x] eqn:Hw; [|done].
    intros Hrun. rewrite (IH _ _ Hrun). f_equal.
    exact (index_word_keys _ _ _ _ Hw).
Qed.

Lemma index_page_keys ix entry ix' :
  index_page ix entry = Ok ix' →
  PyDict.keys (ix_word_to_index ix')
  = fold_left add_new (words entry.2) (PyDict.keys (ix_word_to_index ix)).
Proof.
  destruct entry as [file data]. unfold index_page, PyDict.items.
  intros Hrun%index_words_keys. rewrite Hrun. simpl.
  change ((Counter (words data)).*1) with (PyDict.keys (Counter (words data))).
  unfold Counter. rewrite keys_count_words. simpl.
  by rewrite fold_add_new_absorb.
Qed.

Lemma index_pages_keys pgs : ∀ ix ix',
  res_for index_page pgs ix = Ok ix' →
  PyDict.keys (ix_word_to_index ix')
  = fold_left add_new (all_words pgs) (PyDict.keys (ix_word_to_index ix)).
Proof.
  unfold all_words.
  induction pgs as [|entry pgs IH]; intros ix ix'; simpl.
  - by intros [= <-].
  - destruct (index_page ix entry) as [ix1|x] eqn:Hp; [|done].
    intros Hrun. rewrite (IH _ _ Hrun), fold_left_app. f_equal.
    exact (index_page_keys _ _ _ Hp).
Qed.

Lemma build_index_keys dir mode e :
  build_index dir (SearchEngine_init mode) = Some (Ok e) →
  PyDict.keys (word_to_index e)
  = first_occurrences (all_words (pages (crawler e))).
Proof.
  unfold build_index. simpl.
  destruct (crawl dir WebCrawler_init) as [[c|x]|]; [|done|done].
  unfold PyDict.items.
  destruct (res_for index_page (pages c) _) as [ix|x] eqn:Hrun; [|done].
  intros [= <-]. simpl. rewrite (index_pages_keys _ _ _ Hrun). simpl.
  apply first_occurrences_fold.
Qed.

Lemma serving_keys {F : Type} `{ScoreNum F} dir mode e :
  serving dir mode e →
  PyDict.keys (word_to_index e)
  = first_occurrences (all_words (pages (crawler e))).
Proof.
  induction 1 as [e Hbuild|e query Hs IH].
  - by eapply build_index_keys.
  - by rewrite (ServingFacts.serving_search_run _ _ _ query Hs).
Qed.

Lemma get_position (d : list (string * nat)) : ∀ n,
  NoDup (PyDict.keys d) → PyDict.values d = seq n (length d) →
  ∀ t j, PyDict.get d t = Some j ↔
         ∃ i, j = n + i ∧ PyDict.keys d !! i = Some t.
Proof.
  unfold PyDict.keys, PyDict.values.
  induction d as [|[k v] d IH]; intros n Hnd Hv t j; simpl in *.
  - split; [done|]. by intros (i & _ & ?).
  - apply NoDup_cons in Hnd as [Hk Hnd]. injection Hv as -> Hv.
    destruct (decide (k = t)) as [->|Hne].
    + split.
      * intros [= <-]. exists 0. split; [lia|done].
      * intros ([|i] & -> & Hi); [f_equal; lia|]. simpl in Hi.
        destruct Hk. by eapply list_elem_of_lookup_2.
    + rewrite (IH (S n) Hnd Hv). split.
      * intros (i & -> & Hi). exists (S i). split; [lia|done].
      * intros ([|i] & -> & Hi); simpl in Hi; [congruence|].
        exists i. split; [lia|done].
Qed.
End FirstSeen.

(** X11: the terms get their positions in the order in which they are
    first met when the pages are read in the order of [pages], each page
    word by word: the terms of [word_to_index], in order, are the distinct
    words of the pages in order of first occurrence; their positions are 0,
    1, 2, ...; so the trie finds position [i] for exactly the [i]-th word
    first met.  There are as many posting lists as terms, and no term
    appears twice. *)
Theorem X11_positions_follow_first_occurrence {F : Type} `{ScoreNum F}
    (dir : Directory) (mode : string) (e : SearchEngine) :
  serving dir mode e →
  PyDict.keys (word_to_index e)
    = first_occurrences (all_words (pages (crawler e))) ∧
  PyDict.values (word_to_index e) = seq 0 (length (inverted_index e)) ∧
  (∀ t i, Trie.search (trie e) t = Some i ↔
          first_occurrences (all_words (pages (crawler e))) !! i = Some t) ∧
  NoDup (PyDict.keys (word_to_index e)) ∧
  length (word_to_index e) = length (inverted_index e) ∧
  ∀ t, t ∈ PyDict.keys (word_to_index e) ↔ occurs (pages (crawler e)) t.
Proof.
  intros Hs. pose proof (FirstSeen.serving_keys _ _ _ Hs) as Hkeys.
  pose proof (ServingFacts.serving_Indexed _ _ _ Hs) as [_ Hix].
  pose proof (ixd_index _ _ _ Hix) as [Hnd Hv Hk _]. simpl in *.
  assert (length (word_to_index e) = length (inverted_index e)) as Hlen.
  { rewrite <-(length_fmap snd (word_to_index e)).
    unfold PyDict.values in Hv. by rewrite Hv, length_seq. }
  split; [done|]. split; [done|]. split; [|split; [done|split; [done|]]].
  - intros t i. rewrite (ixd_trie _ _ _ Hix), <-Hkeys.
    rewrite (FirstSeen.get_position _ 0 Hnd) by (by rewrite Hlen).
    split; [by intros (? & -> & ?)|]. intros Hi. by exists i.
  - intros t. rewrite <-PyDictFacts.get_is_Some. apply Hk.
Qed.

Lemma X11_witness :
  serving (F:=R) ex_dir "tf-idf" ex_engine ∧
  (PyDict.keys (word_to_index ex_engine)
     = first_occurrences (all_words (pages (crawler ex_engine))) ∧
   PyDict.values (word_to_index ex_engine)
     = seq 0 (length (inverted_index ex_engine)) ∧
   (∀ t i, Trie.search (trie ex_engine) t = Some i ↔
           first_occurrences (all_words (pages (crawler ex_engine))) !! i
           = Some t) ∧
   NoDup (PyDict.keys (word_to_index ex_engine)) ∧
   length (word_to_index ex_engine) = length (inverted_index ex_engine) ∧
   ∀ t, t ∈ PyDict.keys (word_to_index ex_engine)
        ↔ occurs (pages (crawler ex_engine)) t).
Proof.
  split; [apply ServingFacts.ex_serving|].
  apply (X11_positions_follow_first_occurrence (F:=R) ex_dir "tf-idf"
           ex_engine).
  apply ServingFacts.ex_serving.
Defined.

(** X12: every entry of every posting list is real: the position is that
    of a term, the document is a crawled page, and the number stored is the
    number of occurrences of the term in the page, which is at least 1. *)
Theorem X12_posting_entries {F : Type} `{ScoreNum F}
    (dir : Directory) (mode : string) (e : SearchEngine)
    (idx : nat) (occ : gmap string nat) (D : string) (n : nat) :
  serving dir mode e →
  inverted_index e !! idx = Some occ → occ !! D = Some n →
  ∃ t, Trie.search (trie e) t = Some idx ∧
       n = freq (pages (crawler e)) t D ∧ 1 ≤ n ∧
       is_Some (PyDict.get (pages (crawler e)) D).
Proof.
  intros [_ Hix]%ServingFacts.serving_Indexed Hocc HD.
  destruct (BuildFacts.Indexed_position_onto _ _ _ idx Hix) as [t Ht].
  { by eapply lookup_lt_Some. }
  exists t. split; [done|].
  rewrite (BuildFacts.Indexed_posting _ _ _ _ _ Hix Ht) in Hocc.
  injection Hocc as <-. rewrite BuildFacts.posting_lookup_freq in HD.
  unfold nonzero in HD.
  destruct (decide (freq (pages (crawler e)) t D = 0)); [done|].
  injection HD as <-. split; [done|]. split; [lia|].
  apply PyDictFacts.get_is_Some, (SearchFacts.freq_pos_key _ t). lia.
Qed.

Lemma X12_witness :
  serving (F:=R) ex_dir "tf-idf" ex_engine ∧
  inverted_index ex_engine !! 1%nat
    = Some (default ∅ (inverted_index ex_engine !! 1%nat)) ∧
  default ∅ (inverted_index ex_engine !! 1%nat) !! "a.html" = Some 2 ∧
  ∃ t, Trie.search (trie ex_engine) t = Some 1 ∧
       2 = freq (pages (crawler ex_engine)) t "a.html" ∧ 1 ≤ 2 ∧
       is_Some (PyDict.get (pages (crawler ex_engine)) "a.html").
Proof.
  assert (inverted_index ex_engine !! 1%nat
          = Some (default ∅ (inverted_index ex_engine !! 1%nat))) as Hocc
    by (vm_compute; reflexivity).
  assert (default ∅ (inverted_index ex_engine !! 1%nat) !! "a.html" = Some 2)
    as HD by (vm_compute; reflexivity).
  split; [apply ServingFacts.ex_serving|]. split; [exact Hocc|].
  split; [exact HD|].
  apply (X12_posting_entries (F:=R) ex_dir "tf-idf" ex_engine 1 _ "a.html" 2
           ServingFacts.ex_serving Hocc HD).
Defined.

(** X13: right after [build_index], before any search, the inbound-link
    table has an entry exactly for the documents that at least one
    recorded link points to, and the entry is the number of those links. *)
Theorem X13_incoming_links_after_build
    (dir : Directory) (mode : string) (e : SearchEngine) (d : string) :
  build_index dir (SearchEngine_init mode) = Some (Ok e) →
  incoming_links e !! d = nonzero (edge_count (links (crawler e)) d).
Proof.
  intros Hbuild.
  assert (no_zero_entry (incoming_links e)) as Hpos.
  { unfold build_index in Hbuild. simpl in Hbuild.
    destruct (crawl dir WebCrawler_init) as [[c|x]|]; [|done|done].
    destruct (res_for index_page _ _) as [ix|]; [|done].
    injection Hbuild as <-. simpl.
    apply BuildMore.count_incoming_positive.
    intros d' n. by rewrite lookup_empty. }
  rewrite (BuildMore.positive_lookup _ d Hpos). f_equal.
  destruct (BuildFacts.build_index_Ok dir mode e Hbuild) as [_ Hix].
  by rewrite (ixd_incoming _ _ _ Hix).
Qed.

Lemma X13_witness :
  build_index ex_dir (SearchEngine_init "tf-idf") = Some (Ok ex_engine) ∧
  incoming_links ex_engine !! "c.html"
  = nonzero (edge_count (links (crawler ex_engine)) "c.html").
Proof.
  split; [apply ServingFacts.ex_built|].
  apply (X13_incoming_links_after_build ex_dir "tf-idf" ex_engine "c.html").
  apply ServingFacts.ex_built.
Defined.

(** ** More on [search] *)

Module SearchMore.
Lemma ex_simple_built :
  build_index ex_dir (SearchEngine_init "simple") = Some (Ok ex_engine_simple).
Proof. vm_compute. reflexivity. Qed.

Lemma ex_simple_serving {F : Type} `{ScoreNum F} :
  serving ex_dir "simple" ex_engine_simple.
Proof. apply serving_built, ex_simple_built. Qed.

Lemma ranking_docs {F : Type} `{ScoreNum F} mode c terms :
  (ranking (F:=F) mode c terms).*1 ≡ₚ elements (candidates (pages c) terms).
Proof.
  unfold ranking. rewrite SearchFacts.sorted_desc_perm.
  rewrite <-list_fmap_compose. simpl. by rewrite list_fmap_id.
Qed.

Lemma crawler_touch docs e : crawler (touch docs e) = crawler e.
Proof. done. Qed.

Lemma candidates_mono pgs terms terms' :
  terms ≠ [] → (∀ t, t ∈ terms → t ∈ terms') →
  candidates pgs terms' ⊆ candidates pgs terms.
Proof.
  intros Hne Hsub D. rewrite !SearchFacts.elem_of_candidates.
  intros [_ Hall]. split; [done|]. intros t Ht. by apply Hall, Hsub.
Qed.

Lemma search_fresh {F : Type} `{ScoreNum F} mode query :
  search query (SearchEngine_init mode) = (Ok [], SearchEngine_init mode).
Proof.
  unfold search. destruct (tokenize query) as [|t terms]; [done|].
  rewrite (SearchFacts.bind_run _ _ _ (SearchEngine_init mode)
             (SearchEngine_init mode)) by done.
  erewrite (SearchFacts.bind_run (lift _));
    [|unfold lift; cbn [collect_doc_sets trie SearchEngine_init];
      by rewrite TrieFacts.search_new].
  done.
Qed.

Lemma insert_desc_head {F : Type} `{ScoreNum F} (x : string * F) l :
  Forall (λ y, flt x.2 y.2 = false) l → insert_desc x l = x :: l.
Proof.
  destruct l as [|y l]; [done|]. intros [Hy _]%Forall_cons. simpl.
  by rewrite Hy.
Qed.

Lemma sorted_desc_fixed {F : Type} `{ScoreNum F} (l : list (string * F)) :
  descending l → sorted_desc l = l.
Proof.
  unfold descending. induction 1 as [|x l Hs IH Hx]; simpl; [done|].
  rewrite IH. by apply insert_desc_head.
Qed.

Lemma edge_count_ge lks f outs d :
  PyDict.get lks f = Some outs →
  length (filter (λ dest, dest = d) outs) ≤ edge_count lks d.
Proof.
  unfold edge_count, PyDict.values.
  induction lks as [|[k v] lks IH]; csimpl; [done|].
  rewrite filter_app, length_app.
  destruct (decide (k = f)) as [->|Hne].
  - intros [= ->]. lia.
  - intros Hg. specialize (IH Hg). lia.
Qed.

Lemma result_lines_ok {F : Type} `{ScoreNum F} e (results : list (string * F)) :
  (∀ D, D ∈ results.*1 → is_Some (PyDict.get (pages (crawler e)) D)) →
  ∃ lines,
    result_lines e results = Ok lines ∧
    lines.*1.*2 = results.*1 ∧ lines.*2 = results.*2 ∧
    ∀ ti D s, (ti, D, s) ∈ lines →
      ∃ p, PyDict.get (pages (crawler e)) D = Some p ∧ ti = title p.
Proof.
  induction results as [|[D s] results IH]; intros Hall.
  - exists []. split; [done|]. split; [done|]. split; [done|].
    intros ti D s Hin. by apply elem_of_nil in Hin.
  - destruct (Hall D) as [p Hp]; [csimpl; apply elem_of_cons; by left|].
    destruct IH as (lines & Hrun & Hd & Hs & Ht).
    { intros D' HD'. apply Hall. csimpl. apply elem_of_cons. by right. }
    exists ((title p, D, s) :: lines). cbn [result_lines]. rewrite Hp, Hrun.
    split; [done|]. rewrite !fmap_cons, Hd, Hs.
    split; [done|]. split; [done|].
    intros ti D' s' [Heq|Hin]%elem_of_cons.
    + injection Heq as -> -> ->. by exists p.
    + by eapply Ht.
Qed.

(** The frequency ranking of the small collection for "search". *)
Lemma ex_simple_total D n m :
  freq (pages (crawler ex_engine_simple)) "search" D = n →
  edge_count (links (crawler ex_engine_simple)) D = m →
  total_score (F:=R) "simple" (crawler ex_engine_simple) ["search"] D
  = (0 + INR n + 1 / 10 * INR m)%R.
Proof.
  intros Hn Hm. unfold total_score, term_score.
  cbn [fold_left String.eqb Ascii.eqb Bool.eqb].
  by rewrite Hn, Hm.
Qed.

Lemma ex_simple_search :
  (search (F:=R) "search" ex_engine_simple).1
  = Ok [("a.html", (0 + 2 + 1 / 10 * 2)%R);
        ("b.html", (0 + 1 + 1 / 10 * 1)%R);
        ("c.html", (0 + 1 + 1 / 10 * 0)%R)].
Proof.
  rewrite (ServingFacts.serving_search_run ex_dir "simple" ex_engine_simple
             "search" ex_simple_serving).
  cbn [fst]. f_equal. unfold ranking.
  assert (elements (candidates (pages (crawler ex_engine_simple))
                               (tokenize "search"))
          = ["c.html"; "a.html"; "b.html"]) as -> by (vm_compute; reflexivity).
  change (tokenize "search") with ["search"].
  cbn [fmap list_fmap].
  rewrite (ex_simple_total "c.html" 1 0)
    by (vm_compute; reflexivity).
  rewrite (ex_simple_total "a.html" 2 2)
    by (vm_compute; reflexivity).
  rewrite (ex_simple_total "b.html" 1 1)
    by (vm_compute; reflexivity).
  cbn [INR]. replace (1 + 1)%R with 2%R by lra.
  unfold sorted_desc. cbn [foldr insert_desc fst snd flt R_ScoreNum].
  repeat (unfold R_lt at 1; destruct (Rlt_dec _ _); try lra;
          cbn [insert_desc fst snd flt R_ScoreNum]).
  reflexivity.
Qed.
End SearchMore.

(** X14: in "simple" mode every candidate document (a document containing
    every query term) comes once in the result of [search]; the score
    returned with a document is the sum of the raw frequencies of the query
    terms in it, added up in query order, plus [0.1] times its inbound-link
    count; and the rows come in descending order of that score.  Nothing is
    said about the order of documents with equal scores, which in the code
    is the order in which a Python set is iterated. *)
Theorem X14_simple_total_score {F : Type} `{ScoreNum F}
    (dir : Directory) (e : SearchEngine) (query : string) :
  serving dir "simple" e →
  ∃ res,
    (search query e).1 = Ok res ∧
    res.*1 ≡ₚ elements (candidates (pages (crawler e)) (tokenize query)) ∧
    descending res ∧
    ∀ D s, (D, s) ∈ res →
      s = fadd (fold_left
                  (λ sum t,
                     fadd sum (of_nat (freq (pages (crawler e)) t D)))
                  (tokenize query) (of_nat 0))
               (fmul tenth (of_nat (default 0 (incoming_links e !! D)))).
Proof.
  intros Hs. pose proof (ServingFacts.serving_Indexed _ _ _ Hs) as [_ Hix].
  rewrite (ServingFacts.serving_search_run _ _ _ _ Hs). cbn [fst].
  eexists. split; [done|]. split; [apply SearchMore.ranking_docs|].
  unfold ranking. split; [apply SearchFacts.sorted_desc_descending|].
  intros D s. rewrite SearchFacts.sorted_desc_perm.
  intros (D' & [= <- ->] & _)%list_elem_of_fmap.
  unfold total_score, term_score. simpl.
  by rewrite (ixd_incoming _ _ _ Hix).
Qed.

Lemma X14_witness :
  serving (F:=R) ex_dir "simple" ex_engine_simple ∧
  ∃ res,
    (search (F:=R) "search" ex_engine_simple).1 = Ok res ∧
    res.*1 ≡ₚ elements (candidates (pages (crawler ex_engine_simple))
                                   (tokenize "search")) ∧
    descending res ∧
    ∀ D s, (D, s) ∈ res →
      s = fadd (fold_left
                  (λ sum t,
                     fadd sum
                       (of_nat (freq (pages (crawler ex_engine_simple)) t D)))
                  (tokenize "search") (of_nat 0))
               (fmul tenth
                  (of_nat (default 0 (incoming_links ex_engine_simple !! D)))).
Proof.
  split; [apply SearchMore.ex_simple_serving|].
  apply (X14_simple_total_score ex_dir ex_engine_simple "search").
  apply SearchMore.ex_simple_serving.
Defined.

(** X15: no document comes twice in a result, and the result has as many
    rows as there are documents containing every query term. *)
Theorem X15_results_are_distinct {F : Type} `{ScoreNum F}
    (dir : Directory) (mode : string) (e : SearchEngine) (query : string) :
  serving dir mode e →
  ∃ res,
    (search query e).1 = Ok res ∧
    NoDup res.*1 ∧
    length res = size (candidates (pages (crawler e)) (tokenize query)).
Proof.
  intros Hs. rewrite (ServingFacts.serving_search_run _ _ _ _ Hs). cbn [fst].
  eexists. split; [done|].
  pose proof (SearchMore.ranking_docs (F:=F) mode (crawler e) (tokenize query))
    as Hperm.
  split.
  - rewrite Hperm. apply NoDup_elements.
  - rewrite <-(length_fmap fst), Hperm. done.
Qed.

Lemma X15_witness :
  serving (F:=R) ex_dir "tf-idf" ex_engine ∧
  ∃ res,
    (search (F:=R) "search" ex_engine).1 = Ok res ∧
    NoDup res.*1 ∧
    length res = size (candidates (pages (crawler ex_engine))
                                  (tokenize "search")).
Proof.
  split; [apply ServingFacts.ex_serving|].
  apply (X15_results_are_distinct ex_dir "tf-idf" ex_engine "search").
  apply ServingFacts.ex_serving.
Defined.

(** X16: the result of a query does not depend on the queries answered
    before it: after any other search the engine returns what it would
    have returned at once. *)
Theorem X16_result_independent_of_history {F : Type} `{ScoreNum F}
    (dir : Directory) (mode : string) (e : SearchEngine)
    (earlier query : string) :
  serving dir mode e →
  (search query (search earlier e).2).1 = (search query e).1.
Proof.
  intros Hs.
  rewrite (ServingFacts.serving_search_run _ _ _ _
             (serving_search _ _ _ earlier Hs)).
  rewrite !(ServingFacts.serving_search_run _ _ _ _ Hs). done.
Qed.

Lemma X16_witness :
  serving (F:=R) ex_dir "tf-idf" ex_engine ∧
  (search (F:=R) "search" (search (F:=R) "gamma" ex_engine).2).1
  = (search (F:=R) "search" ex_engine).1.
Proof.
  split; [apply ServingFacts.ex_serving|].
  apply (X16_result_independent_of_history ex_dir "tf-idf" ex_engine
           "gamma" "search").
  apply ServingFacts.ex_serving.
Defined.

(** X17: asking the same query again changes nothing any more: the second
    search returns the same result and leaves the engine exactly as the
    first one left it. *)
Theorem X17_repeated_query {F : Type} `{ScoreNum F}
    (dir : Directory) (mode : string) (e : SearchEngine) (query : string) :
  serving dir mode e →
  search query (search query e).2 = search query e.
Proof.
  intros Hs.
  rewrite (ServingFacts.serving_search_run _ _ _ _
             (serving_search _ _ _ query Hs)).
  rewrite !(ServingFacts.serving_search_run _ _ _ _ Hs). cbn [snd].
  rewrite SearchMore.crawler_touch, SearchFacts.touch_touch.
  by rewrite (idemp_L (∪)).
Qed.

Lemma X17_witness :
  serving (F:=R) ex_dir "tf-idf" ex_engine ∧
  search (F:=R) "gamma" (search (F:=R) "gamma" ex_engine).2
  = search (F:=R) "gamma" ex_engine.
Proof.
  split; [apply ServingFacts.ex_serving|].
  apply (X17_repeated_query ex_dir "tf-idf" ex_engine "gamma").
  apply ServingFacts.ex_serving.
Defined.

(** X18: a search that returns nothing leaves the engine exactly as it
    was, the inbound-link table included. *)
Theorem X18_empty_result_changes_nothing {F : Type} `{ScoreNum F}
    (dir : Directory) (mode : string) (e : SearchEngine) (query : string) :
  serving dir mode e →
  (search query e).1 = Ok [] → (search query e).2 = e.
Proof.
  intros Hs. rewrite (ServingFacts.serving_search_run _ _ _ _ Hs).
  cbn [fst snd]. intros [= Hnil].
  unfold ranking in Hnil. apply (proj1 (SearchFacts.sorted_desc_nil _)) in Hnil.
  apply fmap_nil_inv, elements_empty_inv, leibniz_equiv in Hnil.
  rewrite Hnil. apply SearchFacts.touch_empty.
Qed.

Lemma X18_witness :
  serving (F:=R) ex_dir "tf-idf" ex_engine ∧
  (search (F:=R) "the and of" ex_engine).1 = Ok [] ∧
  (search (F:=R) "the and of" ex_engine).2 = ex_engine.
Proof.
  split; [apply ServingFacts.ex_serving|]. split; [reflexivity|].
  apply (X18_empty_result_changes_nothing ex_dir "tf-idf" ex_engine
           "the and of");
    [apply ServingFacts.ex_serving|reflexivity].
Defined.

(** X19: on an engine whose index was never built, every query returns
    the empty list, without raising and without changing the engine. *)
Theorem X19_search_before_build {F : Type} `{ScoreNum F}
    (mode query : string) :
  search query (SearchEngine_init mode) = (Ok [], SearchEngine_init mode).
Proof. apply SearchMore.search_fresh. Qed.

(** X20: a query with more terms returns fewer documents: if every term
    of a non-empty query is also a term of a second query, each document
    returned for the second is returned for the first. *)
Theorem X20_more_terms_fewer_results {F : Type} `{ScoreNum F}
    (dir : Directory) (mode : string) (e : SearchEngine)
    (query query' : string) (res res' : list (string * F)) :
  serving dir mode e →
  tokenize query ≠ [] →
  (∀ t, t ∈ tokenize query → t ∈ tokenize query') →
  (search query e).1 = Ok res → (search query' e).1 = Ok res' →
  ∀ D, D ∈ res'.*1 → D ∈ res.*1.
Proof.
  intros Hs Hne Hsub.
  rewrite !(ServingFacts.serving_search_run _ _ _ _ Hs). cbn [fst].
  intros [= <-] [= <-] D. rewrite !ServingFacts.elem_of_ranking.
  by apply SearchMore.candidates_mono.
Qed.

Lemma X20_witness :
  serving (F:=R) ex_dir "tf-idf" ex_engine ∧
  tokenize "search" ≠ [] ∧
  (∀ t, t ∈ tokenize "search" → t ∈ tokenize "gamma search") ∧
  (search (F:=R) "search" ex_engine).1
    = Ok (ranking "tf-idf" (crawler ex_engine) (tokenize "search")) ∧
  (search (F:=R) "gamma search" ex_engine).1
    = Ok (ranking "tf-idf" (crawler ex_engine) (tokenize "gamma search")) ∧
  ∀ D, D ∈ (ranking (F:=R) "tf-idf" (crawler ex_engine)
                    (tokenize "gamma search")).*1 →
       D ∈ (ranking (F:=R) "tf-idf" (crawler ex_engine)
                    (tokenize "search")).*1.
Proof.
  assert (∀ t, t ∈ tokenize "search" → t ∈ tokenize "gamma search") as Hsub.
  { intros t Ht. change (tokenize "search") with ["search"] in Ht.
    apply list_elem_of_singleton in Ht as ->.
    apply list_elem_of_In. vm_compute. tauto. }
  assert (∀ q, (search (F:=R) q ex_engine).1
               = Ok (ranking "tf-idf" (crawler ex_engine) (tokenize q)))
    as Hrun.
  { intros q.
    by rewrite (ServingFacts.serving_search_run ex_dir "tf-idf" ex_engine q
                  ServingFacts.ex_serving). }
  split; [apply ServingFacts.ex_serving|]. split; [discriminate|].
  split; [exact Hsub|]. split; [apply Hrun|]. split; [apply Hrun|].
  apply (X20_more_terms_fewer_results ex_dir "tf-idf" ex_engine
           "search" "gamma search" _ _ ServingFacts.ex_serving
           ltac:(discriminate) Hsub (Hrun _) (Hrun _)).
Defined.

(** X21: the sort is stable on its own output: a list in which no score
    is smaller than a later one comes back unchanged, rows with equal
    scores in the order they had. *)
Theorem X21_sorted_desc_keeps_descending {F : Type} `{ScoreNum F}
    (l : list (string * F)) :
  descending l → sorted_desc l = l.
Proof. apply SearchMore.sorted_desc_fixed. Qed.

Lemma X21_witness :
  descending (F:=R) [("a", 2%R); ("b", 1%R); ("c", 1%R)] ∧
  sorted_desc (F:=R) [("a", 2%R); ("b", 1%R); ("c", 1%R)]
  = [("a", 2%R); ("b", 1%R); ("c", 1%R)].
Proof.
  assert (descending (F:=R) [("a", 2%R); ("b", 1%R); ("c", 1%R)]) as Hd.
  { unfold descending.
    repeat first [apply SSorted_nil | apply SSorted_cons
                 | apply Forall_nil_2 | apply Forall_cons_2];
      simpl; unfold R_lt; destruct (Rlt_dec _ _); try reflexivity; lra. }
  split; [exact Hd|].
  apply (X21_sorted_desc_keeps_descending _ Hd).
Defined.

(** X22: a term of a crawled page, typed as a query, finds exactly the
    documents that contain it. *)
Theorem X22_term_query_finds_its_documents {F : Type} `{ScoreNum F}
    (dir : Directory) (mode : string) (e : SearchEngine) (t : string) :
  serving dir mode e → occurs (pages (crawler e)) t →
  ∃ res,
    (search t e).1 = Ok res ∧
    ∀ D, D ∈ res.*1 ↔ D ∈ docs_containing (pages (crawler e)) t.
Proof.
  intros Hs Hocc.
  pose proof (ServingFacts.serving_Indexed _ _ _ Hs) as [Hcrawl Hix].
  assert (is_term t) as Hterm.
  { apply BuildMore.occurs_page in Hocc as (f & d & Hget & Ht);
      [|apply (ixd_pages _ _ _ Hix)].
    destruct (BuildMore.crawled_words _ _ _ _ Hcrawl Hget)
      as (html & _ & _ & _ & Hwords & _).
    rewrite Hwords in Ht. by eapply TokenFacts.tokenize_terms. }
  rewrite (ServingFacts.serving_search_run _ _ _ _ Hs). cbn [fst].
  eexists. split; [done|]. intros D.
  rewrite ServingFacts.elem_of_ranking, (TokenFacts.tokenize_term t Hterm).
  rewrite SearchFacts.elem_of_candidates.
  rewrite ServingFacts.elem_of_docs_containing by apply (ixd_pages _ _ _ Hix).
  split.
  - intros [_ Hall]. apply Hall, list_elem_of_singleton. done.
  - intros Hpos. split; [done|]. by intros t' ->%list_elem_of_singleton.
Qed.

Lemma X22_witness :
  serving (F:=R) ex_dir "tf-idf" ex_engine ∧
  occurs (pages (crawler ex_engine)) "beta" ∧
  ∃ res,
    (search (F:=R) "beta" ex_engine).1 = Ok res ∧
    ∀ D, D ∈ res.*1 ↔ D ∈ docs_containing (pages (crawler ex_engine)) "beta".
Proof.
  assert (occurs (pages (crawler ex_engine)) "beta") as Hocc.
  { exists "b.html", {| title := "b.html"; words := ["beta"; "search"] |}.
    split; apply list_elem_of_In; vm_compute; tauto. }
  split; [apply ServingFacts.ex_serving|]. split; [exact Hocc|].
  apply (X22_term_query_finds_its_documents ex_dir "tf-idf" ex_engine "beta"
           ServingFacts.ex_serving Hocc).
Defined.

(** X23: every link of a crawled page counts for its target, whether the
    target is a crawled page, an unreadable file or no file at all: the
    inbound-link count read for a document is at least the number of times
    one page links to it. *)
Theorem X23_links_count_for_any_target {F : Type} `{ScoreNum F}
    (dir : Directory) (mode : string) (e : SearchEngine)
    (src d : string) (outs : list string) :
  serving dir mode e →
  PyDict.get (links (crawler e)) src = Some outs →
  length (filter (λ dest, dest = d) outs)
  ≤ default 0 (incoming_links e !! d).
Proof.
  intros [_ Hix]%ServingFacts.serving_Indexed Hget.
  rewrite (ixd_incoming _ _ _ Hix). by eapply SearchMore.edge_count_ge.
Qed.

Lemma X23_witness :
  serving (F:=R) ex_dir "tf-idf" ex_engine ∧
  PyDict.get (links (crawler ex_engine)) "a.html" = Some ["b.html"; "z.html"] ∧
  length (filter (λ dest, dest = "z.html") ["b.html"; "z.html"])
  ≤ default 0 (incoming_links ex_engine !! "z.html").
Proof.
  assert (PyDict.get (links (crawler ex_engine)) "a.html"
          = Some ["b.html"; "z.html"]) as Hget by (vm_compute; reflexivity).
  split; [apply ServingFacts.ex_serving|]. split; [exact Hget|].
  apply (X23_links_count_for_any_target (F:=R) ex_dir "tf-idf" ex_engine
           "a.html" "z.html" _ ServingFacts.ex_serving Hget).
Defined.



(** ** The order of the crawl *)

Module OrderFacts.
Section order.
Variable dir : Directory.
Variable all_files : list string.
Hypothesis all_distinct : NoDup all_files.

Lemma crawl_visit_order st file rest st' :
  queue st = file :: rest → CrawlOrder dir all_files st →
  crawl_visit dir all_files file rest st = Ok st' →
  CrawlOrder dir all_files st'.
Proof using all_distinct.
  intros Hq (done & todo & extra & Hall & Hqueue & Hvis & Hkeys & Hextra).
  unfold crawl_visit. rewrite Hq in Hqueue.
  destruct todo as [|f0 todo].
  - (* only links are left: everything is visited *)
    simpl in Hqueue. rewrite app_nil_r in Hall. subst done.
    assert (file ∈ visited st) as Hin.
    { rewrite Hvis. apply elem_of_list_to_set, Hextra.
      rewrite <-Hqueue. apply elem_of_cons. by left. }
    rewrite bool_decide_eq_true_2 by done. intros [= <-].
    exists all_files, [], rest. simpl. rewrite app_nil_r.
    split; [done|]. split; [done|]. split; [done|]. split; [done|].
    intros x Hx. apply Hextra. rewrite <-Hqueue. apply elem_of_cons. by right.
  - simpl in Hqueue. injection Hqueue as <- ->.
    assert (file ∉ done) as Hfresh.
    { rewrite Hall in all_distinct.
      apply NoDup_app in all_distinct as (_ & Hdisj & _).
      intros Hin. apply (Hdisj _ Hin). apply elem_of_cons. by left. }
    assert (file ∉ visited st) as Hnin.
    { rewrite Hvis. by rewrite elem_of_list_to_set. }
    rewrite bool_decide_eq_false_2 by done.
    assert (({[file]} ∪ visited st : gset string)
            = list_to_set (done ++ [file])) as Hvis'.
    { rewrite Hvis, list_to_set_app_L. simpl. set_solver. }
    assert (all_files = (done ++ [file]) ++ todo) as Hall'.
    { by rewrite <-app_assoc. }
    destruct (read_file dir file) as [html|] eqn:Hread.
    + destruct (extract dir html file) as [[[ti ws] outs]|x] eqn:Hext;
        [|done].
      rewrite CrawlFacts.follow_links. intros [= <-].
      exists (done ++ [file]), todo,
        (extra ++ enqueued all_files ({[file]} ∪ visited st) outs).
      simpl. split; [done|]. split; [by rewrite <-app_assoc|].
      split; [done|]. split.
      * rewrite PyDictFacts.keys_set_fresh.
        -- rewrite Hkeys, filter_app, filter_cons, filter_nil.
           by rewrite decide_True by (by rewrite Hread).
        -- apply PyDictFacts.get_None. rewrite Hkeys.
           intros [_ ?]%list_elem_of_filter. done.
      * intros x [?|Hx]%elem_of_app; [by apply Hextra|].
        apply list_elem_of_filter in Hx. tauto.
    + intros [= <-]. exists (done ++ [file]), todo, extra. simpl.
      split; [done|]. split; [done|]. split; [done|]. split; [|done].
      rewrite Hkeys, filter_app, filter_cons, filter_nil.
      rewrite decide_False; [by rewrite app_nil_r|].
      rewrite Hread. by intros [? ?].
Qed.

Lemma crawl_loop_order fuel : ∀ st st',
  crawl_loop dir all_files fuel st = Some (Ok st') →
  CrawlOrder dir all_files st →
  PyDict.keys (self_pages st')
  = filter (λ f, is_Some (read_file dir f)) all_files.
Proof using all_distinct.
  induction fuel as [|fuel IH]; intros st st' Hrun Hord; [done|].
  simpl in Hrun. destruct (queue st) as [|file rest] eqn:Hq.
  - injection Hrun as <-.
    destruct Hord as (done & todo & extra & Hall & Hqueue & _ & Hkeys & _).
    rewrite Hq in Hqueue. symmetry in Hqueue.
    apply app_eq_nil in Hqueue as [-> ->].
    rewrite app_nil_r in Hall. by subst done.
  - destruct (crawl_visit dir all_files file rest st) as [st1|x] eqn:Hv;
      [|done].
    eapply IH; [exact Hrun|]. by eapply crawl_visit_order.
Qed.
End order.

Lemma crawl_order dir c :
  NoDup (enumerate dir) → crawl dir WebCrawler_init = Some (Ok c) →
  PyDict.keys (pages c)
  = filter (λ f, is_Some (read_file dir f)) (enumerate dir).
Proof.
  intros Hnd. unfold crawl, enumerate in *.
  destruct (listdir dir) as [names|]; [|done].
  destruct (crawl_loop _ _ _ _) as [[st|x]|] eqn:Hrun; [|done|done].
  intros [= <-]. simpl.
  eapply (crawl_loop_order dir (html_files names)); [done|exact Hrun|].
  exists [], (html_files names), []. rewrite CrawlFacts.queue_start.
  rewrite app_nil_r. split; [done|]. split; [done|]. split; [done|].
  split; [done|]. intros x Hx. by apply elem_of_nil in Hx.
Qed.
End OrderFacts.

(** X25: when the directory listing names no ".html" file twice, a crawl
    that returns has recorded the pages in the order of the listing: the
    keys of [pages] are the enumerated files that can be read, in listing
    order, whatever the links between them. *)
Theorem X25_pages_in_listing_order (dir : Directory) (c : WebCrawler) :
  NoDup (enumerate dir) → crawl dir WebCrawler_init = Some (Ok c) →
  PyDict.keys (pages c)
  = filter (λ f, is_Some (read_file dir f)) (enumerate dir).
Proof. apply OrderFacts.crawl_order. Qed.

Lemma X25_witness :
  NoDup (enumerate ex_dir) ∧
  crawl ex_dir WebCrawler_init = Some (Ok (crawler ex_engine)) ∧
  PyDict.keys (pages (crawler ex_engine))
  = filter (λ f, is_Some (read_file ex_dir f)) (enumerate ex_dir).
Proof.
  assert (NoDup (enumerate ex_dir)) as Hnd.
  { apply (bool_decide_unpack (NoDup (enumerate ex_dir))).
    vm_compute. exact I. }
  assert (crawl ex_dir WebCrawler_init = Some (Ok (crawler ex_engine)))
    as Hcrawl by (vm_compute; reflexivity).
  split; [exact Hnd|]. split; [exact Hcrawl|].
  apply (X25_pages_in_listing_order ex_dir (crawler ex_engine) Hnd Hcrawl).
Defined.

(** ** Scores and ranks *)

Module RankFacts.
Lemma descending_lookup {F : Type} `{ScoreNum F} (l : list (string * F)) :
  descending l → ∀ i j a b,
  l !! i = Some a → l !! j = Some b → i < j → flt a.2 b.2 = false.
Proof.
  unfold descending. induction 1 as [|x l Hs IH Hx]; intros i j a b Hi Hj Hlt.
  - by rewrite lookup_nil in Hi.
  - destruct j as [|j]; [lia|]. simpl in Hj. destruct i as [|i].
    + injection Hi as <-. rewrite Forall_forall in Hx.
      apply Hx. by eapply list_elem_of_lookup_2.
    + simpl in Hi. apply (IH i j); [done|done|lia].
Qed.

Lemma flt_irrefl {F : Type} `{ScoreNum F} (x : F) : flt x x = false.
Proof.
  destruct (flt x x) eqn:Hx; [|done]. by rewrite (flt_asym x x Hx) in Hx.
Qed.

Lemma fold_sum_pos (g : string → R) terms : ∀ acc : R,
  (0 <= acc)%R → (∀ t, t ∈ terms → (0 < g t)%R) → terms ≠ [] →
  (0 < fold_left (λ sum t, fadd sum (g t)) terms acc)%R.
Proof.
  induction terms as [|t terms IH]; intros acc Hacc Hg Hne; [done|].
  simpl. assert (0 < g t)%R as Ht by (apply Hg, elem_of_cons; by left).
  destruct terms as [|t' terms'].
  - simpl. lra.
  - apply IH; [lra| |done]. intros t0 Ht0. apply Hg, elem_of_cons. by right.
Qed.

Lemma term_score_pos mode pgs t D :
  0 < freq pgs t D → (0 < term_score (F:=R) mode pgs t D)%R.
Proof.
  intros Hpos. unfold term_score.
  destruct (String.eqb mode "simple"); simpl.
  - by apply lt_0_INR.
  - pose proof (SearchFacts.freq_le_length pgs t D) as Hle.
    pose proof (RealFacts.idf_pos (length pgs) (df pgs t)
                  (ServingFacts.df_le pgs t)) as Hidf.
    apply Rmult_lt_0_compat; [|exact Hidf].
    apply Rdiv_lt_0_compat; apply lt_0_INR; lia.
Qed.
End RankFacts.

(** X26: with real-valued scores, in either ranking mode, every score
    [search] returns is strictly positive. *)
Theorem X26_scores_are_positive
    (dir : Directory) (mode : string) (e : SearchEngine) (query : string)
    (res : list (string * R)) (D : string) (s : R) :
  serving (F:=R) dir mode e →
  (search query e).1 = Ok res → (D, s) ∈ res → (0 < s)%R.
Proof.
  intros Hs. rewrite (ServingFacts.serving_search_run _ _ _ _ Hs). cbn [fst].
  intros [= <-]. unfold ranking. rewrite SearchFacts.sorted_desc_perm.
  intros (D' & [= <- ->] & HD)%list_elem_of_fmap.
  apply elem_of_elements, SearchFacts.elem_of_candidates in HD as [Hne Hall].
  unfold total_score.
  assert (0 < fold_left
                (λ acc t, fadd acc (term_score mode (pages (crawler e)) t D))
                (tokenize query) (of_nat 0))%R as Hsum.
  { apply (RankFacts.fold_sum_pos
             (λ t, term_score mode (pages (crawler e)) t D)); [simpl; lra| |done].
    intros t Ht. by apply RankFacts.term_score_pos, Hall. }
  pose proof (pos_INR (edge_count (links (crawler e)) D)) as Hn.
  simpl in *. nra.
Qed.

Lemma X26_witness :
  serving (F:=R) ex_dir "tf-idf" ex_engine ∧
  (search (F:=R) "gamma" ex_engine).1
    = Ok [("c.html", total_score "tf-idf" (crawler ex_engine)
                                 (tokenize "gamma") "c.html")] ∧
  ("c.html", total_score (F:=R) "tf-idf" (crawler ex_engine)
                         (tokenize "gamma") "c.html")
    ∈ [("c.html", total_score (F:=R) "tf-idf" (crawler ex_engine)
                              (tokenize "gamma") "c.html")] ∧
  (0 < total_score (F:=R) "tf-idf" (crawler ex_engine)
                   (tokenize "gamma") "c.html")%R.
Proof.
  assert ((search (F:=R) "gamma" ex_engine).1
          = Ok [("c.html", total_score "tf-idf" (crawler ex_engine)
                                       (tokenize "gamma") "c.html")]) as Hrun.
  { by rewrite ServingFacts.ex_search_gamma. }
  split; [apply ServingFacts.ex_serving|]. split; [exact Hrun|].
  split; [apply list_elem_of_singleton; reflexivity|].
  apply (X26_scores_are_positive ex_dir "tf-idf" ex_engine "gamma" _ "c.html"
           _ ServingFacts.ex_serving Hrun).
  apply list_elem_of_singleton. reflexivity.
Defined.

(** X27: in "simple" mode with real-valued scores, for a query of one
    term, a returned document with more occurrences of the term and no
    fewer inbound links than another stands strictly earlier in the
    result. *)
Theorem X27_more_occurrences_rank_first
    (dir : Directory) (e : SearchEngine) (query t : string)
    (res : list (string * R)) (i j : nat) (D1 D2 : string) (s1 s2 : R) :
  serving (F:=R) dir "simple" e →
  tokenize query = [t] →
  (search query e).1 = Ok res →
  res !! i = Some (D1, s1) → res !! j = Some (D2, s2) →
  freq (pages (crawler e)) t D2 < freq (pages (crawler e)) t D1 →
  default 0 (incoming_links e !! D2) ≤ default 0 (incoming_links e !! D1) →
  i < j.
Proof.
  intros Hs Hterms.
  pose proof (ServingFacts.serving_Indexed _ _ _ Hs) as [_ Hix].
  rewrite (ServingFacts.serving_search_run _ _ _ _ Hs), Hterms. cbn [fst].
  intros [= <-] Hi Hj Hfreq Hinc.
  pose proof (SearchFacts.sorted_desc_descending
                ((λ D, (D, total_score (F:=R) "simple" (crawler e) [t] D))
                   <$> elements (candidates (pages (crawler e)) [t])))
    as Hdesc.
  fold (ranking (F:=R) "simple" (crawler e) [t]) in Hdesc.
  assert (∀ k D s, ranking (F:=R) "simple" (crawler e) [t] !! k = Some (D, s) →
                   s = (INR 0 + INR (freq (pages (crawler e)) t D)
                        + 1 / 10 * INR (default 0%nat (incoming_links e !! D)))%R)
    as Hscore.
  { intros k D s Hk%list_elem_of_lookup_2. unfold ranking in Hk.
    rewrite SearchFacts.sorted_desc_perm in Hk.
    apply list_elem_of_fmap in Hk as (D' & [= <- ->] & _).
    unfold total_score, term_score. simpl.
    by rewrite (ixd_incoming _ _ _ Hix). }
  assert (s2 < s1)%R as Hlt.
  { rewrite (Hscore _ _ _ Hi), (Hscore _ _ _ Hj).
    apply lt_INR in Hfreq. apply le_INR in Hinc. lra. }
  destruct (Nat.lt_trichotomy i j) as [?|[->|Hji]]; [done| |].
  - rewrite Hi in Hj. injection Hj as _ ->. lra.
  - pose proof (RankFacts.descending_lookup _ Hdesc j i _ _ Hj Hi Hji) as Hge.
    simpl in Hge. unfold R_lt in Hge. destruct (Rlt_dec s2 s1); [done|lra].
Qed.

Lemma X27_witness :
  serving (F:=R) ex_dir "simple" ex_engine_simple ∧
  tokenize "search" = ["search"] ∧
  (search (F:=R) "search" ex_engine_simple).1
    = Ok [("a.html", (0 + 2 + 1 / 10 * 2)%R);
          ("b.html", (0 + 1 + 1 / 10 * 1)%R);
          ("c.html", (0 + 1 + 1 / 10 * 0)%R)] ∧
  [("a.html", (0 + 2 + 1 / 10 * 2)%R); ("b.html", (0 + 1 + 1 / 10 * 1)%R);
   ("c.html", (0 + 1 + 1 / 10 * 0)%R)] !! 0%nat
    = Some ("a.html", (0 + 2 + 1 / 10 * 2)%R) ∧
  [("a.html", (0 + 2 + 1 / 10 * 2)%R); ("b.html", (0 + 1 + 1 / 10 * 1)%R);
   ("c.html", (0 + 1 + 1 / 10 * 0)%R)] !! 1%nat
    = Some ("b.html", (0 + 1 + 1 / 10 * 1)%R) ∧
  freq (pages (crawler ex_engine_simple)) "search" "b.html"
    < freq (pages (crawler ex_engine_simple)) "search" "a.html" ∧
  default 0 (incoming_links ex_engine_simple !! "b.html")
    ≤ default 0 (incoming_links ex_engine_simple !! "a.html") ∧
  0 < 1.
Proof.
  assert (freq (pages (crawler ex_engine_simple)) "search" "b.html"
          < freq (pages (crawler ex_engine_simple)) "search" "a.html") as Hfreq
    by (vm_compute; lia).
  assert (default 0 (incoming_links ex_engine_simple !! "b.html")
          ≤ default 0 (incoming_links ex_engine_simple !! "a.html")) as Hinc
    by (vm_compute; lia).
  assert ((search (F:=R) "search" ex_engine_simple).1
          = Ok [("a.html", (0 + 2 + 1 / 10 * 2)%R);
                ("b.html", (0 + 1 + 1 / 10 * 1)%R);
                ("c.html", (0 + 1 + 1 / 10 * 0)%R)]) as Hrun
    by apply SearchMore.ex_simple_search.
  split; [apply SearchMore.ex_simple_serving|]. split; [reflexivity|].
  split; [exact Hrun|]. split; [reflexivity|]. split; [reflexivity|].
  split; [exact Hfreq|]. split; [exact Hinc|].
  apply (X27_more_occurrences_rank_first ex_dir ex_engine_simple
           "search" "search" _ 0 1 "a.html" "b.html" _ _
           SearchMore.ex_simple_serving eq_refl Hrun eq_refl eq_refl
           Hfreq Hinc).
Defined.

(** X28: the trie answers every look-up as the dictionary of term
    positions does: what it returns for a string is the position recorded
    for it, and nothing for a string that is no recorded term, prefixes and
    extensions of terms included. *)
Theorem X28_trie_agrees_with_word_to_index {F : Type} `{ScoreNum F}
    (dir : Directory) (mode : string) (e : SearchEngine) (t : string) :
  serving dir mode e →
  Trie.search (trie e) t = PyDict.get (word_to_index e) t.
Proof.
  intros [_ Hix]%ServingFacts.serving_Indexed. apply (ixd_trie _ _ _ Hix).
Qed.

Lemma X28_witness :
  serving (F:=R) ex_dir "tf-idf" ex_engine ∧
  Trie.search (trie ex_engine) "sear" = PyDict.get (word_to_index ex_engine) "sear".
Proof.
  split; [apply ServingFacts.ex_serving|].
  apply (X28_trie_agrees_with_word_to_index (F:=R) ex_dir "tf-idf" ex_engine
           "sear").
  apply ServingFacts.ex_serving.
Defined.
